(** * Kishu checkpoint/restore planner: a shallow embedding

    The development follows the two modules of the planner that do the
    work:

    - [kishu/planning/object_state.py]: the entry point of the fingerprint
      builder, [create_idgraph] and [get_object_state] (module
      [ObjectState] below);
    - [kishu/planning/planner.py]: [CheckpointRestorePlanner] with its
      pre/post cell hooks, plan generation and [replace_state] (module
      [Planner] below).

    Python objects are references into a heap, dictionaries are [gmap]s,
    sets are [gset]s, and a method that mutates [self] or raises is a
    computation in a state-and-exception monad.  Collaborators whose code
    lives in other modules of the package (the visitor, the AHG, the
    optimizer, the namespace, the store) are interfaces; where a statement
    needs one of them concretely, a definition marked
    "Modelled from the spec:" follows the wording of the specification. *)

From Stdlib Require Import QArith DecimalString DecimalPos.
From stdpp Require Import gmap strings list fin_maps sets.

Set Warnings "-register-all,-clear-no-such-hyp".

Local Open Scope Z_scope.

(** ** Exceptions and the state-and-exception monad *)

(** The exceptions the modelled code can raise. *)
Inductive exn :=
| KeyError (key : string)            (* [d[k]] on a [str]-keyed dict *)
| KeyError_int (key : Z)             (* [d[k]] on an [int]-keyed dict *)
| KeyError_names (key : gset string) (* [d[k]] on a [frozenset]-keyed dict *)
| AttributeError (attr : string)     (* [o.attr] on an object without it *)
| DeserializationError (msg : string)
| StoreError (msg : string).

(** An invocation either returns a value or raises; in both cases the
    object it ran on is left in some state. *)
Inductive outcome (S A : Type) :=
| Returned (a : A) (s : S)
| Raised (e : exn) (s : S).
Arguments Returned {S A} a s.
Arguments Raised {S A} e s.

Definition M (S A : Type) : Type := S -> outcome S A.

#[global] Instance M_ret {S} : MRet (M S) := fun A a s => Returned a s.
#[global] Instance M_bind {S} : MBind (M S) := fun A B f m s =>
  match m s with
  | Returned a s' => f a s'
  | Raised e s' => Raised e s'
  end.

Definition gets {S A} (f : S -> A) : M S A := fun s => Returned (f s) s.
Definition modify {S} (f : S -> S) : M S unit := fun s => Returned tt (f s).
Definition raise {S A} (e : exn) : M S A := fun s => Raised e s.

(** A call into a collaborator that returns or raises without touching the
    caller's state. *)
Definition call {S A} (r : exn + A) : M S A :=
  match r with inl e => raise e | inr a => mret a end.

(** [d[k]] on a dictionary held in a local variable. *)
Definition getitem {S K A} `{Countable K} (err : K -> exn) (d : gmap K A)
    (k : K) : M S A :=
  match d !! k with Some a => mret a | None => raise (err k) end.

(** [for x in l: body x] *)
Fixpoint for_each {S A} (l : list A) (body : A -> M S unit) : M S unit :=
  match l with
  | [] => mret tt
  | x :: l' => body x ≫= fun _ => for_each l' body
  end.

(** A [for] loop that updates local variables [acc]. *)
Fixpoint fold_each {S A B} (l : list A) (acc : B) (body : B -> A -> M S B)
    : M S B :=
  match l with
  | [] => mret acc
  | x :: l' => body acc x ≫= fun acc' => fold_each l' acc' body
  end.

(** A list comprehension [[f x for x in l]] whose [f] may raise. *)
Fixpoint map_each {S A B} (l : list A) (f : A -> M S B) : M S (list B) :=
  match l with
  | [] => mret []
  | x :: l' => f x ≫= fun y => map_each l' f ≫= fun ys => mret (y :: ys)
  end.

(** The state an invocation leaves, whether it returned or raised. *)
Definition final_state {S A} (o : outcome S A) : S :=
  match o with Returned _ s | Raised _ s => s end.

(** What an invocation returned or raised, without the state. *)
Definition result {S A} (o : outcome S A) : exn + A :=
  match o with Returned a _ => inr a | Raised e _ => inl e end.

(** [itertools.combinations(l, 2)] *)
Fixpoint combinations2 {A} (l : list A) : list (A * A) :=
  match l with
  | [] => []
  | x :: l' => map (pair x) l' ++ combinations2 l'
  end.

(** ** [kishu/planning/object_state.py] *)

Module ObjectState.

(** [id(obj)]: the identity token of an object. *)
Definition obj_id := N.

(** The classes the dispatch probes with [isinstance]. *)
Inductive pyclass :=
| Cobject | Cint | Cfloat | Cbool | Cstr | CNoneType | CNotImplementedType
| Cellipsis | Ctuple | Clist | Cset | Cdict | Cbytes | Cbytearray | Ctype
| Cuser (name : string).

#[global] Instance pyclass_eq_dec : EqDecision pyclass.
Proof. solve_decision. Defined.

Inductive literal :=
| LInt (z : Z) | LFloat (bits : Z) | LBool (b : bool) | LStr (s : string)
| LNone | LNotImplemented | LEllipsis.

#[global] Instance literal_eq_dec : EqDecision literal.
Proof. solve_decision. Defined.

(** What an object holds; references to other objects are identity tokens
    resolved in the heap, so that sharing and cycles can be represented. *)
Inductive contents :=
| Value (l : literal)
| Items (items : list obj_id)                (* tuple, list, set *)
| Entries (kvs : list (obj_id * obj_id))      (* dict *)
| Buffer (bytes : list Z)                    (* bytes, bytearray *)
| Qualname (name : string) (code : option (list Z))   (* class, function *)
| Reduced (parts : list obj_id)              (* output of [__reduce_ex__] *)
| NoContents.

(** A live Python object as far as the dispatch can observe it: the method
    resolution order of its class (what [isinstance] consults), whether
    [callable(obj)] holds, whether it has a [__reduce_ex__] attribute, and
    its contents. *)
Record PyObj := {
  ob_type : string;
  ob_mro : list pyclass;
  ob_callable : bool;
  ob_has_reduce_ex : bool;
  ob_value : contents
}.

Abbreviation Heap := (gmap obj_id PyObj).

(** [isinstance(obj, classes)] *)
Definition isinstance (o : PyObj) (classes : list pyclass) : bool :=
  existsb (fun c => bool_decide (c ∈ classes)) (ob_mro o).

(** [callable(obj)] and [hasattr(obj, '__reduce_ex__')] *)
Definition callable (o : PyObj) : bool := ob_callable o.
Definition hasattr_reduce_ex (o : PyObj) : bool := ob_has_reduce_ex o.

Definition primitive_classes : list pyclass :=
  [Cint; Cfloat; Cbool; Cstr; CNoneType; CNotImplementedType; Cellipsis].

Section visitor.
(** [N]: what the visitor builds (a graph node, or a hash object);
    [U]: the hash state threaded as [update_state]. *)
Context {N U : Type}.

(** [visited]: the dictionary from identity token to what was built for
    it.  Python mutates it in place; here every call returns it. *)
Local Abbreviation Visited := (gmap obj_id N).

(** The recursive call a visit method makes on a child:
    [get_object_state(child, visited, visitor=self, ...)]. *)
Definition recursion := obj_id -> Visited -> option (N * Visited).

(** [visitor.visit_xxx(obj, visited, include_id, update_state)] *)
Definition visit_method :=
  recursion -> obj_id -> PyObj -> Visited -> bool -> option U ->
  option (N * Visited).

(** The interface [kishu.planning.visitor.Visitor], as
    [get_object_state] calls it.  [check_visited] returns [Some ret] for
    Python's [(True, ret)] and [None] for [(False, _)]; it receives the
    dictionary to consult it.  [visit_primitive] receives the object
    only, so it cannot touch [visited]. *)
Record Visitor := {
  check_visited : Visited -> obj_id -> bool -> option N;
  visit_primitive : PyObj -> N;
  visit_tuple : visit_method;
  visit_list : visit_method;
  visit_set : visit_method;
  visit_dict : visit_method;
  visit_byte : visit_method;
  visit_type : visit_method;
  visit_callable : visit_method;
  visit_custom_obj : visit_method;
  visit_other : visit_method
}.

(** The branches of the [if]/[elif] chain, in source order. *)
Inductive branch :=
| BPrimitive | BTuple | BList | BSet | BDict | BByte | BType | BCallable
| BCustomObj | BOther.

(** The condition written on each branch ([else] has none). *)
Definition guard (b : branch) (o : PyObj) : bool :=
  match b with
  | BPrimitive => isinstance o primitive_classes
  | BTuple => isinstance o [Ctuple]
  | BList => isinstance o [Clist]
  | BSet => isinstance o [Cset]
  | BDict => isinstance o [Cdict]
  | BByte => isinstance o [Cbytes; Cbytearray]
  | BType => isinstance o [Ctype]
  | BCallable => callable o
  | BCustomObj => hasattr_reduce_ex o
  | BOther => true
  end.

(** The [if]/[elif]/[else] chain of [get_object_state], lines 28-56. *)
Definition dispatch (o : PyObj) : branch :=
  if isinstance o primitive_classes then BPrimitive
  else if isinstance o [Ctuple] then BTuple
  else if isinstance o [Clist] then BList
  else if isinstance o [Cset] then BSet
  else if isinstance o [Cdict] then BDict
  else if isinstance o [Cbytes; Cbytearray] then BByte
  else if isinstance o [Ctype] then BType
  else if callable o then BCallable
  else if hasattr_reduce_ex o then BCustomObj
  else BOther.

(** The position of a branch in the chain. *)
Definition branch_index (b : branch) : nat :=
  match b with
  | BPrimitive => 0 | BTuple => 1 | BList => 2 | BSet => 3 | BDict => 4
  | BByte => 5 | BType => 6 | BCallable => 7 | BCustomObj => 8 | BOther => 9
  end.

(** A branch applies to an object when its condition holds and the
    condition of every branch written before it fails. *)
Definition applies (o : PyObj) (b : branch) : Prop :=
  guard b o = true /\
  forall b', (branch_index b' < branch_index b)%nat -> guard b' o = false.

(** The body of the branch taken. *)
Definition visit (visitor : Visitor) (b : branch) (rec : recursion)
    (obj : obj_id) (o : PyObj) (visited : Visited) (include_id : bool)
    (update_state : option U) : option (N * Visited) :=
  match b with
  | BPrimitive => Some (visit_primitive visitor o, visited)
  | BTuple => visit_tuple visitor rec obj o visited include_id update_state
  | BList => visit_list visitor rec obj o visited include_id update_state
  | BSet => visit_set visitor rec obj o visited include_id update_state
  | BDict => visit_dict visitor rec obj o visited include_id update_state
  | BByte => visit_byte visitor rec obj o visited include_id update_state
  | BType => visit_type visitor rec obj o visited include_id update_state
  | BCallable =>
      visit_callable visitor rec obj o visited include_id update_state
  | BCustomObj =>
      visit_custom_obj visitor rec obj o visited include_id update_state
  | BOther => visit_other visitor rec obj o visited include_id update_state
  end.

(** [get_object_state(obj, visited, visitor, update_state, include_id)].
    [obj] is a reference; the heap resolves it.  The recursion goes
    through the visitor, so it is bounded by [fuel]: [None] stands for a
    traversal deeper than [fuel] (or a dangling reference, which Python
    cannot produce). *)
Fixpoint get_object_state (fuel : nat) (heap : Heap) (obj : obj_id)
    (visited : Visited) (visitor : Visitor) (update_state : option U)
    (include_id : bool) : option (N * Visited) :=
  match fuel with
  | O => None
  | S fuel' =>
      match check_visited visitor visited obj include_id with
      | Some ret => Some (ret, visited)
      | None =>
          match heap !! obj with
          | None => None
          | Some o =>
              visit visitor (dispatch o)
                (fun child vis =>
                   get_object_state fuel' heap child vis visitor
                     update_state include_id)
                obj o visited include_id update_state
          end
      end
  end.
End visitor.
Arguments Visitor : clear implicits.
Arguments recursion : clear implicits.
Arguments visit_method : clear implicits.

(** [visited]: identity token to what was built for it. *)
Abbreviation Visited N := (gmap obj_id N).

End ObjectState.

(** ** The fingerprint graph and its visitor

    [kishu.planning.idgraph_visitor] and [kishu.planning.idgraph] are
    other modules of the package; what follows is written from the
    specification (sections 3, 4.1 and 4.2). *)

Module IdGraph.
Import ObjectState.

(** Modelled from the spec: the content payload of a node (section 3), a
    primitive literal, a container shape, or a digest / name for the leaf
    categories. *)
Inductive payload :=
| PLiteral (l : literal)
| PContainer
| PDigest (d : Z)
| PName (name : string) (code : option Z)
| POpaque (type_name : string) (token : obj_id).

#[global] Instance payload_eq_dec : EqDecision payload.
Proof. solve_decision. Defined.

(** Modelled from the spec: IdGraphNode (section 3).  A node carries the
    object identity token (absent on primitive leaves and when identities
    are excluded from the fingerprint), the type tag, a content payload and
    the ordered edges to its children; a previously seen identity is a
    back-edge that references the node built for it. *)
Inductive GraphNode :=
| Node (id_obj : option obj_id) (obj_type : string) (content : payload)
       (children : list GraphNode)
| BackEdge (target : obj_id).

(** Modelled from the spec: the digests used for canonical ordering and
    for byte buffers; the specification does not fix the hash. *)
Class Digest := {
  digest_node : GraphNode -> Z;
  digest_bytes : list Z -> Z
}.

(** Modelled from the spec: the canonical order of set and dict edges
    (section 4.1), an insertion sort by digest. *)
Fixpoint insert_by {A} (key : A -> Z) (x : A) (l : list A) : list A :=
  match l with
  | [] => [x]
  | y :: l' => if bool_decide (key x ≤ key y) then x :: l
               else y :: insert_by key x l'
  end.

Definition sort_by {A} (key : A -> Z) (l : list A) : list A :=
  foldr (insert_by key) [] l.

(** Modelled from the spec: the children are fingerprinted left to
    right, with the one [visited] dictionary of the build. *)
Fixpoint visit_each (rec : recursion GraphNode) (children : list obj_id)
    (visited : Visited GraphNode)
    : option (list GraphNode * Visited GraphNode) :=
  match children with
  | [] => Some ([], visited)
  | c :: cs =>
      match rec c visited with
      | None => None
      | Some (n, visited1) =>
          match visit_each rec cs visited1 with
          | None => None
          | Some (ns, visited2) => Some (n :: ns, visited2)
          end
      end
  end.

Definition items_of (o : PyObj) : list obj_id :=
  match ob_value o with
  | Items xs => xs
  | Reduced xs => xs
  | _ => []
  end.

Definition literal_of (o : PyObj) : literal :=
  match ob_value o with Value l => l | _ => LNone end.

Definition bytes_of (o : PyObj) : list Z :=
  match ob_value o with Buffer bs => bs | _ => [] end.

Definition qualname_of (o : PyObj) : string :=
  match ob_value o with Qualname n _ => n | _ => ob_type o end.

Definition code_of (o : PyObj) : option (list Z) :=
  match ob_value o with Qualname _ c => c | _ => None end.

(** Every object an object refers to. *)
Definition refs (o : PyObj) : list obj_id :=
  match ob_value o with
  | Items xs | Reduced xs => xs
  | Entries kvs => flat_map (fun kv => [kv.1; kv.2]) kvs
  | _ => []
  end.

(** Every reference held by an object of the heap resolves in the heap
    (in Python a reference cannot dangle). *)
Definition closed (heap : Heap) : Prop :=
  map_Forall (fun _ o => Forall (fun c => c ∈ dom heap) (refs o)) heap.

(** A node proper, as opposed to a back-edge. *)
Definition is_node (n : GraphNode) : Prop :=
  match n with Node _ _ _ _ => True | BackEdge _ => False end.

(** A recursive call that returns, and only extends [visited], on every
    object of the heap as long as fewer than [fuel] objects of the heap
    are unvisited. *)
Definition rec_ok (heap : Heap) (fuel : nat) (rec : recursion GraphNode)
    : Prop :=
  forall obj visited,
    obj ∈ dom heap ->
    (size (dom heap ∖ dom visited) < fuel)%nat ->
    exists n visited', rec obj visited = Some (n, visited') /\ visited ⊆ visited'.

(** The identity stored in a node: present iff identities are included. *)
Definition token (include_id : bool) (obj : obj_id) : option obj_id :=
  if include_id then Some obj else None.

(** Modelled from the spec: "first visit records the new node"; the
    entry kept for [obj] is the reference that later visits return. *)
Definition record_node (obj : obj_id) (visited : Visited GraphNode)
    : Visited GraphNode :=
  <[obj := BackEdge obj]> visited.

Fixpoint pair_up (l : list GraphNode) : list (GraphNode * GraphNode) :=
  match l with
  | k :: v :: l' => (k, v) :: pair_up l'
  | _ => []
  end.

Section idgraph.
Context `{Digest}.
Context {U : Type}.

(** Modelled from the spec: a leaf category records the identity and
    builds a node without edges. *)
Definition leaf (content : PyObj -> obj_id -> payload)
    : visit_method GraphNode U :=
  fun rec obj o visited include_id update_state =>
    Some (Node (token include_id obj) (ob_type o) (content o obj) [],
          record_node obj visited).

(** Modelled from the spec: a container category records the identity
    first, so that a cycle back to it finds it, then fingerprints its
    children. *)
Definition internal
    (order : list GraphNode -> list GraphNode)
    (children : PyObj -> list obj_id) : visit_method GraphNode U :=
  fun rec obj o visited include_id update_state =>
    match visit_each rec (children o) (record_node obj visited) with
    | None => None
    | Some (ns, visited') =>
        Some (Node (token include_id obj) (ob_type o) PContainer (order ns),
              visited')
    end.

(** Modelled from the spec: the visitor [idgraph_visitor.idgraph]
    (section 4.1).  Primitive: leaf carrying the literal.  Ordered
    collection: edges in order.  Set: edges sorted by child digest.
    Mapping: (key, value) pairs sorted by key digest.  Byte buffer: leaf
    carrying the digest of the bytes.  Type: leaf carrying the qualified
    name.  Callable: leaf carrying the qualified name and the code
    digest.  Custom object: internal node over the reducer's output.
    Opaque: leaf carrying type name and identity token.  A visited
    identity yields the recorded back-edge. *)
Definition idgraph : Visitor GraphNode U := {|
  check_visited := fun visited obj include_id => visited !! obj;
  visit_primitive := fun o =>
    Node None (ob_type o) (PLiteral (literal_of o)) [];
  visit_tuple := internal id items_of;
  visit_list := internal id items_of;
  visit_set := internal (sort_by digest_node) items_of;
  visit_dict :=
    internal
      (fun ns => flat_map (fun kv => [kv.1; kv.2])
                   (sort_by (fun kv => digest_node kv.1) (pair_up ns)))
      refs;
  visit_byte := leaf (fun o _ => PDigest (digest_bytes (bytes_of o)));
  visit_type := leaf (fun o _ => PName (qualname_of o) None);
  visit_callable :=
    leaf (fun o _ => PName (qualname_of o) (digest_bytes <$> code_of o));
  visit_custom_obj := internal id items_of;
  visit_other := leaf (fun o obj => POpaque (ob_type o) obj)
|}.

(** [create_idgraph(obj)], object_state.py lines 5-7: a new visitor and
    an empty [visited] dictionary for every call. *)
Definition create_idgraph (fuel : nat) (heap : Heap) (obj : obj_id)
    : option GraphNode :=
  fst <$> get_object_state fuel heap obj ∅ idgraph None true.
End idgraph.

(** *** Comparators (section 4.2) *)

(** Modelled from the spec: structural_equal, "identical shape, type
    tags, identities, and leaf contents". *)
Fixpoint structural_equal (a b : GraphNode) : bool :=
  match a, b with
  | Node i t p cs, Node i' t' p' cs' =>
      bool_decide (i = i') && bool_decide (t = t') && bool_decide (p = p')
      && (fix all2 (l l' : list GraphNode) : bool :=
            match l, l' with
            | [], [] => true
            | x :: xs, y :: ys => structural_equal x y && all2 xs ys
            | _, _ => false
            end) cs cs'
  | BackEdge t, BackEdge t' => bool_decide (t = t')
  | _, _ => false
  end.

(** Forget every identity token of a fingerprint. *)
Fixpoint erase_ids (a : GraphNode) : GraphNode :=
  match a with
  | Node _ t p cs =>
      Node None t
        (match p with POpaque n _ => POpaque n 0%N | _ => p end)
        (map erase_ids cs)
  | BackEdge _ => BackEdge 0%N
  end.

(** Modelled from the spec: value_equal, "identical shape, type tags, and
    leaf contents, ignoring identity tokens". *)
Definition value_equal (a b : GraphNode) : bool :=
  structural_equal (erase_ids a) (erase_ids b).

(** The identity tokens a fingerprint carries; primitive leaves carry
    none. *)
Fixpoint tokens (a : GraphNode) : gset obj_id :=
  match a with
  | Node i _ _ cs =>
      (match i with Some x => {[x]} | None => ∅ end)
      ∪ foldr (fun c acc => tokens c ∪ acc) ∅ cs
  | BackEdge _ => ∅
  end.

(** Modelled from the spec: overlap, "true iff a and b share at least one
    non-primitive identity token". *)
Definition overlap (a b : GraphNode) : bool :=
  bool_decide (tokens a ∩ tokens b ≠ ∅).

(** Modelled from the spec: "roots share identity and type". *)
Definition root_id_and_type_equals (a b : GraphNode) : bool :=
  match a, b with
  | Node i t _ _, Node i' t' _ _ => bool_decide (i = i') && bool_decide (t = t')
  | BackEdge t, BackEdge t' => bool_decide (t = t')
  | _, _ => false
  end.

End IdGraph.

(** ** The application history graph

    [kishu.planning.ahg] is another module of the package.  The planner
    reads attributes of its records and calls its methods; the record
    types and the interface come first, a model of the methods written
    from the specification (sections 3 and 4.4) follows. *)

(** Modelled from the spec: VersionedName (section 3), the pair of a
    co-variable group and a version; hashable, so it can be a set
    member. *)
Record VersionedName := {
  vn_name : gset string;
  vn_version : Z
}.

#[global] Instance VersionedName_eq_dec : EqDecision VersionedName.
Proof. solve_decision. Defined.

#[global] Instance VersionedName_countable : Countable VersionedName.
Proof.
  apply (inj_countable' (fun vn => (vn_name vn, vn_version vn))
           (fun p => {| vn_name := p.1; vn_version := p.2 |})).
  by intros [].
Defined.

(** Modelled from the spec: VariableSnapshot (section 3).
    [vs_output_ce] is the [cell_num] of the cell execution that produced
    it ([vs.output_ce.cell_num]). *)
Record VariableSnapshot := {
  vs_name : gset string;
  vs_version : Z;
  vs_deleted : bool;
  vs_size : Z;
  vs_output_ce : Z
}.

(** [vs.size = sz] *)
Definition with_size (sz : Z) (vs : VariableSnapshot) : VariableSnapshot :=
  {| vs_name := vs_name vs; vs_version := vs_version vs;
     vs_deleted := vs_deleted vs; vs_size := sz;
     vs_output_ce := vs_output_ce vs |}.

(** Modelled from the spec: CellExecution (section 3); [cell] is its
    code. *)
Record CellExecution := {
  cell_num : Z;
  cell : string;
  cell_runtime_s : Q;
  src_vss : list VariableSnapshot;
  dst_vss : list VariableSnapshot
}.

(** The arguments of one call of [AHG.update_graph], in order. *)
Record UpdateGraphArgs := {
  uga_cell : option string;
  uga_version : Z;
  uga_cell_runtime_s : Q;
  uga_accessed_vars : gset string;
  uga_current_variables : gset string;
  uga_linked_variable_pairs : list (string * string);
  uga_modified_vars : gset string;
  uga_deleted_vars : gset string
}.

(** What the planner uses of an AHG.  [set_size] stands for the
    assignment [active_vs.size = ...] on a snapshot object that the AHG
    holds: the planner writes through the shared reference. *)
Class AHGOps (A : Type) := {
  get_variable_names : A -> gset string;
  get_active_variable_snapshots : A -> list VariableSnapshot;
  get_active_variable_snapshots_dict : A -> gmap (gset string) VariableSnapshot;
  get_cell_executions : A -> list CellExecution;
  update_graph : A -> UpdateGraphArgs -> A;
  set_size : A -> gset string -> Z -> A;
  serialize : A -> string;
  deserialize : string -> exn + A
}.

Module Ahg.

(** Modelled from the spec: AHG (section 3), the ordered list of cell
    executions and the dictionary from each active co-variable group to
    its latest snapshot. *)
Record AHG := {
  cell_executions : list CellExecution;
  active_variable_snapshots : gmap (gset string) VariableSnapshot
}.

(** Modelled from the spec: one union step, merging the groups that hold
    [x] and [y]. *)
Definition merge_groups (x y : string) (parts : gset (gset string))
    : gset (gset string) :=
  let touched := filter (fun g => x ∈ g \/ y ∈ g) parts in
  if bool_decide (touched = ∅) then parts
  else {[ ⋃ (elements touched) ]} ∪ (parts ∖ touched).

(** Modelled from the spec: update_graph step 2, "the active-names
    partition by union-find over linked_pairs restricted to
    current_names". *)
Definition union_find (current : gset string)
    (linked_pairs : list (string * string)) : gset (gset string) :=
  foldl (fun parts xy =>
           if bool_decide (xy.1 ∈ current /\ xy.2 ∈ current)
           then merge_groups xy.1 xy.2 parts else parts)
        (set_map (fun x : string => ({[x]} : gset string)) current)
        linked_pairs.

(** Modelled from the spec: update_graph step 3, a group gets a fresh
    snapshot when it is new, modified, or its membership changed, that is
    unless it is a key of the active dictionary and none of its names was
    modified. *)
Definition needs_fresh_vs (active : gmap (gset string) VariableSnapshot)
    (modified : gset string) (group : gset string) : bool :=
  bool_decide (active !! group = None)
  || bool_decide (group ∩ modified ≠ ∅).

(** Modelled from the spec: update_graph (section 4.4, steps 1-6). *)
Definition update_graph (g : AHG) (a : UpdateGraphArgs) : AHG :=
  let n := Z.of_nat (length (cell_executions g)) in
  let active := active_variable_snapshots g in
  let groups := union_find (uga_current_variables a)
                  (uga_linked_variable_pairs a) in
  let touched := uga_accessed_vars a ∪ uga_modified_vars a in
  let fresh :=
    (fun group => {| vs_name := group; vs_version := uga_version a;
                     vs_deleted := false; vs_size := 0; vs_output_ce := n |})
    <$> filter (fun group => needs_fresh_vs active (uga_modified_vars a) group)
          (elements groups) in
  let src :=
    filter (fun vs => vs_name vs ∩ touched ≠ ∅) (map_to_list active).*2 in
  let terminal :=
    (fun k => {| vs_name := {[k]}; vs_version := uga_version a;
                 vs_deleted := true; vs_size := 0; vs_output_ce := n |})
    <$> elements (uga_deleted_vars a) in
  let kept :=
    filter (fun kv => kv.1 ∈ groups
                      /\ kv.1 ∩ uga_modified_vars a = ∅
                      /\ kv.1 ∩ uga_deleted_vars a = ∅) active in
  {| cell_executions :=
       cell_executions g ++
       [{| cell_num := n; cell := default "" (uga_cell a);
           cell_runtime_s := uga_cell_runtime_s a;
           src_vss := src; dst_vss := fresh ++ terminal |}];
     active_variable_snapshots :=
       list_to_map ((fun vs => (vs_name vs, vs)) <$> fresh) ∪ kept |}.

(** Modelled from the spec: the [size] attribute of the active snapshot
    of [group] is assigned. *)
Definition set_size (g : AHG) (group : gset string) (sz : Z) : AHG :=
  {| cell_executions := cell_executions g;
     active_variable_snapshots :=
       alter (with_size sz) group (active_variable_snapshots g) |}.

(** Modelled from the spec: the AHG of a new session. *)
Definition empty : AHG :=
  {| cell_executions := []; active_variable_snapshots := ∅ |}.

#[global] Instance Q_eq_dec : EqDecision Q.
Proof. solve_decision. Defined.

#[global] Instance Q_countable : Countable Q.
Proof.
  apply (inj_countable' (fun q => (Qnum q, Qden q))
           (fun p => {| Qnum := p.1; Qden := p.2 |})).
  by intros [].
Defined.

#[global] Instance VariableSnapshot_eq_dec : EqDecision VariableSnapshot.
Proof. solve_decision. Defined.

#[global] Instance VariableSnapshot_countable : Countable VariableSnapshot.
Proof.
  apply (inj_countable'
           (fun vs => (vs_name vs, vs_version vs, vs_deleted vs, vs_size vs,
                       vs_output_ce vs))
           (fun p => {| vs_name := p.1.1.1.1; vs_version := p.1.1.1.2;
                        vs_deleted := p.1.1.2; vs_size := p.1.2;
                        vs_output_ce := p.2 |})).
  by intros [].
Defined.

#[global] Instance CellExecution_eq_dec : EqDecision CellExecution.
Proof. solve_decision. Defined.

#[global] Instance CellExecution_countable : Countable CellExecution.
Proof.
  apply (inj_countable'
           (fun ce => (cell_num ce, cell ce, cell_runtime_s ce, src_vss ce,
                       dst_vss ce))
           (fun p => {| cell_num := p.1.1.1.1; cell := p.1.1.1.2;
                        cell_runtime_s := p.1.1.2; src_vss := p.1.2;
                        dst_vss := p.2 |})).
  by intros [].
Defined.

#[global] Instance AHG_eq_dec : EqDecision AHG.
Proof. solve_decision. Defined.

#[global] Instance AHG_countable : Countable AHG.
Proof.
  apply (inj_countable'
           (fun g => (cell_executions g, active_variable_snapshots g))
           (fun p => {| cell_executions := p.1;
                        active_variable_snapshots := p.2 |})).
  by intros [].
Defined.

(** Modelled from the spec: serialize / deserialize (section 4.4), "an
    opaque portable string" with round-trip fidelity.  The string is the
    decimal numeral of the graph's code in an enumeration of all graphs;
    a string that is no numeral, or the numeral of no graph, is corrupt. *)
Definition serialize (g : AHG) : string :=
  NilEmpty.string_of_uint (Pos.to_uint (encode g)).

Definition deserialize (s : string) : exn + AHG :=
  match NilEmpty.uint_of_string s with
  | None => inl (DeserializationError s)
  | Some d =>
      match Pos.of_uint d with
      | N0 => inl (DeserializationError s)
      | Npos p =>
          match decode p with
          | None => inl (DeserializationError s)
          | Some g => inr g
          end
      end
  end.

(** Modelled from the spec: the accessors of the AHG.  The variable
    names are the names of the active groups, the active snapshots are
    the values of the active dictionary. *)
#[global] Instance ops : AHGOps AHG :=
  Build_AHGOps AHG
    (fun g => ⋃ (map_to_list (active_variable_snapshots g)).*1)
    (fun g => (map_to_list (active_variable_snapshots g)).*2)
    active_variable_snapshots
    cell_executions
    update_graph
    set_size
    serialize
    deserialize.

End Ahg.

(** ** Other collaborators of the planner *)

(** What [planner.py] imports from [kishu.planning.idgraph]:
    [get_object_state(obj, {})], [value_equals(a, b)], and on graph nodes
    [a == b], [a.is_root_id_and_type_equals(b)] and [a.is_overlap(b)].
    [V] is the type of live values, [G] of fingerprints. *)
Class IdGraphOps (V G : Type) := {
  get_object_state : V -> G;
  value_equals : G -> G -> bool;
  graph_eq : G -> G -> bool;
  is_root_id_and_type_equals : G -> G -> bool;
  is_overlap : G -> G -> bool
}.

(** What the specification states of the two equalities (section 4.2 and
    section 8, invariants 1 and 2): structural equality is reflexive and
    implies value equality. *)
Class IdGraphLaws {V G} (ops : IdGraphOps V G) : Prop := {
  graph_eq_refl : forall a : G, graph_eq a a = true;
  graph_eq_value_equals :
    forall a b : G, graph_eq a b = true -> value_equals a b = true
}.

(** Modelled from the spec: the Namespace interface (section 6), a
    dictionary of bindings together with the names read since the last
    reset. *)
Record Namespace (V : Type) := {
  ns_vars : gmap string V;
  ns_accessed : gset string
}.
Arguments ns_vars {V} _.
Arguments ns_accessed {V} _.

(** Modelled from the spec: [keyset()], [k in ns], [accessed_vars()] and
    [reset_accessed_vars()] of the Namespace. *)
Definition keyset {V} (ns : Namespace V) : gset string := dom (ns_vars ns).
Definition contains {V} (ns : Namespace V) (k : string) : bool :=
  bool_decide (k ∈ dom (ns_vars ns)).
Definition accessed_vars {V} (ns : Namespace V) : gset string :=
  ns_accessed ns.
Definition reset_accessed_vars {V} (ns : Namespace V) : Namespace V :=
  {| ns_vars := ns_vars ns; ns_accessed := ∅ |}.

(** [Optimizer(ahg, active_vss, already_stored).compute_plan()] together
    with the [req_func_mapping] it leaves on the optimizer:
    [(vss_to_migrate, ces_to_recompute, req_func_mapping)]. *)
Class OptimizerOps (A : Type) := {
  compute_plan :
    A -> list VariableSnapshot -> option (gset VersionedName) ->
    gset VersionedName * gset Z * gmap Z (gset Z)
}.

(** [VersionedName(vs.name, vs.version)] *)
Definition versioned_name (vs : VariableSnapshot) : VersionedName :=
  {| vn_name := vs_name vs; vn_version := vs_version vs |}.

(** The constraint the specification puts on the optimizer (section 4.5):
    the snapshots to migrate are chosen among the candidates it is
    given. *)
Class OptimizerLaws {A} (opt : OptimizerOps A) : Prop := {
  migrate_candidates :
    forall (g : A) active_vss stored vn,
      vn ∈ (compute_plan g active_vss stored).1.1 ->
      exists vs, vs ∈ active_vss /\ versioned_name vs = vn
}.

(** [profile_variable_size(values)] and
    [KishuCheckpoint(database_path).get_stored_versioned_names(ids)]. *)
Class StorageOps (V : Type) := {
  profile_variable_size : list V -> Z;
  get_stored_versioned_names :
    string -> list string -> exn + gset VersionedName
}.

(** ** [kishu/planning/planner.py] *)

Module Planner.

Record PlannerContext := {
  incremental_store : bool;
  incremental_load : bool
}.

Record ChangedVariables := {
  created_vars : gset string;
  modified_vars_value : gset string;
  modified_vars_structure : gset string;
  deleted_vars : gset string
}.

(** [ChangedVariables.added] and [ChangedVariables.deleted] *)
Definition added (cv : ChangedVariables) : gset string :=
  created_vars cv ∪ modified_vars_value cv.
Definition deleted (cv : ChangedVariables) : gset string := deleted_vars cv.

(** Modelled from the spec: RestorePlan (section 4.7), an ordered list of
    actions; [add_rerun_cell_restore_action] and
    [add_load_variable_restore_action] append one. *)
Inductive RestoreAction :=
| RerunCell (cell_num : Z) (code : string)
| LoadVariable (cell_num : Z) (names : list string)
               (prerequisites : list (Z * string)).

Definition RestorePlan := list RestoreAction.

Definition add_rerun_cell_restore_action (plan : RestorePlan) (n : Z)
    (code : string) : RestorePlan :=
  plan ++ [RerunCell n code].

Definition add_load_variable_restore_action (plan : RestorePlan) (n : Z)
    (names : list string) (prerequisites : list (Z * string)) : RestorePlan :=
  plan ++ [LoadVariable n names prerequisites].

(** Modelled from the spec: CheckpointPlan (section 4.7), a declaration
    of what to persist under a commit: the flat list of names, or in
    incremental mode the snapshot records. *)
Inductive CheckpointPlan :=
| CheckpointPlan_create (database_path commit_id : string)
    (var_names : list string)
| IncrementalCheckpointPlan_create (database_path commit_id : string)
    (vss : list VariableSnapshot).

(** What [_generate_restore_plan] may find in the lists of
    [ce_to_vs_map]: a [frozenset] of names, or an object with a [name]
    attribute. *)
Inductive item :=
| FrozenSet (names : gset string)
| Versioned (vn : VersionedName).

Section planner.
Context {V G A : Type}.
Context {ig : IdGraphOps V G} {ahg_ops : AHGOps A}.
Context {opt : OptimizerOps A} {st : StorageOps V}.

(** The attributes of a [CheckpointRestorePlanner]. *)
Record CheckpointRestorePlanner := {
  _ahg : A;
  _user_ns : Namespace V;
  _id_graph_map : gmap string G;
  _pre_run_cell_vars : gset string;
  _planner_context : PlannerContext;
  _modified_vars_structure : gset string
}.

(** [CheckpointRestorePlanner(user_ns, ahg)], with the configuration
    that [__init__] reads passed in. *)
Definition init (user_ns : Namespace V) (ahg : A) (ctx : PlannerContext)
    : CheckpointRestorePlanner :=
  {| _ahg := ahg; _user_ns := user_ns; _id_graph_map := ∅;
     _pre_run_cell_vars := ∅; _planner_context := ctx;
     _modified_vars_structure := ∅ |}.

Definition set_ahg (g : A) (p : CheckpointRestorePlanner) :=
  {| _ahg := g; _user_ns := _user_ns p;
     _id_graph_map := _id_graph_map p;
     _pre_run_cell_vars := _pre_run_cell_vars p;
     _planner_context := _planner_context p;
     _modified_vars_structure := _modified_vars_structure p |}.

Definition set_user_ns (ns : Namespace V) (p : CheckpointRestorePlanner) :=
  {| _ahg := _ahg p; _user_ns := ns;
     _id_graph_map := _id_graph_map p;
     _pre_run_cell_vars := _pre_run_cell_vars p;
     _planner_context := _planner_context p;
     _modified_vars_structure := _modified_vars_structure p |}.

Definition set_id_graph_map (m : gmap string G)
    (p : CheckpointRestorePlanner) :=
  {| _ahg := _ahg p; _user_ns := _user_ns p;
     _id_graph_map := m;
     _pre_run_cell_vars := _pre_run_cell_vars p;
     _planner_context := _planner_context p;
     _modified_vars_structure := _modified_vars_structure p |}.

Definition set_pre_run_cell_vars (s : gset string)
    (p : CheckpointRestorePlanner) :=
  {| _ahg := _ahg p; _user_ns := _user_ns p;
     _id_graph_map := _id_graph_map p;
     _pre_run_cell_vars := s;
     _planner_context := _planner_context p;
     _modified_vars_structure := _modified_vars_structure p |}.

Local Abbreviation PM := (M CheckpointRestorePlanner).

(** [self._user_ns[k]] *)
Definition user_ns_getitem (k : string) : PM V :=
  gets _user_ns ≫= fun ns => getitem KeyError (ns_vars ns) k.

(** [self._id_graph_map[k]] *)
Definition id_graph_map_getitem (k : string) : PM G :=
  gets _id_graph_map ≫= fun m => getitem KeyError m k.

(** [self._id_graph_map[k] = g] *)
Definition id_graph_map_setitem (k : string) (g : G) : PM unit :=
  modify (fun p => set_id_graph_map (<[k := g]> (_id_graph_map p)) p).

(** [pre_run_cell_update], lines 76-86. *)
Definition pre_run_cell_update : PM unit :=
  ns ← gets _user_ns;
  modify (set_pre_run_cell_vars (keyset ns));;
  ahg ← gets _ahg;
  for_each (elements (get_variable_names ahg)) (fun var =>
    m ← gets _id_graph_map;
    ns ← gets _user_ns;
    if bool_decide (var ∉ dom m) && contains ns var then
      v ← user_ns_getitem var;
      id_graph_map_setitem var (get_object_state v)
    else mret tt).

(** The local variables of the loop at lines 106-120. *)
Record Modified := {
  accessed : gset string;
  structure : gset string;
  value : gset string
}.

(** The body of the loop at lines 108-120, for one name [k]. *)
Definition find_modified (acc : Modified) (k : string) : PM Modified :=
  v ← user_ns_getitem k;
  let new_idgraph := get_object_state v in
  old ← id_graph_map_getitem k;
  let modified_vars_value :=
    if negb (value_equals old new_idgraph) then value acc ∪ {[k]}
    else value acc in
  if negb (graph_eq old new_idgraph) then
    let accessed_vars :=
      if is_root_id_and_type_equals old new_idgraph
      then accessed acc ∪ {[k]} else accessed acc in
    id_graph_map_setitem k new_idgraph;;
    mret {| accessed := accessed_vars;
            structure := structure acc ∪ {[k]};
            value := modified_vars_value |}
  else
    mret {| accessed := accessed acc;
            structure := structure acc;
            value := modified_vars_value |}.

(** The body of the loop at lines 128-130, for one pair. *)
Definition find_linked (linked_var_pairs : list (string * string))
    (xy : string * string) : PM (list (string * string)) :=
  gx ← id_graph_map_getitem xy.1;
  gy ← id_graph_map_getitem xy.2;
  mret (if is_overlap gx gy then linked_var_pairs ++ [xy]
        else linked_var_pairs).

(** [post_run_cell_update] up to the call of [update_graph] (lines
    94-131): the arguments of that call and the value returned at the
    end.  [now] is what [time.monotonic_ns()] returns at line 95. *)
Definition post_run_cell_changes (code_block : option string)
    (runtime_s : option Q) (now : Z)
    : PM (UpdateGraphArgs * ChangedVariables) :=
  let version := now in
  ns ← gets _user_ns;
  pre ← gets _pre_run_cell_vars;
  let accessed_vars := accessed_vars ns ∩ pre in
  modify (set_user_ns (reset_accessed_vars ns));;
  ns ← gets _user_ns;
  let created_vars := keyset ns ∖ pre in
  let deleted_vars := pre ∖ keyset ns in
  m ← gets _id_graph_map;
  acc ← fold_each (filter (fun k => contains ns k) (map_to_list m).*1)
          {| accessed := accessed_vars; structure := ∅; value := ∅ |}
          find_modified;
  for_each (elements created_vars) (fun var =>
    v ← user_ns_getitem var;
    id_graph_map_setitem var (get_object_state v));;
  linked_var_pairs ←
    fold_each (combinations2 (elements (keyset ns))) [] find_linked;
  let runtime_s := default 0%Q runtime_s in
  mret ({| uga_cell := code_block;
           uga_version := version;
           uga_cell_runtime_s := runtime_s;
           uga_accessed_vars := accessed acc;
           uga_current_variables := keyset ns;
           uga_linked_variable_pairs := linked_var_pairs;
           uga_modified_vars := structure acc;
           uga_deleted_vars := deleted_vars |},
        {| created_vars := created_vars;
           modified_vars_value := value acc;
           modified_vars_structure := structure acc;
           deleted_vars := deleted_vars |}).

(** [post_run_cell_update], lines 88-145. *)
Definition post_run_cell_update (code_block : option string)
    (runtime_s : option Q) (now : Z) : PM ChangedVariables :=
  r ← post_run_cell_changes code_block runtime_s now;
  modify (fun p => set_ahg (update_graph (_ahg p) r.1) p);;
  mret r.2.

(** [vs.name] at line 241: present on a versioned name, absent on a
    [frozenset]. *)
Definition getattr_name (i : item) : PM (gset string) :=
  match i with
  | Versioned vn => mret (vn_name vn)
  | FrozenSet _ => raise (AttributeError "name")
  end.

(** [{ce.cell_num: ce for ce in ces}]: a later entry replaces an earlier
    one with the same key. *)
Definition ce_dict_of (ces : list CellExecution) : gmap Z CellExecution :=
  foldl (fun d ce => <[cell_num ce := ce]> d) ∅ ces.

(** [ce_to_vs_map[n]] on a [defaultdict(list)]. *)
Definition defaultdict_getitem {B} (d : gmap Z (list B)) (n : Z) : list B :=
  default [] (d !! n).

(** The body of the loop at lines 232-246, for one cell execution. *)
Definition restore_actions_for (ces_to_recompute : gset Z)
    (ce_to_vs_map : gmap Z (list item)) (req_func_mapping : gmap Z (gset Z))
    (ce_dict : gmap Z CellExecution)
    (restore_plan : RestorePlan) (ce : CellExecution) : PM RestorePlan :=
  let restore_plan :=
    if bool_decide (cell_num ce ∈ ces_to_recompute)
    then add_rerun_cell_restore_action restore_plan (cell_num ce) (cell ce)
    else restore_plan in
  if bool_decide (0 < length (defaultdict_getitem ce_to_vs_map (cell_num ce)))%nat
  then
    name_list ←
      fold_each (defaultdict_getitem ce_to_vs_map (cell_num ce)) []
        (fun name_list vs =>
           names ← getattr_name vs;
           mret (name_list ++ elements names));
    required ← getitem KeyError_int req_func_mapping (cell_num ce);
    prerequisites ←
      map_each (elements required) (fun n =>
        ce' ← getitem KeyError_int ce_dict n;
        mret (n, cell ce'));
    mret (add_load_variable_restore_action restore_plan (cell_num ce)
            name_list prerequisites)
  else mret restore_plan.

(** [_generate_restore_plan], lines 215-247. *)
Definition _generate_restore_plan (ces_to_recompute : gset Z)
    (ce_to_vs_map : gmap Z (list item)) (req_func_mapping : gmap Z (gset Z))
    : PM RestorePlan :=
  ahg ← gets _ahg;
  let ce_dict := ce_dict_of (get_cell_executions ahg) in
  fold_each (get_cell_executions ahg) []
    (restore_actions_for ces_to_recompute ce_to_vs_map req_func_mapping
       ce_dict).

(** Lines 155-160: fingerprint the names of active snapshots that have
    no entry yet. *)
Definition populate_id_graphs (active_vss : list VariableSnapshot) : PM unit :=
  for_each active_vss (fun vs =>
    for_each (elements (vs_name vs)) (fun varname =>
      m ← gets _id_graph_map;
      if bool_decide (varname ∉ dom m) then
        v ← user_ns_getitem varname;
        id_graph_map_setitem varname (get_object_state v)
      else mret tt)).

(** Lines 163-164: the snapshots are objects of the AHG, so the
    assignment to [size] is seen through the AHG as well. *)
Definition profile_sizes (active_vss : list VariableSnapshot)
    : PM (list VariableSnapshot) :=
  map_each active_vss (fun active_vs =>
    values ← map_each (elements (vs_name active_vs)) user_ns_getitem;
    let sz := profile_variable_size values in
    modify (fun p => set_ahg (set_size (_ahg p) (vs_name active_vs) sz) p);;
    mret (with_size sz active_vs)).

(** Lines 168-173: the candidates left once the stored versions are
    taken out. *)
Definition not_stored (stored_versioned_names : gset VersionedName)
    (active_vss : list VariableSnapshot) : list VariableSnapshot :=
  filter (fun vs => versioned_name vs ∉ stored_versioned_names) active_vss.

(** Lines 188-190: group the names to migrate by the cell that produced
    their snapshot. *)
Definition build_ce_to_vs_map (ahg : A) (vss_to_migrate : gset VersionedName)
    : PM (gmap Z (list item)) :=
  fold_each (elements vss_to_migrate) ∅ (fun ce_to_vs_map vs_name =>
    vs ← getitem KeyError_names (get_active_variable_snapshots_dict ahg)
           (vn_name vs_name);
    let n := vs_output_ce vs in
    mret (<[n := defaultdict_getitem ce_to_vs_map n
                  ++ [FrozenSet (vn_name vs_name)]]> ce_to_vs_map)).

(** [generate_checkpoint_restore_plans] up to the optimizer's answer
    (lines 153-185): [(vss_to_migrate, ces_to_recompute)] and the
    optimizer's [req_func_mapping]. *)
Definition plan_migration (database_path : string)
    (parent_commit_ids : option (list string))
    : PM (gset VersionedName * gset Z * gmap Z (gset Z)) :=
  ahg ← gets _ahg;
  let active_vss := get_active_variable_snapshots ahg in
  populate_id_graphs active_vss;;
  active_vss ← profile_sizes active_vss;
  ctx ← gets _planner_context;
  candidates ←
    (if incremental_store ctx then
       let parent_commit_ids := default [] parent_commit_ids in
       stored_versioned_names ←
         call (get_stored_versioned_names database_path parent_commit_ids);
       mret (not_stored stored_versioned_names active_vss,
             Some stored_versioned_names)
     else mret (active_vss, None));
  ahg ← gets _ahg;
  mret (compute_plan ahg candidates.1 candidates.2).

(** [generate_checkpoint_restore_plans], lines 147-213. *)
Definition generate_checkpoint_restore_plans (database_path commit_id : string)
    (parent_commit_ids : option (list string))
    : PM (CheckpointPlan * RestorePlan) :=
  plan ← plan_migration database_path parent_commit_ids;
  let '(vss_to_migrate, ces_to_recompute, req_func_mapping) := plan in
  ahg ← gets _ahg;
  ctx ← gets _planner_context;
  ce_to_vs_map ← build_ce_to_vs_map ahg vss_to_migrate;
  checkpoint_plan ←
    (if incremental_store ctx then
       vss ← map_each (elements vss_to_migrate) (fun vn =>
                getitem KeyError_names
                  (get_active_variable_snapshots_dict ahg) (vn_name vn));
       mret (IncrementalCheckpointPlan_create database_path commit_id vss)
     else
       mret (CheckpointPlan_create database_path commit_id
               (flat_map (fun vs => elements (vn_name vs))
                  (elements vss_to_migrate))));
  restore_plan ←
    _generate_restore_plan ces_to_recompute ce_to_vs_map req_func_mapping;
  mret (checkpoint_plan, restore_plan).

(** [replace_state], lines 265-276. *)
Definition replace_state (new_ahg_string : string) (new_user_ns : Namespace V)
    : PM unit :=
  ahg ← call (deserialize new_ahg_string);
  modify (set_ahg ahg);;
  modify (set_user_ns new_user_ns);;
  modify (set_id_graph_map ∅);;
  modify (set_pre_run_cell_vars ∅).

(** One cell of a session as the kernel drives the hooks: the pre-run
    hook, the execution of the cell (outside the planner: it leaves the
    namespace [after]), the post-run hook. *)
Record CellRun := {
  cr_after : Namespace V;
  cr_code : option string;
  cr_runtime_s : option Q;
  cr_now : Z
}.

Definition run_cell (c : CellRun) : PM ChangedVariables :=
  pre_run_cell_update;;
  modify (set_user_ns (cr_after c));;
  post_run_cell_update (cr_code c) (cr_runtime_s c) (cr_now c).

(** *** What the loops of [post_run_cell_update] compute

    [m] is the fingerprint dictionary and [ns] the namespace when the
    method is entered. *)

(** The two fingerprints compared at lines 112 and 115 for a name that
    has an entry and is still bound. *)
Definition compared (m : gmap string G) (ns : Namespace V) (k : string)
    : option (G * G) :=
  match m !! k, ns_vars ns !! k with
  | Some old, Some v => Some (old, get_object_state v)
  | _, _ => None
  end.

Definition value_changed (m : gmap string G) (ns : Namespace V) (k : string)
    : bool :=
  match compared m ns k with
  | Some (old, new) => negb (value_equals old new)
  | None => false
  end.

Definition structure_changed (m : gmap string G) (ns : Namespace V)
    (k : string) : bool :=
  match compared m ns k with
  | Some (old, new) => negb (graph_eq old new)
  | None => false
  end.

Definition mutated_in_place (m : gmap string G) (ns : Namespace V)
    (k : string) : bool :=
  match compared m ns k with
  | Some (old, new) =>
      negb (graph_eq old new) && is_root_id_and_type_equals old new
  | None => false
  end.

(** The dictionary after the names in [names] got a new fingerprint. *)
Definition refreshed (m : gmap string G) (ns : Namespace V)
    (names : gset string) : gmap string G :=
  (get_object_state <$> filter (fun kv => kv.1 ∈ names) (ns_vars ns)) ∪ m.

Definition linked (m : gmap string G) (xy : string * string) : bool :=
  match m !! xy.1, m !! xy.2 with
  | Some gx, Some gy => is_overlap gx gy
  | _, _ => false
  end.

(** The fingerprint dictionary that [post_run_cell_update] leaves. *)
Definition id_graph_map_after (p : CheckpointRestorePlanner)
    : gmap string G :=
  let m := _id_graph_map p in
  let ns := _user_ns p in
  refreshed m ns
    (filter (fun k => structure_changed m ns k) (dom m)
     ∪ keyset ns ∖ _pre_run_cell_vars p).

(** The planner once lines 94-131 have run: the instrumentation is
    reset and the fingerprints are refreshed. *)
Definition after_changes (p : CheckpointRestorePlanner)
    : CheckpointRestorePlanner :=
  set_id_graph_map (id_graph_map_after p)
    (set_user_ns (reset_accessed_vars (_user_ns p)) p).

(** The value [post_run_cell_update] returns. *)
Definition changes_of (p : CheckpointRestorePlanner) : ChangedVariables :=
  let m := _id_graph_map p in
  let ns := _user_ns p in
  {| created_vars := keyset ns ∖ _pre_run_cell_vars p;
     modified_vars_value := filter (fun k => value_changed m ns k) (dom m);
     modified_vars_structure :=
       filter (fun k => structure_changed m ns k) (dom m);
     deleted_vars := _pre_run_cell_vars p ∖ keyset ns |}.

(** The arguments it passes to [update_graph]. *)
Definition update_graph_args_of (p : CheckpointRestorePlanner)
    (code_block : option string) (runtime_s : option Q) (now : Z)
    : UpdateGraphArgs :=
  let m := _id_graph_map p in
  let ns := _user_ns p in
  {| uga_cell := code_block;
     uga_version := now;
     uga_cell_runtime_s := default 0%Q runtime_s;
     uga_accessed_vars :=
       accessed_vars ns ∩ _pre_run_cell_vars p
       ∪ filter (fun k => mutated_in_place m ns k) (dom m);
     uga_current_variables := keyset ns;
     uga_linked_variable_pairs :=
       filter (fun xy => linked (id_graph_map_after p) xy)
         (combinations2 (elements (keyset ns)));
     uga_modified_vars := filter (fun k => structure_changed m ns k) (dom m);
     uga_deleted_vars := _pre_run_cell_vars p ∖ keyset ns |}.

(** Every name that is still bound after the cell had its fingerprint
    taken before the cell. *)
Definition fingerprints_present (p : CheckpointRestorePlanner) : Prop :=
  keyset (_user_ns p) ∩ _pre_run_cell_vars p ⊆ dom (_id_graph_map p).

(** Every lookup of the loop at lines 128-130 finds its key. *)
Definition pairs_fingerprinted (p : CheckpointRestorePlanner) : Prop :=
  Forall (fun xy : string * string =>
            xy.1 ∈ dom (id_graph_map_after p)
            /\ xy.2 ∈ dom (id_graph_map_after p))
         (combinations2 (elements (keyset (_user_ns p)))).

#[global] Instance pairs_fingerprinted_dec (p : CheckpointRestorePlanner)
  : Decision (pairs_fingerprinted p).
Proof. unfold pairs_fingerprinted. apply _. Defined.

(** No bound name has a fingerprint that differs in structure from the
    one on record. *)
Definition values_unchanged (p : CheckpointRestorePlanner) : Prop :=
  map_Forall
    (fun k _ => structure_changed (_id_graph_map p) (_user_ns p) k = false)
    (_id_graph_map p).

(** The linked pairs that the fingerprints on record give. *)
Definition linked_pairs_of (p : CheckpointRestorePlanner)
    : list (string * string) :=
  filter (fun xy => linked (_id_graph_map p) xy)
    (combinations2 (elements (keyset (_user_ns p)))).

(** The planner when [pre_run_cell_update] has run. *)
Definition after_pre_run (p : CheckpointRestorePlanner)
    : CheckpointRestorePlanner :=
  set_id_graph_map
    (refreshed (_id_graph_map p) (_user_ns p)
       (get_variable_names (_ahg p) ∖ dom (_id_graph_map p)))
    (set_pre_run_cell_vars (keyset (_user_ns p)) p).

(** The planner when the post-run hook of cell [c] is entered. *)
Definition entering_post_run (c : CellRun) (p : CheckpointRestorePlanner)
    : CheckpointRestorePlanner :=
  set_user_ns (cr_after c) (after_pre_run p).

(** The namespace and the configuration are the same in both states. *)
Definition same_bindings (p p' : CheckpointRestorePlanner) : Prop :=
  _user_ns p' = _user_ns p /\ _planner_context p' = _planner_context p.

(** *** Sessions *)

(** A session: the kernel runs the hooks around each cell in turn. *)
Definition run_cells (cells : list CellRun) : PM (list ChangedVariables) :=
  map_each cells run_cell.

(** Every bound name has an entry in the fingerprint dictionary. *)
Definition all_fingerprinted (p : CheckpointRestorePlanner) : Prop :=
  keyset (_user_ns p) ⊆ dom (_id_graph_map p).

(** *** What the loops of [generate_checkpoint_restore_plans] compute *)

(** The names of the snapshots of a list. *)
Definition names_of (vss : list VariableSnapshot) : gset string :=
  ⋃ (vs_name <$> vss).

(** The planner once the loop at lines 155-160 has looked at [names]:
    the names without an entry got the fingerprint of their value. *)
Definition populated (names : gset string) (p : CheckpointRestorePlanner)
    : CheckpointRestorePlanner :=
  set_id_graph_map
    (refreshed (_id_graph_map p) (_user_ns p) (names ∖ dom (_id_graph_map p)))
    p.

(** The values whose size line 164 profiles for a snapshot. *)
Definition values_of (ns : Namespace V) (vs : VariableSnapshot) : list V :=
  omap (fun x => ns_vars ns !! x) (elements (vs_name vs)).

(** A snapshot with the size line 164 assigns to it. *)
Definition sized (ns : Namespace V) (vs : VariableSnapshot)
    : VariableSnapshot :=
  with_size (profile_variable_size (values_of ns vs)) vs.

(** The planner once lines 163-164 have run on [vss]. *)
Definition profiled (vss : list VariableSnapshot)
    (p : CheckpointRestorePlanner) : CheckpointRestorePlanner :=
  foldl (fun s vs =>
           set_ahg (set_size (_ahg s) (vs_name vs)
                      (profile_variable_size (values_of (_user_ns s) vs))) s)
        p vss.

(** What the loops at lines 155-164 leave alone. *)
Definition untouched (p s : CheckpointRestorePlanner) : Prop :=
  _user_ns s = _user_ns p /\ _planner_context s = _planner_context p
  /\ _pre_run_cell_vars s = _pre_run_cell_vars p.

(** A [KeyError] for a name that the namespace does not bind. *)
Definition unbound_key (p : CheckpointRestorePlanner) (e : exn) : Prop :=
  exists k, e = KeyError k /\ (k ∉ keyset (_user_ns p)).

(** *** What the loop at lines 187-190 computes *)

(** The cell that produced the active snapshot of a versioned name. *)
Definition output_cell (ahg : A) (vn : VersionedName) : option Z :=
  vs_output_ce <$> get_active_variable_snapshots_dict ahg !! vn_name vn.

(** The items line 190 files under cell [n]. *)
Definition filed (ahg : A) (vns : list VersionedName) (n : Z) : list item :=
  (fun vn => FrozenSet (vn_name vn))
    <$> filter (fun vn => output_cell ahg vn = Some n) vns.

(** *** What the loop of [_generate_restore_plan] computes *)

(** The [RerunCell] action of a cell execution, line 235. *)
Definition rerun_of (ce : CellExecution) : RestoreAction :=
  RerunCell (cell_num ce) (cell ce).

(** An item that has a [name] attribute. *)
Definition has_name (i : item) : Prop :=
  match i with Versioned _ => True | FrozenSet _ => False end.

(** The names lines 239-242 collect from items that have a [name]. *)
Definition names_in (items : list item) : list string :=
  flat_map (fun i => match i with
                     | Versioned vn => elements (vn_name vn)
                     | FrozenSet _ => []
                     end) items.

(** The prerequisites line 246 builds for the cells [required]. *)
Definition prerequisites_of (ce_dict : gmap Z CellExecution)
    (required : gset Z) : list (Z * string) :=
  omap (fun n => (fun ce' => (n, cell ce')) <$> ce_dict !! n)
       (elements required).

(** The actions one iteration of the loop at lines 232-246 appends. *)
Definition actions_for (ces_to_recompute : gset Z)
    (ce_to_vs_map : gmap Z (list item)) (req_func_mapping : gmap Z (gset Z))
    (ce_dict : gmap Z CellExecution) (ce : CellExecution)
    : list RestoreAction :=
  (if bool_decide (cell_num ce ∈ ces_to_recompute) then [rerun_of ce] else [])
  ++ match defaultdict_getitem ce_to_vs_map (cell_num ce) with
     | [] => []
     | items =>
         [LoadVariable (cell_num ce) (names_in items)
            (prerequisites_of ce_dict
               (default ∅ (req_func_mapping !! cell_num ce)))]
     end.

(** A cell execution for which the loop body finds what it looks up:
    its items have a [name], and when there are items its prerequisites
    are on record and are cells of the history. *)
Definition loadable (ce_to_vs_map : gmap Z (list item))
    (req_func_mapping : gmap Z (gset Z)) (history : list CellExecution)
    (ce : CellExecution) : Prop :=
  Forall has_name (defaultdict_getitem ce_to_vs_map (cell_num ce))
  /\ (defaultdict_getitem ce_to_vs_map (cell_num ce) <> [] ->
      exists required,
        req_func_mapping !! cell_num ce = Some required
        /\ forall n, n ∈ required ->
                     exists ce', ce' ∈ history /\ cell_num ce' = n).

End planner.
Arguments CheckpointRestorePlanner : clear implicits.
Arguments CellRun : clear implicits.

End Planner.

(** ** [kishu/cli.py] *)

(** [class Command(enum.Enum)]: the members in definition order, and
    their values. *)
Module Command.
Inductive t := help | log | log_all | status | checkout | branch.

#[global] Instance eq_dec : EqDecision t.
Proof. solve_decision. Defined.

Definition to_nat (c : t) : nat :=
  match c with
  | help => 0 | log => 1 | log_all => 2 | status => 3 | checkout => 4
  | branch => 5
  end.

Definition of_nat (n : nat) : t :=
  match n with
  | 0 => help | 1 => log | 2 => log_all | 3 => status | 4 => checkout
  | _ => branch
  end%nat.

#[global] Instance countable : Countable t.
Proof. apply (inj_countable' to_nat of_nat). by intros []. Defined.

(** [cmd.value] *)
Definition value (c : t) : string :=
  match c with
  | help => "help" | log => "log" | log_all => "log_all"
  | status => "status" | checkout => "checkout" | branch => "branch"
  end.

(** [list(Command)]: iteration over the enumeration. *)
Definition members : list t := [help; log; log_all; status; checkout; branch].
End Command.

Module Cli.

(** [sep.join(l)] *)
Fixpoint join (sep : string) (l : list string) : string :=
  match l with
  | [] => ""
  | [x] => x
  | x :: l' => x +:+ sep +:+ join sep l'
  end.

(** [KishuCLIArguments] *)
Record KishuCLIArguments := {
  command : Command.t;
  notebook_id : option string;
  commit_id : option string;
  branch_name : option string
}.

(** [KishuCLIArguments.from_argv(argv)], lines 36-46.  [parse] stands for
    [simple_parsing.parse(KishuCLIArguments, args=...)], a function of an
    external library. *)
Definition from_argv {T} (parse : list string -> T) (argv : list string) : T :=
  let argv :=
    if bool_decide (1 <= length argv)%nat
       && bool_decide ("--command" ∉ argv)
       && bool_decide ("--help" ∉ argv)
       && bool_decide ("-h" ∉ argv)
    then "--command" :: argv
    else argv in
  parse argv.

(** What a command hands to [kishu.commands.KishuCommand]. *)
Inductive KishuCall :=
| KishuCommand_log (notebook_id commit_id : string)
| KishuCommand_log_all (notebook_id : string)
| KishuCommand_status (notebook_id commit_id : string)
| KishuCommand_checkout (notebook_id commit_id : string)
| KishuCommand_branch (notebook_id branch_name : string)
    (commit_id : option string).

(** What a command does when its assertions pass: [help] prints a line
    and the parser's help; every other command prints
    [into_json(KishuCommand.xxx(...))]. *)
Inductive action :=
| PrintHelp (line : string)
| PrintJson (call : KishuCall).

Inductive cli_exn :=
| CommandKeyError (command : Command.t)
| AssertionError (msg : string).

Definition handler := KishuCLIArguments -> cli_exn + action.

Module KishuCLI.

(** [assert x is not None, msg] followed by a use of [x]. *)
Definition required {B} (x : option string) (msg : string)
    (k : string -> cli_exn + B) : cli_exn + B :=
  match x with
  | None => inl (AssertionError msg)
  | Some v => k v
  end.

Definition help : handler := fun args =>
  inr (PrintHelp
         ("commands: " +:+ join " | " (Command.value <$> Command.members))).

Definition log : handler := fun args =>
  required (notebook_id args) "log requires notebook_id." (fun nb =>
  required (commit_id args) "log requires commit_id." (fun cid =>
  inr (PrintJson (KishuCommand_log nb cid)))).

Definition log_all : handler := fun args =>
  required (notebook_id args) "log_all requires notebook_id." (fun nb =>
  inr (PrintJson (KishuCommand_log_all nb))).

Definition status : handler := fun args =>
  required (notebook_id args) "status requires notebook_id." (fun nb =>
  required (commit_id args) "status requires commit_id." (fun cid =>
  inr (PrintJson (KishuCommand_status nb cid)))).

Definition checkout : handler := fun args =>
  required (notebook_id args) "checkout requires notebook_id." (fun nb =>
  required (commit_id args) "checkout requires commit_id." (fun cid =>
  inr (PrintJson (KishuCommand_checkout nb cid)))).

Definition branch : handler := fun args =>
  required (notebook_id args) "branch requires notebook_id." (fun nb =>
  required (branch_name args) "branch requires branch_name." (fun bn =>
  inr (PrintJson (KishuCommand_branch nb bn (commit_id args))))).

(** [self._commands], lines 56-63. *)
Definition _commands : gmap Command.t handler :=
  list_to_map
    [(Command.help, help); (Command.log, log); (Command.log_all, log_all);
     (Command.status, status); (Command.checkout, checkout);
     (Command.branch, branch)].

(** [dispatch], lines 69-70. *)
Definition dispatch (command : Command.t) : cli_exn + handler :=
  match _commands !! command with
  | Some func => inr func
  | None => inl (CommandKeyError command)
  end.

(** [exec], lines 65-67. *)
Definition exec (args : KishuCLIArguments) : cli_exn + action :=
  match dispatch (command args) with
  | inl e => inl e
  | inr func => func args
  end.

End KishuCLI.
End Cli.

(** ** Concrete collaborators

    Instances of the interfaces above, used to run the planner on
    concrete sessions. *)

Module Model.
Import ObjectState IdGraph.

Definition payload_digest (p : payload) : Z :=
  match p with
  | PLiteral (LInt z) => z
  | PLiteral (LFloat bits) => bits
  | PLiteral (LBool b) => if b then 1 else 0
  | PLiteral (LStr s) => Z.of_nat (String.length s)
  | PLiteral _ => 0
  | PContainer => 1
  | PDigest d => d
  | PName n _ => Z.of_nat (String.length n)
  | POpaque _ t => Z.of_N t
  end.

Fixpoint node_digest (n : GraphNode) : Z :=
  match n with
  | Node _ _ p cs =>
      payload_digest p + 31 * foldr (fun c acc => node_digest c + 31 * acc) 7 cs
  | BackEdge t => Z.of_N t
  end.

#[global] Instance digest : Digest :=
  {| digest_node := node_digest; digest_bytes := foldr Z.add 0 |}.

(** A live value: a reference into the kernel's heap as it is when the
    value is read. *)
Record LiveValue := {
  lv_heap : Heap;
  lv_obj : obj_id
}.

(** The fingerprint of a live value; the traversal visits each object of
    the heap at most once below the root, so [S (size heap)] levels of
    recursion are enough. *)
Definition fingerprint (v : LiveValue) : GraphNode :=
  default (BackEdge (lv_obj v))
    (create_idgraph (U := unit) (S (size (lv_heap v))) (lv_heap v) (lv_obj v)).

#[global] Instance idgraph_ops : IdGraphOps LiveValue GraphNode :=
  Build_IdGraphOps LiveValue GraphNode
    fingerprint value_equal structural_equal root_id_and_type_equals overlap.

(** The cells needed to rerun each cell: the producers of the snapshots
    it read, and what those need in turn. *)
Definition prerequisites (ces : list CellExecution) : gmap Z (gset Z) :=
  foldl (fun m ce =>
           <[cell_num ce :=
               ⋃ ((fun vs => {[vs_output_ce vs]}
                             ∪ default ∅ (m !! vs_output_ce vs))
                  <$> src_vss ce)]> m)
        ∅ ces.

(** Modelled from the spec: the optimizer (section 4.5) when every
    candidate is serializable: "any serializable VS is preferred for
    migration", "recompute only when forced".  Every candidate is
    migrated and no cell is recomputed. *)
#[global] Instance store_all : OptimizerOps Ahg.AHG :=
  {| compute_plan g active_vss already_stored :=
       (list_to_set (versioned_name <$> active_vss), ∅,
        prerequisites (Ahg.cell_executions g)) |}.

(** Modelled from the spec: a store that holds the given versioned names
    (section 6), and a size estimate (section 4.3) that counts values. *)
Definition storage (stored : gset VersionedName) : StorageOps LiveValue :=
  {| profile_variable_size values := Z.of_nat (length values);
     get_stored_versioned_names database_path parent_commit_ids :=
       inr stored |}.

(** *** Objects of the example sessions *)

Definition int_obj (z : Z) : PyObj :=
  {| ob_type := "int"; ob_mro := [Cint; Cobject]; ob_callable := false;
     ob_has_reduce_ex := true; ob_value := Value (LInt z) |}.

Definition list_obj (items : list obj_id) : PyObj :=
  {| ob_type := "list"; ob_mro := [Clist; Cobject]; ob_callable := false;
     ob_has_reduce_ex := true; ob_value := Items items |}.

(** A list that holds the same [int] object twice. *)
Definition shared_heap : Heap :=
  <[10%N := list_obj [1%N; 1%N]]> (<[1%N := int_obj 7]> ∅).

(** A list that holds itself. *)
Definition cyclic_heap : Heap :=
  <[10%N := list_obj [1%N; 10%N]]> (<[1%N := int_obj 7]> ∅).

(** *** Example sessions *)

(** The namespace in which the names of [vars] are bound to objects of
    [heap], and [read] are the names the instrumentation saw accessed. *)
Definition bind (heap : Heap) (vars : gmap string obj_id) (read : gset string)
    : Namespace LiveValue :=
  {| ns_vars := (fun obj => {| lv_heap := heap; lv_obj := obj |}) <$> vars;
     ns_accessed := read |}.

Abbreviation planner := (Planner.CheckpointRestorePlanner LiveValue GraphNode Ahg.AHG).

(** A planner on an empty namespace and an empty history. *)
Definition fresh_planner (incremental : bool) : planner :=
  Planner.init (bind ∅ ∅ ∅) Ahg.empty
    {| Planner.incremental_store := incremental;
       Planner.incremental_load := false |}.

(** Scenario S3.  Cell 1: [xs = [1]]. *)
Definition s3_cell1 : Planner.CellRun LiveValue :=
  {| Planner.cr_after :=
       bind (<[10%N := list_obj [1%N]]> (<[1%N := int_obj 1]> ∅))
            {["xs" := 10%N]} ∅;
     Planner.cr_code := Some "xs = [1]";
     Planner.cr_runtime_s := None;
     Planner.cr_now := 100 |}.

(** Cell 2: [xs.append(2)]; the instrumentation reports no access. *)
Definition s3_cell2 : Planner.CellRun LiveValue :=
  {| Planner.cr_after :=
       bind (<[10%N := list_obj [1%N; 2%N]]>
               (<[1%N := int_obj 1]> (<[2%N := int_obj 2]> ∅)))
            {["xs" := 10%N]} ∅;
     Planner.cr_code := Some "xs.append(2)";
     Planner.cr_runtime_s := None;
     Planner.cr_now := 200 |}.

Definition s3_after_cell1 : planner :=
  final_state (Planner.run_cell s3_cell1 (fresh_planner false)).

(** The planner when the post-run hook of cell 2 is entered. *)
Definition s3_entering_cell2 : planner :=
  Planner.entering_post_run s3_cell2 s3_after_cell1.

Definition s3_after_cell2 : planner :=
  final_state (Planner.run_cell s3_cell2 s3_after_cell1).

(** The list [xs] before and after [append]. *)
Definition s3_xs_before : LiveValue :=
  {| lv_heap := <[10%N := list_obj [1%N]]> (<[1%N := int_obj 1]> ∅);
     lv_obj := 10%N |}.

Definition s3_xs_after : LiveValue :=
  {| lv_heap := <[10%N := list_obj [1%N; 2%N]]>
                  (<[1%N := int_obj 1]> (<[2%N := int_obj 2]> ∅));
     lv_obj := 10%N |}.

(** The planner after cell 2 of scenario S3, as [post_run_cell_update]
    leaves it. *)
Definition s3_updated : planner :=
  Planner.set_ahg
    (update_graph (Planner._ahg s3_entering_cell2)
       (Planner.update_graph_args_of s3_entering_cell2
          (Some "xs.append(2)") None 200))
    (Planner.after_changes s3_entering_cell2).

(** A cell that touches nothing, run after cell 2. *)
Definition s3_idle_cell : Planner.CellRun LiveValue :=
  {| Planner.cr_after := Planner._user_ns s3_after_cell2;
     Planner.cr_code := Some "";
     Planner.cr_runtime_s := Some 0%Q;
     Planner.cr_now := 300 |}.

Definition s3_entering_idle_cell : planner :=
  Planner.entering_post_run s3_idle_cell s3_after_cell2.

(** Two cells during which the clock shows the same reading: [x = 1],
    then [y = 2]. *)
Definition tick_cell1 : Planner.CellRun LiveValue :=
  {| Planner.cr_after := bind (<[1%N := int_obj 1]> ∅) {["x" := 1%N]} ∅;
     Planner.cr_code := Some "x = 1";
     Planner.cr_runtime_s := None;
     Planner.cr_now := 100 |}.

Definition tick_cell2 : Planner.CellRun LiveValue :=
  {| Planner.cr_after :=
       bind (<[1%N := int_obj 1]> (<[2%N := int_obj 2]> ∅))
            (<["y" := 2%N]> {["x" := 1%N]}) ∅;
     Planner.cr_code := Some "y = 2";
     Planner.cr_runtime_s := None;
     Planner.cr_now := 100 |}.

Definition after_ticks : planner :=
  final_state
    (Planner.run_cell tick_cell2
       (final_state (Planner.run_cell tick_cell1 (fresh_planner false)))).

(** Scenario S6: [y = 1] was run at version 100 by a planner in
    incremental-store mode, and the store already holds [({y}, 100)]. *)
Definition s6_cell : Planner.CellRun LiveValue :=
  {| Planner.cr_after := bind (<[1%N := int_obj 1]> ∅) {["y" := 1%N]} ∅;
     Planner.cr_code := Some "y = 1";
     Planner.cr_runtime_s := None;
     Planner.cr_now := 100 |}.

Definition s6_planner : planner :=
  final_state (Planner.run_cell s6_cell (fresh_planner true)).

Definition s6_stored : gset VersionedName :=
  {[ {| vn_name := {["y"]}; vn_version := 100 |} ]}.

(** A planner created on a namespace that already binds [names] to the
    integer object 1, with an empty history: the names are bound, not
    tracked by the AHG and have no fingerprint. *)
Definition untracked_planner (names : list string) : planner :=
  Planner.init
    (bind (<[1%N := int_obj 1]> ∅)
       (list_to_map ((fun k => (k, 1%N)) <$> names)) ∅)
    Ahg.empty
    {| Planner.incremental_store := false;
       Planner.incremental_load := false |}.

(** A cell that leaves the namespace of [untracked_planner names] as it
    is. *)
Definition idle_cell (names : list string) : Planner.CellRun LiveValue :=
  {| Planner.cr_after := Planner._user_ns (untracked_planner names);
     Planner.cr_code := Some "pass";
     Planner.cr_runtime_s := None;
     Planner.cr_now := 100 |}.

(** Cell [a = [1]; b = a]: two names for one list. *)
Definition alias_cell : Planner.CellRun LiveValue :=
  {| Planner.cr_after :=
       bind (<[10%N := list_obj [1%N]]> (<[1%N := int_obj 1]> ∅))
            (<["b" := 10%N]> {["a" := 10%N]}) ∅;
     Planner.cr_code := Some "a = [1]; b = a";
     Planner.cr_runtime_s := None;
     Planner.cr_now := 100 |}.

Definition alias_entering : planner :=
  Planner.entering_post_run alias_cell (fresh_planner false).

(** [x = 1], then [del x], then [x = [1]]: the name comes back bound to
    another object. *)
Definition del_cell : Planner.CellRun LiveValue :=
  {| Planner.cr_after := bind ∅ ∅ ∅;
     Planner.cr_code := Some "del x";
     Planner.cr_runtime_s := None;
     Planner.cr_now := 200 |}.

Definition recreate_cell : Planner.CellRun LiveValue :=
  {| Planner.cr_after :=
       bind (<[10%N := list_obj [1%N]]> (<[1%N := int_obj 1]> ∅))
            {["x" := 10%N]} ∅;
     Planner.cr_code := Some "x = [1]";
     Planner.cr_runtime_s := None;
     Planner.cr_now := 300 |}.

Definition recreate_entering : planner :=
  Planner.entering_post_run recreate_cell
    (final_state
       (Planner.run_cell del_cell
          (final_state (Planner.run_cell tick_cell1 (fresh_planner false))))).

(** The planner after cell 1 of scenario S3 when the namespace has lost
    [xs] outside the hooks. *)
Definition s3_cleared : planner :=
  Planner.set_user_ns (bind ∅ ∅ ∅) s3_after_cell1.

(** A store that cannot be read. *)
Definition unreadable_storage : StorageOps LiveValue :=
  {| profile_variable_size values := Z.of_nat (length values);
     get_stored_versioned_names database_path parent_commit_ids :=
       inl (StoreError "unreadable") |}.

(** The planner of scenario S3 after cell 1, once the migration was
    planned with an empty store; and the planner of scenario S6 once it
    was planned against the store that holds [y]. *)
Definition s3_planned : planner :=
  final_state
    (Planner.plan_migration (st := storage ∅) "db" None s3_after_cell1).

Definition s6_planned : planner :=
  final_state
    (Planner.plan_migration (st := storage s6_stored) "db" (Some ["c1"])
       s6_planner).

(** The snapshot of [xs] that cell 1 of scenario S3 produced, and the
    record of that cell. *)
Definition s3_xs_snapshot : VariableSnapshot :=
  {| vs_name := {["xs"]}; vs_version := 100; vs_deleted := false;
     vs_size := 0; vs_output_ce := 0 |}.

Definition s3_cell1_execution : CellExecution :=
  {| cell_num := 0; cell := "xs = [1]"; cell_runtime_s := 0%Q;
     src_vss := []; dst_vss := [s3_xs_snapshot] |}.

(** The planner of [untracked_planner] on two names when the post-run
    hook of the idle cell is entered, and as the hook leaves it. *)
Definition untracked_entering : planner :=
  Planner.entering_post_run (idle_cell ["y"; "z"])
    (untracked_planner ["y"; "z"]).

Definition untracked_failed : planner :=
  final_state
    (Planner.post_run_cell_update (Some "pass") None 100 untracked_entering).

End Model.

(** * Proofs *)

(** ** The fingerprint builder *)

Module ObjectStateFacts.
Import ObjectState IdGraph.

Lemma applies_unique (o : PyObj) (b1 b2 : branch) :
  applies o b1 -> applies o b2 -> b1 = b2.
Proof.
  intros [G1 E1] [G2 E2].
  destruct (lt_eq_lt_dec (branch_index b1) (branch_index b2)) as [[Hlt|Heq]|Hgt].
  - rewrite (E2 _ Hlt) in G1. discriminate.
  - destruct b1, b2; simpl in Heq; congruence.
  - rewrite (E1 _ Hgt) in G2. discriminate.
Qed.

Lemma dispatch_applies (o : PyObj) : applies o (dispatch o).
Proof.
  unfold dispatch.
  repeat (match goal with
          | |- context [if ?c then _ else _] => destruct c eqn:?
          end);
    (split; [simpl; done | intros b' Hlt; destruct b'; simpl in Hlt |- *; (lia || done)]).
Qed.


Section any_visitor.
Context {N U : Type} (visitor : Visitor N U).

Lemma get_object_state_visited fuel heap obj visited update_state include_id ret :
  check_visited visitor visited obj include_id = Some ret ->
  get_object_state (S fuel) heap obj visited visitor update_state include_id
  = Some (ret, visited).
Proof. intros Hc. simpl. by rewrite Hc. Qed.

Lemma get_object_state_primitive fuel heap obj o visited update_state include_id :
  check_visited visitor visited obj include_id = None ->
  heap !! obj = Some o ->
  dispatch o = BPrimitive ->
  get_object_state (S fuel) heap obj visited visitor update_state include_id
  = Some (visit_primitive visitor o, visited).
Proof. intros Hc Ho Hd. simpl. by rewrite Hc, Ho, Hd. Qed.
End any_visitor.

Section idgraph_visitor.
Context {dg : Digest} {U : Type}.

Lemma unvisited_size (heap : Heap) (v v' : Visited GraphNode) :
  v ⊆ v' -> (size (dom heap ∖ dom v') <= size (dom heap ∖ dom v))%nat.
Proof.
  intros Hs. apply subseteq_size.
  apply subseteq_dom in Hs. set_solver.
Qed.

Lemma visit_each_total heap fuel rec cs visited :
  rec_ok heap fuel rec ->
  (forall c, c ∈ cs -> c ∈ dom heap) ->
  (size (dom heap ∖ dom visited) < fuel)%nat ->
  exists ns visited', visit_each rec cs visited = Some (ns, visited')
                      /\ visited ⊆ visited'.
Proof.
  intros Hrec. revert visited.
  induction cs as [|c cs IH]; intros visited Hcs Hsz; simpl.
  - eauto.
  - destruct (Hrec c visited) as (n & v1 & -> & Hs1); [set_solver|done|].
    destruct (IH v1) as (ns & v2 & -> & Hs2); [set_solver| |].
    + pose proof (unvisited_size heap _ _ Hs1). lia.
    + eexists _, _. split; [done|]. by etrans.
Qed.

Lemma record_node_subseteq obj (visited : Visited GraphNode) :
  visited !! obj = None -> visited ⊆ record_node obj visited.
Proof. intros. by apply insert_subseteq. Qed.

Lemma record_node_size (heap : Heap) obj (visited : Visited GraphNode) fuel :
  obj ∈ dom heap -> visited !! obj = None ->
  (size (dom heap ∖ dom visited) < S fuel)%nat ->
  (size (dom heap ∖ dom (record_node obj visited)) < fuel)%nat.
Proof.
  intros Hobj Hnone Hsz.
  assert (dom heap ∖ dom (record_node obj visited) ⊂ dom heap ∖ dom visited) as Hsub.
  { unfold record_node. rewrite dom_insert_L.
    apply not_elem_of_dom in Hnone. set_solver. }
  apply subset_size in Hsub. lia.
Qed.

Lemma items_of_refs o c : c ∈ items_of o -> c ∈ refs o.
Proof. unfold items_of, refs. destruct (ob_value o); set_solver. Qed.

Lemma closed_refs heap obj o c :
  closed heap -> heap !! obj = Some o -> c ∈ refs o -> c ∈ dom heap.
Proof.
  intros Hcl Ho Hc. specialize (Hcl obj o Ho). simpl in Hcl.
  rewrite Forall_forall in Hcl. by apply Hcl.
Qed.

Lemma internal_total heap fuel rec order children obj o visited include_id update_state :
  rec_ok heap fuel rec ->
  closed heap -> heap !! obj = Some o -> visited !! obj = None ->
  (forall c, c ∈ children o -> c ∈ refs o) ->
  (size (dom heap ∖ dom visited) < S fuel)%nat ->
  exists n visited',
    internal (U := U) order children rec obj o visited include_id update_state
    = Some (n, visited')
    /\ visited ⊆ visited' /\ visited' !! obj = Some (BackEdge obj) /\ is_node n.
Proof.
  intros Hrec Hcl Ho Hnone Hch Hsz. unfold internal.
  destruct (visit_each_total heap fuel rec (children o) (record_node obj visited))
    as (ns & v' & -> & Hs); [done| | |].
  - intros c Hc. eapply closed_refs; eauto.
  - apply record_node_size; [by apply elem_of_dom|done|done].
  - eexists _, _. split; [done|]. split; [|split; [|done]].
    + etrans; [by apply record_node_subseteq|done].
    + eapply lookup_weaken; [|done]. unfold record_node. apply lookup_insert_eq.
Qed.

Lemma leaf_total content rec obj o (visited : Visited GraphNode) include_id update_state :
  visited !! obj = None ->
  exists n visited',
    leaf (U := U) content rec obj o visited include_id update_state = Some (n, visited')
    /\ visited ⊆ visited' /\ visited' !! obj = Some (BackEdge obj) /\ is_node n.
Proof.
  intros Hnone. unfold leaf. eexists _, _. split; [done|].
  split; [by apply record_node_subseteq|]. split; [apply lookup_insert_eq|done].
Qed.

Lemma get_object_state_total fuel :
  forall heap obj visited update_state include_id,
    closed heap -> obj ∈ dom heap ->
    (size (dom heap ∖ dom visited) < fuel)%nat ->
    exists n visited',
      get_object_state fuel heap obj visited (idgraph (U := U)) update_state include_id
      = Some (n, visited')
      /\ visited ⊆ visited'
      /\ (forall o, heap !! obj = Some o -> visited !! obj = None ->
                    dispatch o <> BPrimitive ->
                    visited' !! obj = Some (BackEdge obj) /\ is_node n).
Proof.
  induction fuel as [|fuel IH]; intros heap obj visited us inc Hcl Hobj Hsz; [lia|].
  simpl. destruct (visited !! obj) as [ret|] eqn:Hv.
  { eexists _, _. split; [done|]. split; [done|]. intros; congruence. }
  apply elem_of_dom in Hobj as [o Ho]. rewrite Ho.
  assert (rec_ok heap fuel (fun child vis =>
            get_object_state fuel heap child vis idgraph us inc)) as Hrec.
  { intros c v Hc Hcsz. destruct (IH heap c v us inc Hcl Hc Hcsz) as (n & v' & ? & ? & _).
    eauto. }
  assert (forall c, c ∈ items_of o -> c ∈ refs o) as Hitems by apply items_of_refs.
  destruct (dispatch o) eqn:Hd; simpl;
    try (edestruct internal_total as (n & v' & -> & ? & ? & ?); [exact Hrec|done|done|done| |done|];
         [first [exact Hitems | done]|];
         eexists _, _; split; [done|]; split; [done|]; intros o' Ho'; by simplify_eq);
    try (edestruct leaf_total as (n & v' & -> & ? & ? & ?); [done|];
         eexists _, _; split; [done|]; split; [done|]; intros o' Ho'; by simplify_eq).
  eexists _, _. split; [done|]. split; [done|]. intros; congruence.
Qed.

(** C6 (amended).  [get_object_state] consults [visited] before it
    dispatches.  The first visit of the identity of an object that is not
    a primitive returns (on a heap without dangling references, with
    enough fuel) a node proper and records the identity; from then on,
    in every extension of the dictionary it leaves, a visit of that
    identity returns the back-edge to it and leaves the dictionary as it
    is, whatever the heap holds.  [create_idgraph] starts every build
    from the empty dictionary. *)
Theorem revisit_returns_back_edge (heap : Heap) (obj : obj_id) (o : PyObj)
    (visited : Visited GraphNode) (fuel : nat) (update_state : option U)
    (include_id : bool) :
  closed heap -> heap !! obj = Some o -> dispatch o <> BPrimitive ->
  visited !! obj = None ->
  (size (dom heap ∖ dom visited) < fuel)%nat ->
  exists n visited',
    get_object_state fuel heap obj visited idgraph update_state include_id
    = Some (n, visited')
    /\ is_node n /\ visited ⊆ visited'
    /\ visited' !! obj = Some (BackEdge obj)
    /\ (forall heap' visited'' fuel',
          visited' ⊆ visited'' ->
          get_object_state (S fuel') heap' obj visited'' idgraph update_state
            include_id
          = Some (BackEdge obj, visited''))
    /\ create_idgraph (U := U) fuel heap obj
       = fst <$> get_object_state fuel heap obj ∅ (idgraph (U := U)) None true.
Proof.
  intros Hcl Ho Hd Hv Hsz.
  destruct (get_object_state_total fuel heap obj visited update_state include_id)
    as (n & v' & Hrun & Hsub & Hrec); [done|by apply elem_of_dom|done|].
  destruct (Hrec o Ho Hv Hd) as [Hback Hnode].
  exists n, v'. repeat split; try done.
  intros heap' v'' fuel' Hsub'.
  apply get_object_state_visited. simpl. by eapply lookup_weaken.
Qed.
End idgraph_visitor.

Lemma revisit_returns_back_edge_witness :
  exists n visited',
    get_object_state 3 Model.cyclic_heap 10%N ∅ (idgraph (U := unit)) None true
    = Some (n, visited')
    /\ is_node n /\ ∅ ⊆ visited'
    /\ visited' !! 10%N = Some (BackEdge 10%N)
    /\ (forall heap' visited'' fuel',
          visited' ⊆ visited'' ->
          get_object_state (S fuel') heap' 10%N visited'' (idgraph (U := unit)) None true
          = Some (BackEdge 10%N, visited''))
    /\ create_idgraph (U := unit) 3 Model.cyclic_heap 10%N
       = fst <$> get_object_state 3 Model.cyclic_heap 10%N ∅
                   (idgraph (U := unit)) None true.
Proof.
  apply (revisit_returns_back_edge Model.cyclic_heap 10%N
           (Model.list_obj [1%N; 10%N]) ∅ 3 None true).
  - unfold closed. compute_done.
  - reflexivity.
  - discriminate.
  - reflexivity.
  - vm_compute. lia.
Defined.

Lemma primitive_revisit_builds_second_leaf :
  get_object_state 2 Model.shared_heap 1%N ∅ (idgraph (U := unit)) None true
  = Some (Node None "int" (PLiteral (LInt 7)) [], ∅)
  /\ create_idgraph (U := unit) 3 Model.shared_heap 10%N
     = Some (Node (Some 10%N) "list" PContainer
               [Node None "int" (PLiteral (LInt 7)) [];
                Node None "int" (PLiteral (LInt 7)) []]).
Proof. split; reflexivity. Qed.

End ObjectStateFacts.

(** ** The comparators of the fingerprint model *)

Module IdGraphFacts.
Import ObjectState IdGraph.

Lemma GraphNode_nested_ind (P : GraphNode -> Prop) :
  (forall i t p cs, Forall P cs -> P (Node i t p cs)) ->
  (forall t, P (BackEdge t)) ->
  forall n, P n.
Proof.
  intros HN HB. fix IH 1. intros [i t p cs|t]; [|apply HB].
  apply HN. induction cs as [|c cs IHcs]; constructor; [apply IH|exact IHcs].
Qed.

Lemma structural_equal_refl (a : GraphNode) : structural_equal a a = true.
Proof.
  induction a as [i t p cs IH|t] using GraphNode_nested_ind; simpl.
  - rewrite !bool_decide_eq_true_2 by done. simpl.
    induction IH as [|c cs Hc _ IHcs]; [done|]. by rewrite Hc, IHcs.
  - by rewrite bool_decide_eq_true_2.
Qed.

Lemma structural_equal_eq (a b : GraphNode) :
  structural_equal a b = true -> a = b.
Proof.
  revert b. induction a as [i t p cs IH|t] using GraphNode_nested_ind;
    intros [i' t' p' cs'|t']; simpl; try discriminate.
  - intros H. apply andb_prop in H as [H Hcs]. apply andb_prop in H as [H Hp].
    apply andb_prop in H as [Hi Ht].
    apply bool_decide_eq_true_1 in Hi, Ht, Hp. subst. f_equal.
    revert cs' Hcs. induction IH as [|c cs Hc _ IHcs]; intros [|c' cs'] Hcs;
      try discriminate; [done|].
    apply andb_prop in Hcs as [Hcc Hcs]. f_equal; [by apply Hc|by apply IHcs].
  - intros H. apply bool_decide_eq_true_1 in H. by subst.
Qed.

Lemma value_equal_refl (a : GraphNode) : value_equal a a = true.
Proof. apply structural_equal_refl. Qed.

Lemma structural_equal_value_equal (a b : GraphNode) :
  structural_equal a b = true -> value_equal a b = true.
Proof. intros ->%structural_equal_eq. apply value_equal_refl. Qed.

#[global] Instance model_laws : IdGraphLaws Model.idgraph_ops.
Proof.
  constructor; [exact structural_equal_refl|exact structural_equal_value_equal].
Qed.

End IdGraphFacts.

(** ** Rules for loops *)

Section loops.
Context {S A B : Type}.
Implicit Types (l : list A) (s : S).

Lemma bind_returned {C D} (m : M S C) (f : C -> M S D) s a s' :
  m s = Returned a s' -> (m ≫= f) s = f a s'.
Proof. intros Hm. unfold mbind, M_bind. by rewrite Hm. Qed.

Lemma bind_raised {C D} (m : M S C) (f : C -> M S D) s e s' :
  m s = Raised e s' -> (m ≫= f) s = Raised e s'.
Proof. intros Hm. unfold mbind, M_bind. by rewrite Hm. Qed.

Lemma fold_each_rule (I : list A -> B -> S -> Prop) l (body : B -> A -> M S B)
    acc s :
  I [] acc s ->
  (forall done x rest acc s,
      l = done ++ x :: rest -> I done acc s ->
      exists acc' s', body acc x s = Returned acc' s' /\ I (done ++ [x]) acc' s') ->
  exists acc' s', fold_each l acc body s = Returned acc' s' /\ I l acc' s'.
Proof.
  intros H0 Hstep.
  assert (forall rest done acc s,
             l = done ++ rest -> I done acc s ->
             exists acc' s', fold_each rest acc body s = Returned acc' s'
                             /\ I l acc' s') as Hgen.
  { induction rest as [|x rest IH]; intros done acc0 s0 Hl HI; simpl.
    - rewrite app_nil_r in Hl. subst. eauto.
    - destruct (Hstep done x rest acc0 s0 Hl HI) as (acc1 & s1 & Hb & HI1).
      erewrite bind_returned by exact Hb.
      apply (IH (done ++ [x])); [|done]. by rewrite <- app_assoc. }
  by apply (Hgen l []).
Qed.

Lemma for_each_rule (I : list A -> S -> Prop) l (body : A -> M S unit) s :
  I [] s ->
  (forall done x rest s,
      l = done ++ x :: rest -> I done s ->
      exists s', body x s = Returned tt s' /\ I (done ++ [x]) s') ->
  exists s', for_each l body s = Returned tt s' /\ I l s'.
Proof.
  intros H0 Hstep.
  assert (forall rest done s,
             l = done ++ rest -> I done s ->
             exists s', for_each rest body s = Returned tt s' /\ I l s') as Hgen.
  { induction rest as [|x rest IH]; intros done s0 Hl HI; simpl.
    - rewrite app_nil_r in Hl. subst. eauto.
    - destruct (Hstep done x rest s0 Hl HI) as (s1 & Hb & HI1).
      erewrite bind_returned by exact Hb.
      apply (IH (done ++ [x])); [|done]. by rewrite <- app_assoc. }
  by apply (Hgen l []).
Qed.
End loops.

Section more_loops.
Context {S A B : Type}.

Lemma map_each_rule (I : S -> Prop) (l : list A) (f : A -> M S B) s :
  I s ->
  (forall x s, x ∈ l -> I s -> exists y s', f x s = Returned y s' /\ I s') ->
  exists ys s', map_each l f s = Returned ys s' /\ I s'.
Proof.
  revert s. induction l as [|x l IH]; intros s HI Hstep; simpl.
  - eauto.
  - destruct (Hstep x s) as (y & s1 & Hx & HI1); [left|done|].
    erewrite bind_returned by exact Hx.
    destruct (IH s1 HI1) as (ys & s2 & Hl & HI2).
    { intros x' s' Hin. apply Hstep. by right. }
    erewrite bind_returned by exact Hl. eauto.
Qed.

Lemma for_each_frame (I : S -> Prop) (l : list A) (body : A -> M S unit) s :
  I s ->
  (forall x s, x ∈ l -> I s -> exists s', body x s = Returned tt s' /\ I s') ->
  exists s', for_each l body s = Returned tt s' /\ I s'.
Proof.
  revert s. induction l as [|x l IH]; intros s HI Hstep; simpl.
  - eauto.
  - destruct (Hstep x s) as (s1 & Hx & HI1); [left|done|].
    erewrite bind_returned by exact Hx.
    apply IH; [done|]. intros x' s' Hin. apply Hstep. by right.
Qed.

Lemma fold_each_returned_inv (I : B -> Prop) (l : list A)
    (body : B -> A -> M S B) acc s acc' s' :
  I acc ->
  (forall x acc s acc1 s1,
      x ∈ l -> I acc -> body acc x s = Returned acc1 s1 -> I acc1) ->
  fold_each l acc body s = Returned acc' s' -> I acc'.
Proof.
  revert acc s. induction l as [|x l IH]; intros acc s HI Hstep; simpl.
  - by intros [= <- _].
  - unfold mbind, M_bind. destruct (body acc x s) as [acc1 s1|] eqn:Hb; [|done].
    apply IH.
    + eapply Hstep; [left|done|done].
    + intros x' acc0 s0 acc2 s2 Hin. apply Hstep. by right.
Qed.
End more_loops.

Lemma combinations2_elem {A} (l : list A) (x y : A) :
  (x, y) ∈ combinations2 l -> x ∈ l /\ y ∈ l.
Proof.
  induction l as [|a l IH]; simpl; [by intros ?%elem_of_nil|].
  rewrite elem_of_app, list_elem_of_fmap.
  intros [(b & [= -> ->] & Hb)|Hin].
  - split; [left|by right].
  - destruct (IH Hin). split; by right.
Qed.

Lemma combinations2_covers {A} (l : list A) (z : A) :
  z ∈ l -> (2 <= length l)%nat ->
  exists x y, (x, y) ∈ combinations2 l /\ (z = x \/ z = y).
Proof.
  induction l as [|a l IH]; [by intros ?%elem_of_nil|].
  intros Hz Hlen. simpl in *.
  apply elem_of_cons in Hz as [->|Hz].
  - destruct l as [|b l]; [simpl in Hlen; lia|].
    exists a, b. split; [|by left]. apply elem_of_app. left.
    apply list_elem_of_fmap. exists b. split; [done|left].
  - destruct l as [|b l]; [by apply elem_of_nil in Hz|].
    exists a, z. split; [|by right]. apply elem_of_app. left.
    apply list_elem_of_fmap. eauto.
Qed.

Module PlannerFacts.
Import Planner.

Section facts.
Context {V G A : Type} {ig : IdGraphOps V G} {ahg : AHGOps A}.
Implicit Types (p : CheckpointRestorePlanner V G A).
Implicit Types (m : gmap string G) (ns : Namespace V).

Lemma set_id_graph_map_same p :
  set_id_graph_map (_id_graph_map p) p = p.
Proof. by destruct p. Qed.

Lemma refreshed_lookup m ns names k :
  refreshed m ns names !! k =
  match ns_vars ns !! k with
  | Some v => if decide (k ∈ names) then Some (get_object_state v) else m !! k
  | None => m !! k
  end.
Proof.
  unfold refreshed. rewrite lookup_union, lookup_fmap, map_lookup_filter.
  destruct (ns_vars ns !! k) as [v|] eqn:Hv; simpl.
  - destruct (decide (k ∈ names)).
    + rewrite option_guard_True by done. simpl. by destruct (m !! k).
    + rewrite option_guard_False by done. simpl. by destruct (m !! k).
  - by destruct (m !! k).
Qed.

Lemma refreshed_empty m ns : refreshed m ns ∅ = m.
Proof.
  apply map_eq. intros k. rewrite refreshed_lookup.
  destruct (ns_vars ns !! k); [|done]. by rewrite decide_False by set_solver.
Qed.

Lemma refreshed_insert m ns names x v :
  ns_vars ns !! x = Some v ->
  <[x := get_object_state v]> (refreshed m ns names)
  = refreshed m ns (names ∪ {[x]}).
Proof.
  intros Hx. apply map_eq. intros k. rewrite lookup_insert, !refreshed_lookup.
  destruct (decide (x = k)) as [->|Hne].
  - rewrite Hx. by rewrite decide_True by set_solver.
  - destruct (ns_vars ns !! k); [|done].
    destruct (decide (k ∈ names)).
    + by rewrite decide_True by set_solver.
    + by rewrite decide_False by set_solver.
Qed.

Lemma refreshed_dom m ns names :
  dom (refreshed m ns names) = dom m ∪ (names ∩ keyset ns).
Proof.
  apply set_eq. intros k. rewrite elem_of_dom, refreshed_lookup.
  rewrite elem_of_union, elem_of_intersection. unfold keyset.
  rewrite !elem_of_dom.
  destruct (ns_vars ns !! k) as [v|] eqn:Hv.
  - destruct (decide (k ∈ names)).
    + split; [intros _; right; split; [done|by eexists]|by eexists].
    + split; [by left|]. intros [?|[? _]]; done.
  - split; [by left|]. intros [?|[_ [? ?]]]; done.
Qed.

Lemma compared_Some m ns k old new :
  compared m ns k = Some (old, new) <->
  m !! k = Some old /\ exists v, ns_vars ns !! k = Some v /\ new = get_object_state v.
Proof.
  unfold compared. destruct (m !! k), (ns_vars ns !! k); split.
  all: try (intros [= <- <-]; eauto).
  all: try (intros [[= <-] (v' & [= <-] & ->)]; done).
  all: try (intros [? (? & ? & ?)]; done).
  all: try discriminate.
Qed.

Lemma user_ns_getitem_Some p k v :
  ns_vars (_user_ns p) !! k = Some v ->
  user_ns_getitem k p = Returned v p.
Proof.
  intros Hk. unfold user_ns_getitem, gets, getitem, mbind, M_bind. by rewrite Hk.
Qed.

Lemma id_graph_map_getitem_Some p k g :
  _id_graph_map p !! k = Some g ->
  id_graph_map_getitem k p = Returned g p.
Proof.
  intros Hk. unfold id_graph_map_getitem, gets, getitem, mbind, M_bind.
  by rewrite Hk.
Qed.

Lemma id_graph_map_getitem_None p k :
  _id_graph_map p !! k = None ->
  id_graph_map_getitem k p = Raised (KeyError k) p.
Proof.
  intros Hk. unfold id_graph_map_getitem, gets, getitem, mbind, M_bind.
  by rewrite Hk.
Qed.

(** The loop at lines 106-120. *)
Lemma find_modified_loop p acc0 :
  let m := _id_graph_map p in
  let ns := _user_ns p in
  let D := dom m in
  fold_each (filter (fun k => contains ns k) (map_to_list m).*1)
    {| accessed := acc0; structure := ∅; value := ∅ |} find_modified p
  = Returned
      {| accessed := acc0 ∪ filter (fun k => mutated_in_place m ns k) D;
         structure := filter (fun k => structure_changed m ns k) D;
         value := filter (fun k => value_changed m ns k) D |}
      (set_id_graph_map
         (refreshed m ns (filter (fun k => structure_changed m ns k) D)) p).
Proof.
  intros m ns D.
  set (l := filter (fun k => contains ns k) (map_to_list m).*1).
  assert (NoDup l) as Hnd.
  { apply NoDup_filter, NoDup_fst_map_to_list. }
  assert (forall k, k ∈ l <-> k ∈ D /\ k ∈ keyset ns) as Hl.
  { intros k. unfold l. rewrite list_elem_of_filter.
    unfold contains, keyset. rewrite bool_decide_spec.
    unfold D. rewrite list_elem_of_fmap. split.
    - intros [? ([k' g] & -> & Hin%elem_of_map_to_list)].
      split; [apply elem_of_dom; by eexists|done].
    - intros [[g Hg]%elem_of_dom ?]. split; [done|]. exists (k, g).
      split; [done|]. by apply elem_of_map_to_list. }
  pose (upto := fun (done : list string) (f : string -> bool) =>
          (filter (fun k => f k) (list_to_set done ∩ D) : gset string)).
  destruct (fold_each_rule
    (fun done acc s =>
       acc = {| accessed := acc0 ∪ upto done (mutated_in_place m ns);
                structure := upto done (structure_changed m ns);
                value := upto done (value_changed m ns) |}
       /\ s = set_id_graph_map
                (refreshed m ns (upto done (structure_changed m ns))) p)
    l find_modified {| accessed := acc0; structure := ∅; value := ∅ |} p)
    as (acc' & s' & Hrun & Hacc & Hs).
  - unfold upto. split.
    + f_equal; set_solver.
    + replace (filter _ _) with (∅ : gset string) by set_solver.
      rewrite refreshed_empty. unfold m. by rewrite set_id_graph_map_same.
  - intros done x rest acc s Hsplit [-> ->].
    assert (x ∈ l) as Hx by (rewrite Hsplit; set_solver).
    assert (x ∉ done) as Hxd.
    { rewrite Hsplit in Hnd. apply NoDup_app in Hnd as (_ & Hdis & _).
      intros Hin. apply (Hdis x Hin). left. }
    apply Hl in Hx as [HxD Hxns].
    apply elem_of_dom in HxD as [old Hold].
    unfold keyset in Hxns. apply elem_of_dom in Hxns as [v Hv].
    unfold find_modified.
    erewrite bind_returned by (by apply user_ns_getitem_Some).
    erewrite bind_returned; cycle 1.
    { apply id_graph_map_getitem_Some. simpl. rewrite refreshed_lookup.
      fold ns. rewrite Hv. rewrite decide_False; [done|].
      unfold upto. set_solver. }
    assert (compared m ns x = Some (old, get_object_state v)) as Hcmp.
    { apply compared_Some. eauto. }
    assert (forall f : string -> bool,
               upto (done ++ [x]) f = upto done f ∪ (if f x then {[x]} else ∅))
      as Hon.
    { intros f. unfold upto. apply set_eq. intros k.
      assert (x ∈ D) by (apply elem_of_dom; eauto).
      rewrite elem_of_union, !elem_of_filter, !elem_of_intersection,
        !elem_of_list_to_set, elem_of_app, list_elem_of_singleton.
      destruct (f x) eqn:Hfx.
      - rewrite elem_of_singleton. split.
        + intros (Hf & [?| ->] & ?); [left; done|by right].
        + intros [(?&?&?)| ->]; [tauto|]. rewrite Hfx. repeat split; auto.
      - rewrite elem_of_empty. split.
        + intros (Hf & [?| ->] & ?); [left; done|]. rewrite Hfx in Hf. done.
        + intros [(?&?&?)|[]]. tauto. }
    assert (structure_changed m ns x = negb (graph_eq old (get_object_state v)))
      as Hsc by (unfold structure_changed; by rewrite Hcmp).
    assert (value_changed m ns x = negb (value_equals old (get_object_state v)))
      as Hvc by (unfold value_changed; by rewrite Hcmp).
    assert (mutated_in_place m ns x
            = negb (graph_eq old (get_object_state v))
              && is_root_id_and_type_equals old (get_object_state v))
      as Hmp by (unfold mutated_in_place; by rewrite Hcmp).
    rewrite !Hon, Hsc, Hvc, Hmp.
    destruct (graph_eq old (get_object_state v)) eqn:Hge; simpl.
    + eexists _, _. split; [done|]. rewrite !(right_id_L ∅ (∪)).
      split; [|done]. f_equal.
      destruct (value_equals old (get_object_state v)); simpl;
        by rewrite ?(right_id_L ∅ (∪)).
    + eexists _, _. split; [done|]. split.
      * f_equal.
        -- destruct (is_root_id_and_type_equals old (get_object_state v));
             simpl; by rewrite ?(right_id_L ∅ (∪)), ?(assoc_L (∪)).
        -- destruct (value_equals old (get_object_state v)); simpl;
             by rewrite ?(right_id_L ∅ (∪)).
      * unfold id_graph_map_setitem, modify. simpl.
        rewrite (refreshed_insert m ns _ x v Hv). by destruct p.
  - rewrite Hrun, Hacc, Hs. unfold upto.
    assert (list_to_set l ∩ D = D ∩ keyset ns :> gset string) as ->.
    { apply set_eq. intros k. rewrite elem_of_intersection, elem_of_list_to_set, Hl.
      set_solver. }
    assert (forall f : string -> bool,
               (forall k, f k = true -> k ∈ keyset ns) ->
               filter (fun k => f k) (D ∩ keyset ns) = filter (fun k => f k) D
               :> gset string) as Hfil.
    { intros f Hf. apply set_eq. intros k. rewrite !elem_of_filter.
      split; [set_solver|]. intros [Hfk ?]. split; [done|].
      apply elem_of_intersection. split; [done|]. apply Hf.
      by destruct (f k). }
    assert (forall k old new, compared m ns k = Some (old, new) -> k ∈ keyset ns)
      as Hkey.
    { intros k old new (_ & v & Hv & _)%compared_Some.
      apply elem_of_dom. eauto. }
    rewrite !Hfil; [done| | |].
    + intros k. unfold value_changed.
      destruct (compared m ns k) as [[??]|] eqn:E; [eauto|done].
    + intros k. unfold structure_changed.
      destruct (compared m ns k) as [[??]|] eqn:E; [eauto|done].
    + intros k. unfold mutated_in_place.
      destruct (compared m ns k) as [[??]|] eqn:E; [eauto|done].
Qed.

(** The loop at lines 122-124. *)
Lemma create_loop p (names base : gset string) :
  let m := _id_graph_map p in
  let ns := _user_ns p in
  forall p1,
    _user_ns p1 = ns ->
    names ⊆ keyset ns ->
    for_each (elements names)
      (fun var => v ← user_ns_getitem var;
                  id_graph_map_setitem var (get_object_state v))
      (set_id_graph_map (refreshed m ns base) p1)
    = Returned tt (set_id_graph_map (refreshed m ns (base ∪ names)) p1).
Proof.
  intros m ns p1 Hns Hsub.
  destruct (for_each_rule
    (fun done s =>
       s = set_id_graph_map (refreshed m ns (base ∪ list_to_set done)) p1)
    (elements names)
    (fun var => v ← user_ns_getitem var;
                id_graph_map_setitem var (get_object_state v))
    (set_id_graph_map (refreshed m ns base) p1)) as (s' & Hrun & Hs).
  - simpl. by rewrite (right_id_L ∅ (∪)).
  - intros done x rest s Hsplit ->.
    assert (x ∈ names) as Hx.
    { apply elem_of_elements. rewrite Hsplit. set_solver. }
    apply Hsub in Hx. unfold keyset in Hx. apply elem_of_dom in Hx as [v Hv].
    erewrite bind_returned; cycle 1.
    { apply user_ns_getitem_Some. simpl. rewrite Hns. exact Hv. }
    eexists. split; [done|]. simpl.
    rewrite (refreshed_insert m ns _ x v Hv).
    rewrite list_to_set_app_L. simpl.
    by rewrite (right_id_L ∅ (∪)), (assoc_L (∪)).
  - rewrite Hrun, Hs. by rewrite list_to_set_elements_L.
Qed.

Lemma find_linked_returned p acc x y gx gy :
  _id_graph_map p !! x = Some gx -> _id_graph_map p !! y = Some gy ->
  find_linked acc (x, y) p
  = Returned (if is_overlap gx gy then acc ++ [(x, y)] else acc) p.
Proof.
  intros Hx Hy.
  unfold find_linked, id_graph_map_getitem, gets, getitem, mbind, M_bind.
  simpl. rewrite Hx. simpl. by rewrite Hy.
Qed.

Lemma find_linked_raised_1 p acc x y :
  _id_graph_map p !! x = None ->
  find_linked acc (x, y) p = Raised (KeyError x) p.
Proof.
  intros Hx.
  unfold find_linked, id_graph_map_getitem, gets, getitem, mbind, M_bind.
  simpl. by rewrite Hx.
Qed.

Lemma find_linked_raised_2 p acc x y gx :
  _id_graph_map p !! x = Some gx -> _id_graph_map p !! y = None ->
  find_linked acc (x, y) p = Raised (KeyError y) p.
Proof.
  intros Hx Hy.
  unfold find_linked, id_graph_map_getitem, gets, getitem, mbind, M_bind.
  simpl. rewrite Hx. simpl. by rewrite Hy.
Qed.

(** The loop at lines 126-130 when every key is found. *)
Lemma link_loop_returns (l : list (string * string)) : forall acc p,
  Forall (fun xy : string * string =>
            xy.1 ∈ dom (_id_graph_map p) /\ xy.2 ∈ dom (_id_graph_map p)) l ->
  fold_each l acc find_linked p
  = Returned (acc ++ filter (fun xy => linked (_id_graph_map p) xy) l) p.
Proof.
  induction l as [|[x y] l IH]; intros acc p Hall; simpl.
  - by rewrite app_nil_r.
  - apply Forall_cons in Hall as [[Hx Hy] Hall]. simpl in Hx, Hy.
    apply elem_of_dom in Hx as [gx Hgx]. apply elem_of_dom in Hy as [gy Hgy].
    erewrite bind_returned by (by eapply find_linked_returned).
    rewrite IH by done. rewrite filter_cons.
    assert (linked (_id_graph_map p) (x, y) = is_overlap gx gy) as ->.
    { unfold linked. simpl. by rewrite Hgx, Hgy. }
    destruct (is_overlap gx gy); simpl; [|done].
    by rewrite <- app_assoc.
Qed.

(** The same loop when some key is missing: the first failing lookup
    raises. *)
Lemma link_loop_raises (l : list (string * string)) : forall acc p,
  ~ Forall (fun xy : string * string =>
              xy.1 ∈ dom (_id_graph_map p) /\ xy.2 ∈ dom (_id_graph_map p)) l ->
  exists k xy,
    xy ∈ l /\ (k = xy.1 \/ k = xy.2) /\ (k ∉ dom (_id_graph_map p))
    /\ fold_each l acc find_linked p = Raised (KeyError k) p.
Proof.
  induction l as [|[x y] l IH]; intros acc p Hnot; simpl.
  - destruct Hnot. constructor.
  - destruct (_id_graph_map p !! x) as [gx|] eqn:Hgx; cycle 1.
    { exists x, (x, y). split; [left|]. split; [by left|].
      split; [by apply not_elem_of_dom|].
      apply bind_raised. by apply find_linked_raised_1. }
    destruct (_id_graph_map p !! y) as [gy|] eqn:Hgy; cycle 1.
    { exists y, (x, y). split; [left|]. split; [by right|].
      split; [by apply not_elem_of_dom|].
      apply bind_raised. by eapply find_linked_raised_2. }
    destruct (IH (if is_overlap gx gy then acc ++ [(x, y)] else acc) p)
      as (k & xy & Hin & Hk & Hdom & Hrun).
    { intros Hall. apply Hnot. constructor; [|done]. simpl.
      split; apply elem_of_dom; eauto. }
    exists k, xy. split; [by right|]. split; [done|]. split; [done|].
    erewrite bind_returned; [exact Hrun|]. by eapply find_linked_returned.
Qed.

Lemma changes_prefix p code runtime_s now :
  post_run_cell_changes code runtime_s now p
  = mbind (fun linked_var_pairs =>
        mret ({| uga_cell := code;
                 uga_version := now;
                 uga_cell_runtime_s := default 0%Q runtime_s;
                 uga_accessed_vars := uga_accessed_vars
                                        (update_graph_args_of p code runtime_s now);
                 uga_current_variables := keyset (_user_ns p);
                 uga_linked_variable_pairs := linked_var_pairs;
                 uga_modified_vars :=
                   modified_vars_structure (changes_of p);
                 uga_deleted_vars := deleted_vars (changes_of p) |},
              changes_of p))
      (fold_each (combinations2 (elements (keyset (_user_ns p)))) []
         find_linked)
      (after_changes p).
Proof.
  unfold post_run_cell_changes.
  unfold mbind at 1, M_bind at 1, gets at 1.
  unfold mbind at 1, M_bind at 1, gets at 1.
  unfold mbind at 1, M_bind at 1, modify at 1.
  unfold mbind at 1, M_bind at 1, gets at 1.
  unfold mbind at 1, M_bind at 1, gets at 1.
  cbn [_user_ns _id_graph_map set_user_ns].
  erewrite bind_returned; cycle 1.
  { exact (find_modified_loop
             (set_user_ns (reset_accessed_vars (_user_ns p)) p) _). }
  erewrite bind_returned; cycle 1.
  { cbn [_user_ns _id_graph_map set_user_ns].
    apply (create_loop (set_user_ns (reset_accessed_vars (_user_ns p)) p)).
    - done.
    - cbn. unfold keyset. cbn. set_solver. }
  reflexivity.
Qed.

Lemma id_graph_map_after_dom p :
  dom (id_graph_map_after p)
  = dom (_id_graph_map p) ∪ (keyset (_user_ns p) ∖ _pre_run_cell_vars p).
Proof.
  unfold id_graph_map_after. rewrite refreshed_dom.
  apply set_eq. intros k.
  rewrite !elem_of_union, elem_of_intersection, elem_of_union, elem_of_filter,
    elem_of_difference.
  tauto.
Qed.

Lemma fingerprints_present_pairs p :
  fingerprints_present p -> pairs_fingerprinted p.
Proof.
  intros Hp. apply Forall_forall. intros [x y] Hin.
  apply combinations2_elem in Hin as [Hx Hy].
  apply elem_of_elements in Hx, Hy. rewrite id_graph_map_after_dom. simpl.
  unfold fingerprints_present in Hp.
  split.
  - destruct (decide (x ∈ _pre_run_cell_vars p)); set_solver.
  - destruct (decide (y ∈ _pre_run_cell_vars p)); set_solver.
Qed.

Lemma post_run_cell_changes_returned p code runtime_s now :
  pairs_fingerprinted p ->
  post_run_cell_changes code runtime_s now p
  = Returned (update_graph_args_of p code runtime_s now, changes_of p)
      (after_changes p).
Proof.
  intros Hp. rewrite changes_prefix.
  erewrite bind_returned; cycle 1.
  { apply link_loop_returns. exact Hp. }
  reflexivity.
Qed.

Lemma post_run_cell_changes_raised p code runtime_s now :
  ~ pairs_fingerprinted p ->
  exists k,
    k ∈ keyset (_user_ns p) /\ (k ∉ dom (id_graph_map_after p))
    /\ post_run_cell_changes code runtime_s now p
       = Raised (KeyError k) (after_changes p).
Proof.
  intros Hp. rewrite changes_prefix.
  destruct (link_loop_raises
              (combinations2 (elements (keyset (_user_ns p)))) []
              (after_changes p) Hp) as (k & [x y] & Hin & Hk & Hdom & Hrun).
  exists k. split; [|split; [exact Hdom|]].
  - apply combinations2_elem in Hin as [Hx Hy].
    apply elem_of_elements in Hx, Hy. by destruct Hk as [->| ->].
  - by apply bind_raised.
Qed.

Lemma post_run_cell_update_returned p code runtime_s now :
  pairs_fingerprinted p ->
  post_run_cell_update code runtime_s now p
  = Returned (changes_of p)
      (set_ahg (update_graph (_ahg p)
                  (update_graph_args_of p code runtime_s now))
         (after_changes p)).
Proof.
  intros Hp. unfold post_run_cell_update.
  erewrite bind_returned by (by apply post_run_cell_changes_returned).
  reflexivity.
Qed.

Lemma post_run_cell_update_raised p code runtime_s now :
  ~ pairs_fingerprinted p ->
  exists k,
    k ∈ keyset (_user_ns p) /\ (k ∉ dom (id_graph_map_after p))
    /\ post_run_cell_update code runtime_s now p
       = Raised (KeyError k) (after_changes p).
Proof.
  intros Hp.
  destruct (post_run_cell_changes_raised p code runtime_s now Hp)
    as (k & ? & ? & Hrun).
  exists k. split; [done|]. split; [done|].
  unfold post_run_cell_update. by apply bind_raised.
Qed.

Lemma post_run_cell_update_inv p code runtime_s now cv p' :
  post_run_cell_update code runtime_s now p = Returned cv p' ->
  pairs_fingerprinted p /\ cv = changes_of p
  /\ p' = set_ahg (update_graph (_ahg p)
                     (update_graph_args_of p code runtime_s now))
            (after_changes p).
Proof.
  intros Hrun. destruct (decide (pairs_fingerprinted p)) as [Hp|Hp].
  - rewrite post_run_cell_update_returned in Hrun by done.
    by injection Hrun as <- <-.
  - destruct (post_run_cell_update_raised p code runtime_s now Hp)
      as (k & _ & _ & Hr). congruence.
Qed.

Lemma post_run_cell_changes_inv p code runtime_s now args cv p' :
  post_run_cell_changes code runtime_s now p = Returned (args, cv) p' ->
  pairs_fingerprinted p
  /\ args = update_graph_args_of p code runtime_s now /\ cv = changes_of p
  /\ p' = after_changes p.
Proof.
  intros Hrun. destruct (decide (pairs_fingerprinted p)) as [Hp|Hp].
  - rewrite post_run_cell_changes_returned in Hrun by done.
    by injection Hrun as <- <- <-.
  - destruct (post_run_cell_changes_raised p code runtime_s now Hp)
      as (k & _ & _ & Hr). congruence.
Qed.

Lemma refreshed_unbound m ns names x :
  ns_vars ns !! x = None ->
  refreshed m ns (names ∪ {[x]}) = refreshed m ns names.
Proof.
  intros Hx. apply map_eq. intros k. rewrite !refreshed_lookup.
  destruct (ns_vars ns !! k) as [v|] eqn:Hk; [|done].
  assert (k <> x) by congruence.
  destruct (decide (k ∈ names)).
  - by rewrite decide_True by set_solver.
  - by rewrite decide_False by set_solver.
Qed.

(** [pre_run_cell_update] never raises. *)
Lemma pre_run_cell_update_returned p :
  pre_run_cell_update p = Returned tt (after_pre_run p).
Proof.
  unfold pre_run_cell_update, after_pre_run.
  unfold mbind at 1, M_bind at 1, gets at 1.
  unfold mbind at 1, M_bind at 1, modify at 1.
  unfold mbind at 1, M_bind at 1, gets at 1.
  cbn [_ahg set_pre_run_cell_vars].
  set (m := _id_graph_map p). set (ns := _user_ns p).
  set (p1 := set_pre_run_cell_vars (keyset ns) p).
  set (names := get_variable_names (_ahg p)).
  match goal with |- for_each _ ?b _ = _ => set (body := b) end.
  destruct (for_each_rule
    (fun done s =>
       s = set_id_graph_map (refreshed m ns (list_to_set done ∖ dom m)) p1)
    (elements names) body p1) as (s' & Hrun & Hs).
  - simpl. replace (∅ ∖ dom m) with (∅ : gset string) by set_solver.
    rewrite refreshed_empty. unfold p1, m. by destruct p.
  - intros done x rest s Hsplit ->.
    assert (x ∉ done) as Hxd.
    { pose proof (NoDup_elements names) as Hnd. rewrite Hsplit in Hnd.
      apply NoDup_app in Hnd as (_ & Hdis & _).
      intros Hin. apply (Hdis x Hin). left. }
    assert ((list_to_set (done ++ [x]) ∖ dom m : gset string)
            = (list_to_set done ∖ dom m)
              ∪ (if decide (x ∈ dom m) then ∅ else {[x]})) as Hset.
    { rewrite list_to_set_app_L. simpl. rewrite (right_id_L ∅ (∪)).
      destruct (decide (x ∈ dom m)); set_solver. }
    rewrite Hset. unfold body.
    unfold mbind at 1, M_bind at 1, gets at 1.
    unfold mbind at 1, M_bind at 1, gets at 1.
    cbn [_id_graph_map _user_ns set_id_graph_map p1 set_pre_run_cell_vars].
    fold ns.
    rewrite refreshed_dom.
    destruct (decide (x ∈ dom m)) as [Hxm|Hxm].
    + rewrite bool_decide_eq_false_2 by set_solver. simpl.
      eexists. split; [done|]. by rewrite (right_id_L ∅ (∪)).
    + rewrite bool_decide_eq_true_2; cycle 1.
      { rewrite elem_of_union, elem_of_intersection, elem_of_difference,
          elem_of_list_to_set. tauto. }
      simpl. unfold contains.
      destruct (ns_vars ns !! x) as [v|] eqn:Hv.
      * rewrite bool_decide_eq_true_2 by (apply elem_of_dom; eauto).
        erewrite bind_returned; cycle 1.
        { apply user_ns_getitem_Some. simpl. exact Hv. }
        eexists. split; [done|]. simpl.
        by rewrite (refreshed_insert m ns _ x v Hv).
      * rewrite bool_decide_eq_false_2 by (by apply not_elem_of_dom).
        eexists. split; [done|]. by rewrite refreshed_unbound.
  - rewrite Hrun, Hs. by rewrite list_to_set_elements_L.
Qed.

Lemma run_cell_eq (c : CellRun V) p :
  run_cell c p
  = post_run_cell_update (cr_code c) (cr_runtime_s c) (cr_now c)
      (entering_post_run c p).
Proof.
  unfold run_cell.
  erewrite bind_returned by apply pre_run_cell_update_returned.
  reflexivity.
Qed.

(** C1.  For a name [k] that has an entry [old] in the fingerprint
    dictionary and is still bound to [v], [post_run_cell_update] compares
    [old] with the fresh fingerprint of [v]: [k] is reported modified by
    value iff the two are not value-equal, modified by structure iff they
    are not structurally equal, and when they are not structurally equal
    while the roots share identity and type, [k] is in the accessed set
    passed to [update_graph], whatever the instrumentation reported.
    This holds of every invocation that reaches the call of
    [update_graph], and the invocation does reach it when the names bound
    before the cell have their fingerprints. *)
Theorem post_run_classifies_modified p code runtime_s now k old v :
  _id_graph_map p !! k = Some old ->
  ns_vars (_user_ns p) !! k = Some v ->
  (fingerprints_present p ->
   exists args cv p',
     post_run_cell_changes code runtime_s now p = Returned (args, cv) p')
  /\ (forall args cv p',
        post_run_cell_changes code runtime_s now p = Returned (args, cv) p' ->
        post_run_cell_update code runtime_s now p
        = Returned cv (set_ahg (update_graph (_ahg p) args) p')
        /\ (k ∈ modified_vars_value cv
             <-> value_equals old (get_object_state v) = false)
        /\ (k ∈ modified_vars_structure cv
             <-> graph_eq old (get_object_state v) = false)
        /\ (graph_eq old (get_object_state v) = false ->
            is_root_id_and_type_equals old (get_object_state v) = true ->
            k ∈ uga_accessed_vars args)
        /\ (graph_eq old (get_object_state v) = false ->
            _id_graph_map p' !! k = Some (get_object_state v))).
Proof.
  intros Hold Hv. split.
  { intros Hp%fingerprints_present_pairs. eexists _, _, _.
    by apply post_run_cell_changes_returned. }
  intros args cv p' Hrun.
  apply post_run_cell_changes_inv in Hrun as (Hp & -> & -> & ->).
  split; [by apply post_run_cell_update_returned|].
  assert (compared (_id_graph_map p) (_user_ns p) k
          = Some (old, get_object_state v)) as Hcmp.
  { apply compared_Some. eauto. }
  assert (k ∈ dom (_id_graph_map p)) as Hk by (apply elem_of_dom; eauto).
  simpl. rewrite !elem_of_filter.
  unfold value_changed, structure_changed. rewrite Hcmp.
  split; [|split; [|split]].
  - destruct (value_equals old (get_object_state v)); simpl; naive_solver.
  - destruct (graph_eq old (get_object_state v)); simpl; naive_solver.
  - intros Hge Hroot. apply elem_of_union. right. apply elem_of_filter.
    split; [|done]. unfold mutated_in_place. rewrite Hcmp, Hge, Hroot. done.
  - intros Hge. unfold id_graph_map_after. rewrite refreshed_lookup, Hv.
    rewrite decide_True; [done|]. apply elem_of_union. left.
    apply elem_of_filter. split; [|done].
    unfold structure_changed. by rewrite Hcmp, Hge.
Qed.

(** C4.  Whenever [post_run_cell_update] returns, the created and the
    deleted names are disjoint, the names modified by value are among the
    names modified by structure, and every reported name is bound now or
    was bound before the cell ran; and it does return when the names
    bound before the cell have their fingerprints. *)
Theorem changed_variables_invariant {laws : IdGraphLaws ig} p code runtime_s now :
  (fingerprints_present p ->
   exists cv p', post_run_cell_update code runtime_s now p = Returned cv p')
  /\ (forall cv p',
        post_run_cell_update code runtime_s now p = Returned cv p' ->
        created_vars cv ## deleted_vars cv
        /\ modified_vars_value cv ⊆ modified_vars_structure cv
        /\ (forall k,
              k ∈ created_vars cv ∪ modified_vars_value cv
                  ∪ modified_vars_structure cv ∪ deleted_vars cv ->
              k ∈ keyset (_user_ns p) \/ k ∈ _pre_run_cell_vars p)).
Proof.
  split.
  - intros Hp%fingerprints_present_pairs. eexists _, _.
    by apply post_run_cell_update_returned.
  - intros cv p' (_ & -> & _)%post_run_cell_update_inv. simpl.
    assert (forall k, value_changed (_id_graph_map p) (_user_ns p) k = true ->
                      structure_changed (_id_graph_map p) (_user_ns p) k = true)
      as Hvs.
    { intros k. unfold value_changed, structure_changed.
      destruct (compared _ _ k) as [[old new]|]; [|done].
      destruct (graph_eq old new) eqn:Hge; [|done].
      by rewrite (graph_eq_value_equals _ _ Hge). }
    assert (forall k, structure_changed (_id_graph_map p) (_user_ns p) k = true ->
                      k ∈ keyset (_user_ns p)) as Hbound.
    { intros k. unfold structure_changed.
      destruct (compared _ _ k) as [[old new]|] eqn:Hc; [|done].
      apply compared_Some in Hc as (_ & v & Hv & _). intros _.
      apply elem_of_dom. eauto. }
    split; [set_solver|]. split.
    + intros k [Hk ?]%elem_of_filter. apply elem_of_filter. split; [|done].
      apply Is_true_true. apply Hvs. by apply Is_true_true.
    + intros k. rewrite !elem_of_union, !elem_of_filter, !elem_of_difference.
      intros [[[[? _]|[Hk _]]|[Hk _]]|[? _]]; auto; left; apply Hbound.
      * apply Hvs. by apply Is_true_true.
      * by apply Is_true_true.
Qed.

(** C10 (amended).  When every name bound before the cell is tracked by
    the AHG or has a fingerprint, the hooks around a cell return.  A name
    bound before the cell that is neither, and is still bound afterwards
    together with at least one other name, makes a lookup of the
    linked-pair loop raise [KeyError]; and such a name is in neither
    modified set of any result. *)
Theorem untracked_name_lookup (c : CellRun V) p :
  (keyset (_user_ns p)
     ⊆ get_variable_names (_ahg p) ∪ dom (_id_graph_map p) ->
   exists cv p', run_cell c p = Returned cv p')
  /\ (forall z,
        z ∈ keyset (_user_ns p) ->
        z ∉ get_variable_names (_ahg p) -> z ∉ dom (_id_graph_map p) ->
        (z ∈ keyset (cr_after c) ->
         (2 <= size (keyset (cr_after c)))%nat ->
         exists k p',
           run_cell c p = Raised (KeyError k) p'
           /\ k ∈ keyset (cr_after c) /\ (k ∉ dom (_id_graph_map p')))
        /\ (forall cv p',
              run_cell c p = Returned cv p' ->
              (z ∉ modified_vars_value cv)
              /\ (z ∉ modified_vars_structure cv))).
Proof.
  rewrite run_cell_eq.
  assert (dom (_id_graph_map (entering_post_run c p))
          = dom (_id_graph_map p)
            ∪ (get_variable_names (_ahg p) ∖ dom (_id_graph_map p))
              ∩ keyset (_user_ns p)) as Hdom.
  { unfold entering_post_run, after_pre_run. simpl. apply refreshed_dom. }
  split.
  - intros Htracked. eexists _, _. apply post_run_cell_update_returned.
    apply fingerprints_present_pairs. unfold fingerprints_present.
    rewrite Hdom. unfold entering_post_run, after_pre_run. simpl.
    intros k [_ Hk]%elem_of_intersection.
    specialize (Htracked k Hk).
    destruct (decide (k ∈ dom (_id_graph_map p))); set_solver.
  - intros z Hz Hahg Hmap.
    assert (z ∉ dom (_id_graph_map (entering_post_run c p))) as Hzd.
    { rewrite Hdom. set_solver. }
    split.
    + intros Hbound Hsize.
      destruct (post_run_cell_update_raised (entering_post_run c p)
                  (cr_code c) (cr_runtime_s c) (cr_now c))
        as (k & Hk & Hkd & Hrun).
      * intros Hall.
        destruct (combinations2_covers (elements (keyset (cr_after c))) z)
          as (x & y & Hin & Hxy).
        { by apply elem_of_elements. }
        { exact Hsize. }
        unfold pairs_fingerprinted in Hall.
        rewrite Forall_forall in Hall. specialize (Hall _ Hin).
        rewrite id_graph_map_after_dom in Hall. simpl in Hall.
        assert (z ∈ dom (_id_graph_map (entering_post_run c p))
                     ∪ keyset (cr_after c) ∖ keyset (_user_ns p)) as Hzin.
        { destruct Hxy as [->| ->]; tauto. }
        set_solver.
      * exists k, (after_changes (entering_post_run c p)).
        split; [exact Hrun|]. split; [exact Hk|exact Hkd].
    + intros cv p' (_ & -> & _)%post_run_cell_update_inv. simpl.
      rewrite !elem_of_filter. tauto.
Qed.


(** C8.  [replace_state] either raises what [AHG.deserialize] raises and
    leaves the planner as it was, or replaces the AHG and the namespace
    and empties the fingerprint dictionary and the pre-run names. *)
Theorem replace_state_atomic p (new_ahg_string : string)
    (new_user_ns : Namespace V) :
  (forall e, deserialize (A := A) new_ahg_string = inl e ->
             replace_state new_ahg_string new_user_ns p = Raised e p)
  /\ (forall g, deserialize new_ahg_string = inr g ->
                replace_state new_ahg_string new_user_ns p
                = Returned tt
                    {| _ahg := g; _user_ns := new_user_ns;
                       _id_graph_map := ∅; _pre_run_cell_vars := ∅;
                       _planner_context := _planner_context p;
                       _modified_vars_structure :=
                         _modified_vars_structure p |}).
Proof.
  split.
  - intros e He. unfold replace_state. apply bind_raised.
    by rewrite He.
  - intros g Hg. unfold replace_state.
    erewrite bind_returned by (by rewrite Hg). reflexivity.
Qed.
End facts.

Section plans.
Context {V G A : Type} {ig : IdGraphOps V G} {ahg_ops : AHGOps A}.
Context {opt : OptimizerOps A} {st : StorageOps V}.
Implicit Types (p : CheckpointRestorePlanner V G A).

Lemma populate_id_graphs_returned p (active_vss : list VariableSnapshot) :
  (forall vs, vs ∈ active_vss -> vs_name vs ⊆ keyset (_user_ns p)) ->
  exists p', populate_id_graphs active_vss p = Returned tt p'
             /\ same_bindings p p' /\ _ahg p' = _ahg p.
Proof.
  intros Hbound. unfold populate_id_graphs.
  apply (for_each_frame (fun s => same_bindings p s /\ _ahg s = _ahg p)).
  { by repeat split. }
  intros vs s Hvs [[Hns Hctx] Hahg].
  apply (for_each_frame (fun s => same_bindings p s /\ _ahg s = _ahg p)).
  { by repeat split. }
  intros x s1 Hx%elem_of_elements [[Hns1 Hctx1] Hahg1].
  unfold mbind at 1, M_bind at 1, gets at 1.
  destruct (bool_decide (x ∉ dom (_id_graph_map s1))).
  - apply (Hbound vs Hvs) in Hx. unfold keyset in Hx.
    apply elem_of_dom in Hx as [v Hv].
    erewrite bind_returned; cycle 1.
    { apply user_ns_getitem_Some. rewrite Hns1. exact Hv. }
    eexists. split; [reflexivity|]. by repeat split.
  - eexists. split; [reflexivity|]. by repeat split.
Qed.

Lemma profile_sizes_returned p (active_vss : list VariableSnapshot) :
  (forall vs, vs ∈ active_vss -> vs_name vs ⊆ keyset (_user_ns p)) ->
  exists vss p', profile_sizes active_vss p = Returned vss p'
                 /\ same_bindings p p'.
Proof.
  intros Hbound. unfold profile_sizes.
  apply (map_each_rule (fun s => same_bindings p s)).
  { by split. }
  intros vs s Hvs [Hns Hctx].
  destruct (map_each_rule (fun s' => s' = s) (elements (vs_name vs))
              user_ns_getitem s) as (values & s' & Hvals & ->); [done| |].
  { intros x s' Hx%elem_of_elements ->.
    apply (Hbound vs Hvs) in Hx. unfold keyset in Hx.
    apply elem_of_dom in Hx as [v Hv].
    exists v, s. split; [|done]. apply user_ns_getitem_Some.
    rewrite Hns. exact Hv. }
  erewrite bind_returned by exact Hvals.
  eexists _, _. split; [reflexivity|]. by split.
Qed.

End plans.
End PlannerFacts.

(** ** The planner on the history graph of the specification *)

Module HistoryFacts.
Import Planner PlannerFacts.

Lemma filter_none {A} (P : A -> Prop) `{forall x, Decision (P x)} (l : list A) :
  (forall x, x ∈ l -> ~ P x) -> filter P l = [].
Proof.
  induction l as [|x l IH]; intros Hl; [done|].
  rewrite filter_cons. rewrite decide_False by (apply Hl; left).
  apply IH. intros y Hy. apply Hl. by right.
Qed.

(** Every snapshot that [update_graph] attaches to the new cell execution
    carries the version it was called with. *)
Lemma update_graph_stamps_version (g : Ahg.AHG) (a : UpdateGraphArgs) :
  exists ce,
    Ahg.cell_executions (Ahg.update_graph g a) = Ahg.cell_executions g ++ [ce]
    /\ cell_num ce = Z.of_nat (length (Ahg.cell_executions g))
    /\ forall vs, vs ∈ dst_vss ce -> vs_version vs = uga_version a.
Proof.
  eexists. split; [reflexivity|]. split; [reflexivity|]. simpl.
  intros vs [Hin|Hin]%elem_of_app.
  - apply list_elem_of_fmap in Hin as (grp & -> & _). reflexivity.
  - apply list_elem_of_fmap in Hin as (k & -> & _). reflexivity.
Qed.

(** The groups of [union_find] are sets of current names and cover
    them. *)
Lemma union_find_partition (current : gset string)
    (pairs : list (string * string)) :
  (forall g, g ∈ Ahg.union_find current pairs -> g ⊆ current)
  /\ (forall x, x ∈ current ->
                exists g, g ∈ Ahg.union_find current pairs /\ x ∈ g).
Proof.
  unfold Ahg.union_find.
  set (step := fun (parts : gset (gset string)) (xy : string * string) =>
                 if bool_decide (xy.1 ∈ current /\ xy.2 ∈ current)
                 then Ahg.merge_groups xy.1 xy.2 parts else parts).
  set (init := set_map (fun x : string => ({[x]} : gset string)) current
               : gset (gset string)).
  assert (forall parts,
             ((forall g, g ∈ parts -> g ⊆ current)
              /\ (forall x, x ∈ current -> exists g, g ∈ parts /\ x ∈ g)) ->
             forall xy,
               (forall g, g ∈ step parts xy -> g ⊆ current)
               /\ (forall x, x ∈ current ->
                             exists g, g ∈ step parts xy /\ x ∈ g)) as Hstep.
  { intros parts [Hsub Hcov] [x y]. unfold step. simpl.
    destruct (bool_decide _); [|done].
    unfold Ahg.merge_groups.
    set (touched := filter (fun g : gset string => x ∈ g \/ y ∈ g) parts).
    destruct (bool_decide (touched = ∅)); [done|]. split.
    - intros g [Hg|Hg]%elem_of_union.
      + apply elem_of_singleton in Hg as ->. intros z Hz.
        apply elem_of_union_list in Hz as (g' & Hg' & Hz).
        apply elem_of_elements in Hg'. apply elem_of_filter in Hg' as [_ Hg'].
        by apply (Hsub g').
      + apply elem_of_difference in Hg as [Hg _]. by apply Hsub.
    - intros z Hz. destruct (Hcov z Hz) as (g & Hg & Hzg).
      destruct (decide (g ∈ touched)) as [Ht|Ht].
      + exists (⋃ elements touched). split; [set_solver|].
        apply elem_of_union_list. exists g. split; [|done].
        by apply elem_of_elements.
      + exists g. split; [|done]. apply elem_of_union. right.
        by apply elem_of_difference. }
  assert ((forall g, g ∈ init -> g ⊆ current)
          /\ (forall x, x ∈ current -> exists g, g ∈ init /\ x ∈ g)) as Hinit.
  { unfold init. split.
    - intros g (x & -> & Hx)%elem_of_map. set_solver.
    - intros x Hx. exists {[x]}. split; [|set_solver].
      apply elem_of_map. eauto. }
  revert Hinit. generalize init. induction pairs as [|xy pairs IH]; intros parts Hparts.
  - exact Hparts.
  - simpl. apply IH. by apply Hstep.
Qed.

(** After an update the active groups are the groups of the current
    names. *)
Lemma update_graph_active_dom (g : Ahg.AHG) (a : UpdateGraphArgs) :
  uga_deleted_vars a ## uga_current_variables a ->
  dom (Ahg.active_variable_snapshots (Ahg.update_graph g a))
  = Ahg.union_find (uga_current_variables a) (uga_linked_variable_pairs a).
Proof.
  intros Hdel. unfold Ahg.update_graph. simpl.
  set (groups := Ahg.union_find _ _).
  destruct (union_find_partition (uga_current_variables a)
              (uga_linked_variable_pairs a)) as [Hsub _].
  fold groups in Hsub.
  rewrite dom_union_L, dom_list_to_map_L.
  rewrite <- !list_fmap_compose.
  rewrite (list_fmap_ext _ id) by done. rewrite list_fmap_id.
  apply set_eq. intros grp.
  rewrite elem_of_union, elem_of_list_to_set, list_elem_of_filter,
    elem_of_elements, elem_of_dom.
  split.
  - intros [[_ Hin]|[vs Hvs]]; [done|].
    apply map_lookup_filter_Some in Hvs as (_ & Hin & _). exact Hin.
  - intros Hin.
    destruct (Ahg.needs_fresh_vs (Ahg.active_variable_snapshots g)
                (uga_modified_vars a) grp) eqn:Hfresh.
    + left. split; [by apply Is_true_true|done].
    + right. unfold Ahg.needs_fresh_vs in Hfresh.
      apply orb_false_elim in Hfresh as [Hact Hmod].
      apply bool_decide_eq_false in Hact, Hmod.
      destruct (Ahg.active_variable_snapshots g !! grp) as [vs|] eqn:Hvs; [|done].
      exists vs. apply map_lookup_filter_Some. split; [done|]. simpl.
      split; [done|]. split.
      * destruct (decide (grp ∩ uga_modified_vars a = ∅)); [done|]. by destruct Hmod.
      * specialize (Hsub grp Hin). set_solver.
Qed.

(** After an update the names the AHG tracks are the current names. *)
Lemma update_graph_variable_names (g : Ahg.AHG) (a : UpdateGraphArgs) :
  uga_deleted_vars a ## uga_current_variables a ->
  get_variable_names (Ahg.update_graph g a) = uga_current_variables a.
Proof.
  intros Hdel. simpl.
  pose proof (update_graph_active_dom g a Hdel) as Hdom.
  destruct (union_find_partition (uga_current_variables a)
              (uga_linked_variable_pairs a)) as [Hsub Hcov].
  rewrite <- Hdom in Hsub, Hcov.
  apply set_eq. intros x. rewrite elem_of_union_list. split.
  - intros (grp & Hgrp & Hx).
    apply list_elem_of_fmap in Hgrp as ([grp' vs] & -> & Hin).
    apply elem_of_map_to_list in Hin. simpl in Hx.
    apply (Hsub grp'); [|done]. apply elem_of_dom. eauto.
  - intros Hx. destruct (Hcov x Hx) as (grp & [vs Hvs]%elem_of_dom & Hxg).
    exists grp. split; [|done]. apply list_elem_of_fmap. exists (grp, vs).
    split; [done|]. by apply elem_of_map_to_list.
Qed.

Section idle.
Context {V G : Type} {ig : IdGraphOps V G}.
Implicit Types (p : CheckpointRestorePlanner V G Ahg.AHG).

Lemma update_graph_unchanged (g : Ahg.AHG) (a : UpdateGraphArgs) :
  uga_modified_vars a = ∅ -> uga_deleted_vars a = ∅ ->
  dom (Ahg.active_variable_snapshots g)
  = Ahg.union_find (uga_current_variables a) (uga_linked_variable_pairs a) ->
  exists ce,
    Ahg.update_graph g a
    = {| Ahg.cell_executions := Ahg.cell_executions g ++ [ce];
         Ahg.active_variable_snapshots := Ahg.active_variable_snapshots g |}
    /\ dst_vss ce = [].
Proof.
  intros Hm Hd Hdom. unfold Ahg.update_graph. rewrite Hm, Hd, <- Hdom.
  rewrite elements_empty. simpl.
  rewrite (filter_none _ (elements (dom (Ahg.active_variable_snapshots g)))); cycle 1.
  { intros grp Hin%elem_of_elements. unfold Ahg.needs_fresh_vs.
    apply elem_of_dom in Hin as [vs Hvs].
    rewrite bool_decide_eq_false_2 by congruence.
    rewrite bool_decide_eq_false_2; [simpl; tauto|].
    intros Hne. apply Hne. set_solver. }
  simpl. rewrite (left_id_L ∅ (∪)).
  rewrite map_filter_id; cycle 1.
  { intros grp vs Hvs. simpl. split; [apply elem_of_dom; eauto|].
    split; set_solver. }
  eexists. split; reflexivity.
Qed.

(** An update on a planner whose namespace, fingerprints and history
    agree with each other. *)
Lemma idle_update {laws : IdGraphLaws ig} p (now : Z) :
  _pre_run_cell_vars p = keyset (_user_ns p) ->
  values_unchanged p ->
  keyset (_user_ns p) ⊆ dom (_id_graph_map p) ->
  dom (Ahg.active_variable_snapshots (_ahg p))
  = Ahg.union_find (keyset (_user_ns p)) (linked_pairs_of p) ->
  exists p' ce,
    post_run_cell_update (Some "") (Some 0%Q) now p
    = Returned {| created_vars := ∅; modified_vars_value := ∅;
                  modified_vars_structure := ∅; deleted_vars := ∅ |} p'
    /\ Ahg.cell_executions (_ahg p') = Ahg.cell_executions (_ahg p) ++ [ce]
    /\ (forall vs, vs ∈ dst_vss ce ->
                   Ahg.active_variable_snapshots (_ahg p) !! vs_name vs
                   = Some vs)
    /\ dst_vss ce = []
    /\ Ahg.active_variable_snapshots (_ahg p')
       = Ahg.active_variable_snapshots (_ahg p).
Proof.
  intros Hpre Hval Hfp Hgroups.
  assert (filter (fun k => structure_changed (_id_graph_map p) (_user_ns p) k)
            (dom (_id_graph_map p)) = (∅ : gset string)) as Hms.
  { apply set_eq. intros k. rewrite elem_of_filter, elem_of_dom.
    split; [|set_solver]. intros [Hk [g Hg]].
    specialize (Hval k g Hg). simpl in Hval. rewrite Hval in Hk. done. }
  assert (filter (fun k => value_changed (_id_graph_map p) (_user_ns p) k)
            (dom (_id_graph_map p)) = (∅ : gset string)) as Hmv.
  { apply set_eq. intros k. rewrite elem_of_filter, elem_of_dom.
    split; [|set_solver]. intros [Hk [g Hg]].
    specialize (Hval k g Hg). simpl in Hval.
    unfold value_changed in Hk. unfold structure_changed in Hval.
    destruct (compared _ _ k) as [[old new]|]; [|done].
    apply negb_false_iff in Hval.
    rewrite (graph_eq_value_equals _ _ Hval) in Hk. done. }
  assert (id_graph_map_after p = _id_graph_map p) as Hafter.
  { unfold id_graph_map_after. rewrite Hms, Hpre.
    replace (∅ ∪ keyset (_user_ns p) ∖ keyset (_user_ns p))
      with (∅ : gset string) by set_solver.
    apply refreshed_empty. }
  assert (pairs_fingerprinted p) as Hp.
  { apply fingerprints_present_pairs. unfold fingerprints_present. set_solver. }
  destruct (update_graph_unchanged (_ahg p)
              (update_graph_args_of p (Some "") (Some 0%Q) now))
    as (ce & Hupd & Hdst).
  { simpl. exact Hms. }
  { simpl. rewrite Hpre. set_solver. }
  { simpl. rewrite Hafter. exact Hgroups. }
  exists (set_ahg (Ahg.update_graph (_ahg p)
                     (update_graph_args_of p (Some "") (Some 0%Q) now))
            (after_changes p)), ce.
  split.
  - rewrite post_run_cell_update_returned by done.
    unfold changes_of. rewrite Hms, Hmv, Hpre.
    replace (keyset (_user_ns p) ∖ keyset (_user_ns p))
      with (∅ : gset string) by set_solver.
    reflexivity.
  - cbn [_ahg set_ahg]. rewrite Hupd. cbn.
    split; [done|]. split; [|done].
    intros vs Hin. rewrite Hdst in Hin. by apply elem_of_nil in Hin.
Qed.

Lemma linked_pairs_ext (m m' : gmap string G) (l : list (string * string)) :
  (forall xy, xy ∈ l -> m' !! xy.1 = m !! xy.1 /\ m' !! xy.2 = m !! xy.2) ->
  filter (fun xy => linked m' xy) l = filter (fun xy => linked m xy) l.
Proof.
  induction l as [|xy l IH]; intros Hl; [done|].
  rewrite !filter_cons.
  assert (linked m' xy = linked m xy) as ->.
  { unfold linked. destruct (Hl xy) as [-> ->]; [left|done]. }
  rewrite IH; [done|]. intros xy' Hin. apply Hl. by right.
Qed.

(** C9.  After an update that returned, the hooks around a cell that
    leaves the namespace and every bound value as they are (code [""],
    runtime 0) return a [ChangedVariables] whose four sets are empty and
    append exactly one cell execution; every snapshot in its [dst_vss] is
    an active snapshot of the history as it was (in fact there is none),
    and the active groups are untouched. *)
Theorem idle_cell_changes_nothing {laws : IdGraphLaws ig} p0 code runtime_s
    (now0 : Z) cv0 p1 (now : Z) :
  post_run_cell_update code runtime_s now0 p0 = Returned cv0 p1 ->
  exists p' ce,
    run_cell {| cr_after := _user_ns p1; cr_code := Some "";
                cr_runtime_s := Some 0%Q; cr_now := now |} p1
    = Returned {| created_vars := ∅; modified_vars_value := ∅;
                  modified_vars_structure := ∅; deleted_vars := ∅ |} p'
    /\ Ahg.cell_executions (_ahg p') = Ahg.cell_executions (_ahg p1) ++ [ce]
    /\ (forall vs, vs ∈ dst_vss ce ->
                   Ahg.active_variable_snapshots (_ahg p1) !! vs_name vs
                   = Some vs)
    /\ dst_vss ce = []
    /\ Ahg.active_variable_snapshots (_ahg p')
       = Ahg.active_variable_snapshots (_ahg p1).
Proof.
  intros (Hp0 & _ & ->)%post_run_cell_update_inv.
  set (args0 := update_graph_args_of p0 code runtime_s now0).
  set (p1 := set_ahg (update_graph (_ahg p0) args0) (after_changes p0)).
  set (idle := {| cr_after := _user_ns p1; cr_code := Some "";
                  cr_runtime_s := Some 0%Q; cr_now := now |}).
  rewrite run_cell_eq.
  set (K := keyset (_user_ns p0)).
  set (m1 := id_graph_map_after p0).
  assert (uga_deleted_vars args0 ## uga_current_variables args0) as Hdel.
  { simpl. set_solver. }
  assert (get_variable_names (_ahg p1) = K) as Hnames.
  { exact (update_graph_variable_names (_ahg p0) args0 Hdel). }
  assert (_id_graph_map (entering_post_run idle p1)
          = refreshed m1 (_user_ns p1) (K ∖ dom m1)) as Hm2.
  { unfold entering_post_run, after_pre_run. cbn [_id_graph_map set_user_ns
      set_id_graph_map]. rewrite Hnames. reflexivity. }
  assert (forall k, k ∈ dom m1 ->
                    _id_graph_map (entering_post_run idle p1) !! k = m1 !! k)
    as Hsame.
  { intros k Hk. rewrite Hm2, refreshed_lookup.
    destruct (ns_vars (_user_ns p1) !! k); [|done].
    rewrite decide_False; [done|]. by intros [_ ?]%elem_of_difference. }
  destruct (idle_update (entering_post_run idle p1) now)
    as (p' & ce & Hrun & Hces & Hre & Hdst & Hact); cycle 4.
  { exists p', ce. split; [exact Hrun|]. split; [exact Hces|].
    split; [exact Hre|]. split; [exact Hdst|exact Hact]. }
  - reflexivity.
  - intros k g Hg. cbn beta. unfold structure_changed, compared.
    rewrite Hg. cbn [entering_post_run _user_ns set_user_ns cr_after idle].
    destruct (ns_vars (_user_ns p1) !! k) as [v|] eqn:Hv; [|done].
    apply negb_false_iff.
    rewrite Hm2, refreshed_lookup, Hv in Hg.
    destruct (decide (k ∈ K ∖ dom m1)).
    { injection Hg as <-. apply graph_eq_refl. }
    unfold m1, id_graph_map_after in Hg. rewrite refreshed_lookup in Hg.
    change (ns_vars (_user_ns p1)) with (ns_vars (_user_ns p0)) in Hv.
    rewrite Hv in Hg.
    match type of Hg with (if ?d then _ else _) = _ => destruct d as [Hin|Hin] end.
    { injection Hg as <-. apply graph_eq_refl. }
    assert (structure_changed (_id_graph_map p0) (_user_ns p0) k = false)
      as Hsc.
    { apply not_true_is_false. intros Hsc. apply Hin. apply elem_of_union.
      left. apply elem_of_filter. split; [by apply Is_true_true|].
      apply elem_of_dom. eauto. }
    unfold structure_changed, compared in Hsc. rewrite Hg, Hv in Hsc.
    by apply negb_false_iff in Hsc.
  - rewrite Hm2, refreshed_dom.
    change (keyset (_user_ns (entering_post_run idle p1))) with K.
    change (keyset (_user_ns p1)) with K.
    intros k Hk.
    rewrite elem_of_union, elem_of_intersection, elem_of_difference.
    destruct (decide (k ∈ dom m1)); tauto.
  - change (_ahg (entering_post_run idle p1))
      with (Ahg.update_graph (_ahg p0) args0).
    rewrite (update_graph_active_dom _ _ Hdel).
    change (keyset (_user_ns (entering_post_run idle p1))) with K.
    change (uga_current_variables args0) with K.
    f_equal. unfold linked_pairs_of.
    change (keyset (_user_ns (entering_post_run idle p1))) with K.
    simpl. symmetry. apply linked_pairs_ext.
    intros xy Hin. unfold pairs_fingerprinted in Hp0.
    rewrite Forall_forall in Hp0. destruct (Hp0 xy Hin) as [Hx Hy].
    split; by apply Hsame.
Qed.
End idle.
End HistoryFacts.

(** ** The planner on concrete sessions *)

Module Sessions.
Import Planner PlannerFacts HistoryFacts Model.

Lemma post_run_classifies_modified_witness :
  post_run_cell_update (Some "xs.append(2)") None 200 s3_entering_cell2
  = Returned (changes_of s3_entering_cell2)
      (set_ahg (update_graph (_ahg s3_entering_cell2)
                  (update_graph_args_of s3_entering_cell2
                     (Some "xs.append(2)") None 200))
         (after_changes s3_entering_cell2))
  /\ ("xs" ∈ modified_vars_value (changes_of s3_entering_cell2)
       <-> value_equals (fingerprint s3_xs_before)
             (get_object_state s3_xs_after) = false)
  /\ ("xs" ∈ modified_vars_structure (changes_of s3_entering_cell2)
       <-> graph_eq (fingerprint s3_xs_before)
             (get_object_state s3_xs_after) = false)
  /\ (graph_eq (fingerprint s3_xs_before) (get_object_state s3_xs_after)
      = false ->
      is_root_id_and_type_equals (fingerprint s3_xs_before)
        (get_object_state s3_xs_after) = true ->
      "xs" ∈ uga_accessed_vars
               (update_graph_args_of s3_entering_cell2
                  (Some "xs.append(2)") None 200))
  /\ (graph_eq (fingerprint s3_xs_before) (get_object_state s3_xs_after)
      = false ->
      _id_graph_map (after_changes s3_entering_cell2) !! "xs"
      = Some (get_object_state s3_xs_after)).
Proof.
  apply (proj2 (post_run_classifies_modified s3_entering_cell2
                  (Some "xs.append(2)") None 200 "xs"
                  (fingerprint s3_xs_before) s3_xs_after
                  ltac:(vm_compute; reflexivity)
                  ltac:(vm_compute; reflexivity))
           (update_graph_args_of s3_entering_cell2
              (Some "xs.append(2)") None 200)
           (changes_of s3_entering_cell2)
           (after_changes s3_entering_cell2)).
  apply post_run_cell_changes_returned, fingerprints_present_pairs.
  unfold fingerprints_present. compute_done.
Defined.

(** Scenario S3: the in-place [append] is reported as modified by value
    and by structure, and [xs] is passed as accessed although the
    instrumentation saw no access. *)
Example s3_in_place_mutation :
  accessed_vars (cr_after s3_cell2) = ∅
  /\ match result (post_run_cell_changes (Some "xs.append(2)") None 200
                     s3_entering_cell2) with
     | inr (args, cv) =>
         cv = {| created_vars := ∅; modified_vars_value := {["xs"]};
                 modified_vars_structure := {["xs"]}; deleted_vars := ∅ |}
         /\ uga_accessed_vars args = {["xs"]}
     | inl _ => False
     end.
Proof. vm_compute. repeat split. Qed.

Lemma changed_variables_invariant_witness :
  created_vars (changes_of s3_entering_cell2)
    ## deleted_vars (changes_of s3_entering_cell2)
  /\ modified_vars_value (changes_of s3_entering_cell2)
     ⊆ modified_vars_structure (changes_of s3_entering_cell2)
  /\ (forall k,
        k ∈ created_vars (changes_of s3_entering_cell2)
            ∪ modified_vars_value (changes_of s3_entering_cell2)
            ∪ modified_vars_structure (changes_of s3_entering_cell2)
            ∪ deleted_vars (changes_of s3_entering_cell2) ->
        k ∈ keyset (_user_ns s3_entering_cell2)
        \/ k ∈ _pre_run_cell_vars s3_entering_cell2).
Proof.
  apply (proj2 (changed_variables_invariant (laws := IdGraphFacts.model_laws)
                  s3_entering_cell2 (Some "xs.append(2)") None 200)
           (changes_of s3_entering_cell2)
           (set_ahg (update_graph (_ahg s3_entering_cell2)
                       (update_graph_args_of s3_entering_cell2
                          (Some "xs.append(2)") None 200))
              (after_changes s3_entering_cell2))).
  apply post_run_cell_update_returned, fingerprints_present_pairs.
  unfold fingerprints_present. compute_done.
Defined.

Lemma untracked_name_lookup_witness :
  exists k p',
    run_cell (idle_cell ["y"; "z"]) (untracked_planner ["y"; "z"])
    = Raised (KeyError k) p'
    /\ k ∈ keyset (cr_after (idle_cell ["y"; "z"]))
    /\ (k ∉ dom (_id_graph_map p')).
Proof.
  apply (proj1 (proj2 (untracked_name_lookup (idle_cell ["y"; "z"])
                         (untracked_planner ["y"; "z"])) "z"
                  ltac:(compute_done) ltac:(compute_done) ltac:(compute_done))).
  - compute_done.
  - vm_compute. lia.
Defined.

(** C10 as stated fails when the untracked name is the only bound name:
    no pair is formed, no lookup is made, and the hooks return. *)
Lemma lone_untracked_name_returns :
  "z" ∈ keyset (_user_ns (untracked_planner ["z"]))
  /\ ("z" ∉ get_variable_names (_ahg (untracked_planner ["z"])))
  /\ ("z" ∉ dom (_id_graph_map (untracked_planner ["z"])))
  /\ "z" ∈ keyset (cr_after (idle_cell ["z"]))
  /\ result (run_cell (idle_cell ["z"]) (untracked_planner ["z"]))
     = inr {| created_vars := ∅; modified_vars_value := ∅;
              modified_vars_structure := ∅; deleted_vars := ∅ |}.
Proof.
  split; [compute_done|]. split; [compute_done|]. split; [compute_done|].
  split; [compute_done|]. vm_compute. reflexivity.
Qed.



Lemma replace_state_atomic_witness :
  replace_state "corrupt" (cr_after s3_cell1) s3_entering_cell2
  = Raised (DeserializationError "corrupt") s3_entering_cell2
  /\ replace_state (serialize Ahg.empty) (cr_after s3_cell1)
       s3_entering_cell2
     = Returned tt
         {| _ahg := Ahg.empty; _user_ns := cr_after s3_cell1;
            _id_graph_map := ∅; _pre_run_cell_vars := ∅;
            _planner_context := _planner_context s3_entering_cell2;
            _modified_vars_structure :=
              _modified_vars_structure s3_entering_cell2 |}.
Proof.
  split.
  - apply (proj1 (replace_state_atomic s3_entering_cell2 "corrupt"
                    (cr_after s3_cell1))).
    vm_compute. reflexivity.
  - apply (proj2 (replace_state_atomic s3_entering_cell2
                    (serialize Ahg.empty) (cr_after s3_cell1))).
    vm_compute. reflexivity.
Defined.

Lemma idle_cell_changes_nothing_witness :
  exists p' ce,
    run_cell {| cr_after := _user_ns s3_updated; cr_code := Some "";
                cr_runtime_s := Some 0%Q; cr_now := 300 |} s3_updated
    = Returned {| created_vars := ∅; modified_vars_value := ∅;
                  modified_vars_structure := ∅; deleted_vars := ∅ |} p'
    /\ Ahg.cell_executions (_ahg p')
       = Ahg.cell_executions (_ahg s3_updated) ++ [ce]
    /\ (forall vs, vs ∈ dst_vss ce ->
                   Ahg.active_variable_snapshots (_ahg s3_updated)
                     !! vs_name vs = Some vs)
    /\ dst_vss ce = []
    /\ Ahg.active_variable_snapshots (_ahg p')
       = Ahg.active_variable_snapshots (_ahg s3_updated).
Proof.
  apply (idle_cell_changes_nothing (laws := IdGraphFacts.model_laws)
           s3_entering_cell2 (Some "xs.append(2)") None 200
           (changes_of s3_entering_cell2) s3_updated 300).
  apply post_run_cell_update_returned, fingerprints_present_pairs.
  unfold fingerprints_present. compute_done.
Defined.

#[global] Instance store_all_laws : OptimizerLaws store_all.
Proof.
  constructor. intros g active_vss stored vn Hvn. simpl in Hvn.
  apply elem_of_list_to_set, list_elem_of_fmap in Hvn as (vs & -> & Hvs).
  eauto.
Qed.



(** C2 fails whenever a snapshot is migrated.  After cell 1 of scenario
    S3 the optimizer migrates [({xs}, 100)], whose output cell is cell 0;
    line 190 files the frozenset [{xs}] under cell 0, and line 241 asks
    that frozenset for its [name]: the method raises instead of emitting
    [LoadVariable(0, [xs], [])]. *)
Example migrated_snapshot_raises_attribute_error :
  result (plan_migration (st := storage ∅) "db" None s3_after_cell1)
  = inr ({[ {| vn_name := {["xs"]}; vn_version := 100 |} ]}, ∅,
         {[ 0 := ∅ ]})
  /\ result (build_ce_to_vs_map (_ahg s3_after_cell1)
               {[ {| vn_name := {["xs"]}; vn_version := 100 |} ]}
               s3_after_cell1)
     = inr {[ 0 := [FrozenSet {["xs"]}] ]}
  /\ result (generate_checkpoint_restore_plans (st := storage ∅)
               "db" "c1" None s3_after_cell1)
     = inl (AttributeError "name").
Proof. repeat split; vm_compute; reflexivity. Qed.

(** The same walk on objects that do have a [name]: cell 0 gets its
    [LoadVariable] action. *)
Example versioned_items_load :
  result (_generate_restore_plan ∅
            {[ 0 := [Versioned {| vn_name := {["xs"]}; vn_version := 100 |}] ]}
            {[ 0 := ∅ ]} s3_after_cell1)
  = inr [LoadVariable 0 ["xs"] []].
Proof. vm_compute. reflexivity. Qed.

End Sessions.

(** * Further properties of the code *)

(** ** More on loops and on [itertools.combinations] *)

Lemma combinations2_ordered {A} (l : list A) (x y : A) :
  (x, y) ∈ combinations2 l ->
  exists l1 l2 l3, l = l1 ++ x :: l2 ++ y :: l3.
Proof.
  induction l as [|a l IH]; simpl; [by intros ?%elem_of_nil|].
  rewrite elem_of_app, list_elem_of_fmap.
  intros [(b & [= -> ->] & Hb)|Hin].
  - apply list_elem_of_split in Hb as (l2 & l3 & ->). by exists [], l2, l3.
  - destruct (IH Hin) as (l1 & l2 & l3 & ->). by exists (a :: l1), l2, l3.
Qed.

Lemma combinations2_distinct {A} (l : list A) (x y : A) :
  NoDup l -> (x, y) ∈ combinations2 l -> x <> y /\ (y, x) ∉ combinations2 l.
Proof.
  intros Hnd Hin.
  destruct (combinations2_ordered l x y Hin) as (l1 & l2 & l3 & ->).
  assert (x <> y) as Hne.
  { intros ->. apply NoDup_app in Hnd as (_ & _ & Hnd).
    apply NoDup_cons in Hnd as [Hy _]. apply Hy.
    apply elem_of_app. right. left. }
  split; [done|].
  intros (k1 & k2 & k3 & Heq)%combinations2_ordered.
  (* y occurs before x in the second split, after x in the first *)
  assert (forall (l : list A) a, NoDup l -> forall u1 u2 v1 v2,
             l = u1 ++ a :: u2 -> l = v1 ++ a :: v2 -> u1 = v1) as Huniq.
  { clear. intros l a Hnd u1. revert l Hnd.
    induction u1 as [|b u1 IH]; intros l Hnd u2 v1 v2 -> Heq.
    - destruct v1 as [|c v1]; [done|]. simpl in Heq. injection Heq as <- Heq.
      apply NoDup_cons in Hnd as [Hn _]. exfalso. apply Hn. rewrite Heq.
      apply elem_of_app. right. left.
    - destruct v1 as [|c v1]; simpl in Heq.
      + injection Heq as -> Heq. simpl in Hnd.
        apply NoDup_cons in Hnd as [Hn _]. exfalso. apply Hn.
        apply elem_of_app. right. left.
      + injection Heq as <- Heq. f_equal. simpl in Hnd.
        apply NoDup_cons in Hnd as [_ Hnd]. by eapply IH. }
  pose proof (Huniq _ x Hnd l1 (l2 ++ y :: l3) (k1 ++ y :: k2) k3 eq_refl) as H1.
  rewrite <- app_assoc in H1. simpl in H1. specialize (H1 Heq).
  pose proof (Huniq _ y Hnd (l1 ++ x :: l2) l3 k1 (k2 ++ x :: k3)) as H2.
  rewrite <- app_assoc in H2. simpl in H2. specialize (H2 eq_refl Heq).
  apply (f_equal length) in H1. apply (f_equal length) in H2.
  repeat (rewrite length_app in H1 || rewrite length_app in H2
          || rewrite length_cons in H1 || rewrite length_cons in H2).
  lia.
Qed.

Lemma combinations2_NoDup {A} (l : list A) :
  NoDup l -> NoDup (combinations2 l).
Proof.
  induction l as [|a l IH]; simpl; intros Hnd; [constructor|].
  apply NoDup_cons in Hnd as [Ha Hnd].
  apply NoDup_app. split; [|split].
  - apply NoDup_fmap_2; [|done]. by intros ?? [= ->].
  - intros [x y] (b & [= -> ->] & Hb)%list_elem_of_fmap Hin.
    apply combinations2_elem in Hin as [Hin _]. done.
  - by apply IH.
Qed.

Lemma combinations2_complete {A} (l : list A) (x y : A) :
  x ∈ l -> y ∈ l -> x <> y ->
  (x, y) ∈ combinations2 l \/ (y, x) ∈ combinations2 l.
Proof.
  induction l as [|a l IH]; [by intros ?%elem_of_nil|].
  intros Hx Hy Hne. simpl. rewrite !elem_of_app, !list_elem_of_fmap.
  apply elem_of_cons in Hx as [->|Hx]; apply elem_of_cons in Hy as [->|Hy].
  - done.
  - left. left. eauto.
  - right. left. eauto.
  - destruct (IH Hx Hy Hne); [left|right]; by right.
Qed.

Section outcome_loops.
Context {S A B : Type}.

Lemma bind_ext_on {C D} (m : M S C) (f g : C -> M S D) s :
  (forall a s', m s = Returned a s' -> f a s' = g a s') ->
  (m ≫= f) s = (m ≫= g) s.
Proof.
  intros H. unfold mbind, M_bind. destruct (m s) as [a s'|e s']; [|done].
  by apply H.
Qed.

Lemma gets_bind {C D} (f : S -> C) (k : C -> M S D) s :
  (gets f ≫= k) s = k (f s) s.
Proof. reflexivity. Qed.

Lemma for_each_outcome (I : S -> Prop) (E : exn -> Prop) (l : list A)
    (body : A -> M S unit) s :
  I s ->
  (forall x s, x ∈ l -> I s ->
     match body x s with Returned _ s' => I s' | Raised e _ => E e end) ->
  match for_each l body s with Returned _ s' => I s' | Raised e _ => E e end.
Proof.
  revert s. induction l as [|x l IH]; intros s HI Hstep; simpl; [done|].
  unfold mbind, M_bind.
  pose proof (Hstep x s ltac:(left) HI) as Hx.
  destruct (body x s) as [[] s1|e s1]; [|done].
  apply IH; [done|]. intros x' s' Hin. apply Hstep. by right.
Qed.

Lemma map_each_outcome (I : S -> Prop) (E : exn -> Prop) (l : list A)
    (f : A -> M S B) s :
  I s ->
  (forall x s, x ∈ l -> I s ->
     match f x s with Returned _ s' => I s' | Raised e _ => E e end) ->
  match map_each l f s with Returned _ s' => I s' | Raised e _ => E e end.
Proof.
  revert s. induction l as [|x l IH]; intros s HI Hstep; simpl; [done|].
  unfold mbind, M_bind.
  pose proof (Hstep x s ltac:(left) HI) as Hx.
  destruct (f x s) as [y s1|e s1]; [|done].
  assert (forall x' s', x' ∈ l -> I s' ->
            match f x' s' with Returned _ s'' => I s'' | Raised e _ => E e end)
    as Hstep'.
  { intros x' s' Hin. apply Hstep. by right. }
  specialize (IH s1 Hx Hstep').
  by destruct (map_each l f s1) as [ys s2|e s2].
Qed.
End outcome_loops.

(** ** The hooks around a cell *)

Module HookFacts.
Import Planner PlannerFacts.
Section hooks.
Context {V G A : Type} {ig : IdGraphOps V G} {ahg_ops : AHGOps A}.
Implicit Types (p s : CheckpointRestorePlanner V G A).

Lemma entering_post_run_dom (c : CellRun V) p :
  dom (_id_graph_map (entering_post_run c p))
  = dom (_id_graph_map p)
    ∪ (get_variable_names (_ahg p) ∖ dom (_id_graph_map p))
      ∩ keyset (_user_ns p).
Proof. unfold entering_post_run, after_pre_run. simpl. apply refreshed_dom. Qed.

Lemma run_cell_fingerprinted (c : CellRun V) p :
  all_fingerprinted p ->
  exists cv p', run_cell c p = Returned cv p' /\ all_fingerprinted p'.
Proof.
  intros Hall. rewrite run_cell_eq.
  assert (fingerprints_present (entering_post_run c p)) as Hfp.
  { unfold fingerprints_present. rewrite entering_post_run_dom.
    unfold entering_post_run, after_pre_run. simpl.
    intros k [_ Hk]%elem_of_intersection.
    apply elem_of_union. left. by apply Hall. }
  eexists _, _. split.
  { apply post_run_cell_update_returned, fingerprints_present_pairs, Hfp. }
  unfold all_fingerprinted. cbn [_user_ns _id_graph_map set_ahg after_changes
    set_id_graph_map set_user_ns].
  rewrite id_graph_map_after_dom, entering_post_run_dom.
  unfold entering_post_run, after_pre_run, keyset, reset_accessed_vars. simpl.
  intros k Hk.
  destruct (decide (k ∈ dom (ns_vars (_user_ns p)))) as [Hin|Hout].
  - apply elem_of_union. left. apply elem_of_union. left. by apply Hall.
  - apply elem_of_union. right. by apply elem_of_difference.
Qed.

(** X1.  A session that starts with a fingerprint for every bound name
    never raises: the hooks around each cell of a list of cells return,
    with one [ChangedVariables] per cell, and at the end every bound name
    has a fingerprint again. *)
Theorem session_keeps_fingerprints (cells : list (CellRun V)) p :
  all_fingerprinted p ->
  exists cvs p',
    run_cells cells p = Returned cvs p'
    /\ length cvs = length cells
    /\ all_fingerprinted p'.
Proof.
  unfold run_cells. revert p.
  induction cells as [|c cells IH]; intros p Hall; simpl.
  - by exists [], p.
  - destruct (run_cell_fingerprinted c p Hall) as (cv & p1 & Hrun & Hall1).
    erewrite bind_returned by exact Hrun.
    destruct (IH p1 Hall1) as (cvs & p2 & Hrest & Hlen & Hall2).
    erewrite bind_returned by exact Hrest.
    exists (cv :: cvs), p2. split; [done|]. split; [simpl; by f_equal|done].
Qed.

Lemma value_changed_bound p k :
  value_changed (_id_graph_map p) (_user_ns p) k = true ->
  k ∈ keyset (_user_ns p).
Proof.
  unfold value_changed.
  destruct (compared _ _ k) as [[old new]|] eqn:Hc; [|done].
  apply compared_Some in Hc as (_ & v & Hv & _). intros _.
  apply elem_of_dom. eauto.
Qed.

(** X2.  In what [post_run_cell_update] returns, [added()] and
    [deleted()] are disjoint: every added name is bound after the cell,
    and every deleted name was bound before the cell and is bound no
    more. *)
Theorem added_and_deleted_disjoint p code runtime_s now cv p' :
  post_run_cell_update code runtime_s now p = Returned cv p' ->
  added cv ## deleted cv
  /\ added cv ⊆ keyset (_user_ns p)
  /\ deleted cv ## keyset (_user_ns p)
  /\ deleted cv ⊆ _pre_run_cell_vars p.
Proof.
  intros (_ & -> & _)%post_run_cell_update_inv.
  unfold added, deleted. simpl.
  assert (forall k,
            k ∈ keyset (_user_ns p) ∖ _pre_run_cell_vars p
                ∪ filter (fun k => value_changed (_id_graph_map p) (_user_ns p) k)
                    (dom (_id_graph_map p)) ->
            k ∈ keyset (_user_ns p)) as Hadded.
  { intros k [[? _]%elem_of_difference|[Hk _]%elem_of_filter]%elem_of_union;
      [done|].
    apply value_changed_bound. by apply Is_true_true. }
  split; [|split; [|split]].
  - intros k Hk [_ Hd]%elem_of_difference. by apply Hd, Hadded.
  - exact Hadded.
  - intros k [_ Hd]%elem_of_difference Hk. by apply Hd.
  - intros k [? _]%elem_of_difference. done.
Qed.

(** X3.  [post_run_cell_update] removes no entry of the fingerprint
    dictionary.  The entry of a name it reports neither as modified by
    structure nor as created is left as it was; the entry of a name it
    reports as one of the two is the fingerprint of the value the name is
    bound to.  The bindings of the namespace, the names recorded before
    the cell and the configuration are left as they were, and the record
    of accesses is reset. *)
Theorem post_run_cell_update_frame p code runtime_s now cv p' :
  post_run_cell_update code runtime_s now p = Returned cv p' ->
  dom (_id_graph_map p) ⊆ dom (_id_graph_map p')
  /\ (forall k, k ∉ modified_vars_structure cv -> k ∉ created_vars cv ->
                _id_graph_map p' !! k = _id_graph_map p !! k)
  /\ (forall k v, k ∈ modified_vars_structure cv ∪ created_vars cv ->
                  ns_vars (_user_ns p) !! k = Some v ->
                  _id_graph_map p' !! k = Some (get_object_state v))
  /\ ns_vars (_user_ns p') = ns_vars (_user_ns p)
  /\ accessed_vars (_user_ns p') = ∅
  /\ _pre_run_cell_vars p' = _pre_run_cell_vars p
  /\ _planner_context p' = _planner_context p.
Proof.
  intros (_ & -> & ->)%post_run_cell_update_inv. simpl.
  split; [|split; [|split]]; [| | |done].
  - rewrite id_graph_map_after_dom. apply union_subseteq_l.
  - intros k Hs Hc. unfold id_graph_map_after. rewrite refreshed_lookup.
    destruct (ns_vars (_user_ns p) !! k); [|done].
    rewrite decide_False; [done|].
    intros [?|?]%elem_of_union; [by apply Hs|by apply Hc].
  - intros k v Hk Hv. unfold id_graph_map_after. rewrite refreshed_lookup, Hv.
    by rewrite decide_True.
Qed.

(** X4.  When [post_run_cell_update] returns, the AHG was updated once,
    with the code, the clock reading, the runtime (0 when none is given)
    and the names bound after the cell; the sets it was given as modified
    and deleted are the sets reported to the caller as modified by
    structure and deleted.  The accessed names it was given are the
    instrumented accesses to names bound before the cell, and beyond
    these only names reported as modified by structure. *)
Theorem ahg_receives_reported_changes p code runtime_s now cv p' :
  post_run_cell_update code runtime_s now p = Returned cv p' ->
  exists args,
    _ahg p' = update_graph (_ahg p) args
    /\ uga_cell args = code
    /\ uga_version args = now
    /\ uga_cell_runtime_s args = default 0%Q runtime_s
    /\ uga_current_variables args = keyset (_user_ns p)
    /\ uga_modified_vars args = modified_vars_structure cv
    /\ uga_deleted_vars args = deleted_vars cv
    /\ created_vars cv ⊆ uga_current_variables args
    /\ accessed_vars (_user_ns p) ∩ _pre_run_cell_vars p
       ⊆ uga_accessed_vars args
    /\ uga_accessed_vars args
       ⊆ accessed_vars (_user_ns p) ∩ _pre_run_cell_vars p
         ∪ modified_vars_structure cv.
Proof.
  intros (_ & -> & ->)%post_run_cell_update_inv.
  exists (update_graph_args_of p code runtime_s now). simpl.
  repeat (split; [done|]).
  split; [apply subseteq_difference_l; done|].
  split; [apply union_subseteq_l|].
  apply union_mono_l. intros k [Hk Hin]%elem_of_filter.
  apply elem_of_filter. split; [|done].
  apply Is_true_true in Hk. apply Is_true_true.
  unfold mutated_in_place in Hk. unfold structure_changed.
  destruct (compared _ _ k) as [[old new]|]; [|done].
  by apply andb_true_iff in Hk as [? _].
Qed.

(** X5.  The linked pairs computed at lines 126-130 hold no pair twice
    and no pair in both orders.  A listed pair consists of two different
    bound names whose fingerprints, as refreshed by the method, overlap;
    and two different bound names whose fingerprints overlap in both
    directions are listed, in one order. *)
Theorem linked_pairs_of_bound_names p code runtime_s now args cv p' :
  post_run_cell_changes code runtime_s now p = Returned (args, cv) p' ->
  NoDup (uga_linked_variable_pairs args)
  /\ (forall x y,
        (x, y) ∈ uga_linked_variable_pairs args ->
        x <> y
        /\ x ∈ keyset (_user_ns p) /\ y ∈ keyset (_user_ns p)
        /\ ((y, x) ∉ uga_linked_variable_pairs args)
        /\ exists gx gy,
             _id_graph_map p' !! x = Some gx /\ _id_graph_map p' !! y = Some gy
             /\ is_overlap gx gy = true)
  /\ (forall x y gx gy,
        x ∈ keyset (_user_ns p) -> y ∈ keyset (_user_ns p) -> x <> y ->
        _id_graph_map p' !! x = Some gx -> _id_graph_map p' !! y = Some gy ->
        is_overlap gx gy = true -> is_overlap gy gx = true ->
        (x, y) ∈ uga_linked_variable_pairs args
        \/ (y, x) ∈ uga_linked_variable_pairs args).
Proof.
  intros (_ & -> & _ & ->)%post_run_cell_changes_inv.
  cbn [uga_linked_variable_pairs update_graph_args_of after_changes
       _id_graph_map set_id_graph_map].
  set (m := id_graph_map_after p).
  set (names := elements (keyset (_user_ns p))).
  assert (NoDup names) as Hnd by apply NoDup_elements.
  split; [|split].
  - apply NoDup_filter. by apply combinations2_NoDup.
  - intros x y [Hl Hin]%list_elem_of_filter.
    destruct (combinations2_distinct names x y Hnd Hin) as [Hne Hrev].
    destruct (combinations2_elem names x y Hin) as [Hx Hy].
    split; [done|]. split; [by apply elem_of_elements|].
    split; [by apply elem_of_elements|]. split.
    + intros [_ ?]%list_elem_of_filter. done.
    + unfold linked in Hl. simpl in Hl.
      destruct (m !! x) as [gx|]; [|done].
      destruct (m !! y) as [gy|]; [|done].
      exists gx, gy. repeat split. by apply Is_true_true.
  - intros x y gx gy Hx%elem_of_elements Hy%elem_of_elements Hne Hgx Hgy
      Hov Hov'.
    destruct (combinations2_complete names x y Hx Hy Hne) as [Hin|Hin];
      [left|right]; apply list_elem_of_filter; (split; [|done]);
      unfold linked; simpl; rewrite Hgx, Hgy; by apply Is_true_true.
Qed.

(** X6.  The fingerprint of a deleted name stays in the dictionary, and a
    name that is bound again is compared with it: a name that has an
    entry, was not bound before the cell and is bound after it is
    reported as created, and in addition as modified by structure (by
    value) exactly when the fingerprint of its value differs in
    structure (in value) from the entry that was left. *)
Theorem stale_fingerprint_is_compared p code runtime_s now cv p' :
  post_run_cell_update code runtime_s now p = Returned cv p' ->
  (forall k, k ∈ deleted_vars cv ->
             _id_graph_map p' !! k = _id_graph_map p !! k)
  /\ (forall k old v,
        _id_graph_map p !! k = Some old ->
        k ∉ _pre_run_cell_vars p ->
        ns_vars (_user_ns p) !! k = Some v ->
        k ∈ created_vars cv
        /\ (k ∈ modified_vars_structure cv
            <-> graph_eq old (get_object_state v) = false)
        /\ (k ∈ modified_vars_value cv
            <-> value_equals old (get_object_state v) = false)).
Proof.
  intros (_ & -> & ->)%post_run_cell_update_inv. simpl. split.
  - intros k [_ Hk]%elem_of_difference.
    unfold id_graph_map_after. rewrite refreshed_lookup.
    destruct (ns_vars (_user_ns p) !! k) eqn:Hv; [|done].
    exfalso. apply Hk. apply elem_of_dom. eauto.
  - intros k old v Hold Hpre Hv.
    assert (compared (_id_graph_map p) (_user_ns p) k
            = Some (old, get_object_state v)) as Hcmp.
    { apply compared_Some. eauto. }
    assert (k ∈ dom (_id_graph_map p)) as Hk by (apply elem_of_dom; eauto).
    split.
    { apply elem_of_difference. split; [|done]. apply elem_of_dom. eauto. }
    rewrite !elem_of_filter. unfold structure_changed, value_changed.
    rewrite Hcmp. split.
    + destruct (graph_eq old (get_object_state v)); simpl; naive_solver.
    + destruct (value_equals old (get_object_state v)); simpl; naive_solver.
Qed.

Lemma refreshed_disjoint (m : gmap string G) (ns : Namespace V)
    (names : gset string) :
  names ∩ keyset ns ⊆ dom m -> names ## dom m -> refreshed m ns names = m.
Proof.
  intros Hsub Hdis. apply map_eq. intros k. rewrite refreshed_lookup.
  destruct (ns_vars ns !! k) as [v|] eqn:Hv; [|done].
  destruct (decide (k ∈ names)) as [Hk|]; [|done].
  exfalso. apply (Hdis k Hk). apply Hsub. apply elem_of_intersection.
  split; [done|]. apply elem_of_dom. eauto.
Qed.

(** X7.  [pre_run_cell_update] never raises, and running it twice is the
    same as running it once.  It records the names bound, keeps every
    fingerprint it finds, and adds the fingerprint of the current value
    for exactly the names that the AHG tracks, that are bound and that
    had no entry; the AHG and the namespace are left as they were. *)
Theorem pre_run_cell_update_idempotent p :
  exists p1,
    pre_run_cell_update p = Returned tt p1
    /\ pre_run_cell_update p1 = Returned tt p1
    /\ _pre_run_cell_vars p1 = keyset (_user_ns p)
    /\ _id_graph_map p ⊆ _id_graph_map p1
    /\ dom (_id_graph_map p1)
       = dom (_id_graph_map p)
         ∪ get_variable_names (_ahg p) ∩ keyset (_user_ns p)
    /\ (forall k v, k ∈ get_variable_names (_ahg p) ->
                    (k ∉ dom (_id_graph_map p)) ->
                    ns_vars (_user_ns p) !! k = Some v ->
                    _id_graph_map p1 !! k = Some (get_object_state v))
    /\ _ahg p1 = _ahg p /\ _user_ns p1 = _user_ns p.
Proof.
  exists (after_pre_run p).
  split; [apply pre_run_cell_update_returned|].
  assert (dom (_id_graph_map (after_pre_run p))
          = dom (_id_graph_map p)
            ∪ get_variable_names (_ahg p) ∩ keyset (_user_ns p)) as Hdom.
  { unfold after_pre_run. simpl. rewrite refreshed_dom.
    apply set_eq. intros k.
    rewrite !elem_of_union, !elem_of_intersection, elem_of_difference.
    destruct (decide (k ∈ dom (_id_graph_map p))); tauto. }
  split; [|split; [done|split; [|split; [exact Hdom|split; [|done]]]]].
  - rewrite pre_run_cell_update_returned. f_equal.
    unfold after_pre_run at 1.
    cbn [_id_graph_map _user_ns _ahg after_pre_run set_id_graph_map
         set_pre_run_cell_vars].
    rewrite refreshed_disjoint.
    + reflexivity.
    + rewrite refreshed_dom.
      intros k [[Hk _]%elem_of_difference Hb]%elem_of_intersection.
      destruct (decide (k ∈ dom (_id_graph_map p))).
      * by apply elem_of_union_l.
      * apply elem_of_union_r, elem_of_intersection. split; [|done].
        by apply elem_of_difference.
    + intros k [_ Hk]%elem_of_difference. done.
  - unfold after_pre_run. simpl. apply map_subseteq_spec. intros k g Hk.
    rewrite refreshed_lookup.
    destruct (ns_vars (_user_ns p) !! k); [|done].
    rewrite decide_False; [done|].
    intros [_ Hn]%elem_of_difference. apply Hn. apply elem_of_dom. eauto.
  - intros k v Hk Hn Hv. unfold after_pre_run. simpl.
    rewrite refreshed_lookup, Hv. rewrite decide_True; [done|].
    by apply elem_of_difference.
Qed.

(** X8.  After a checkout the next pre-run hook builds the fingerprints
    anew: when the string deserializes, [replace_state] followed by
    [pre_run_cell_update] returns, and the dictionary then holds exactly
    the fingerprints of the values that the new namespace binds to names
    tracked by the new AHG.  No fingerprint from before the checkout is
    left. *)
Theorem checkout_then_pre_run p (new_ahg_string : string)
    (new_user_ns : Namespace V) (g : A) :
  deserialize new_ahg_string = inr g ->
  exists p',
    (replace_state new_ahg_string new_user_ns ;; pre_run_cell_update) p
    = Returned tt p'
    /\ _ahg p' = g /\ _user_ns p' = new_user_ns
    /\ _pre_run_cell_vars p' = keyset new_user_ns
    /\ _id_graph_map p'
       = get_object_state
           <$> filter (fun kv => kv.1 ∈ get_variable_names g)
                 (ns_vars new_user_ns).
Proof.
  intros Hg. eexists. split.
  { erewrite bind_returned; [apply pre_run_cell_update_returned|].
    unfold replace_state. erewrite bind_returned by (by rewrite Hg).
    reflexivity. }
  unfold after_pre_run. simpl. repeat split.
  unfold refreshed. rewrite map_union_empty, dom_empty_L.
  replace (get_variable_names g ∖ ∅) with (get_variable_names g); [done|].
  apply set_eq. intros k. rewrite elem_of_difference, elem_of_empty. tauto.
Qed.

(** X19.  When [post_run_cell_update] raises, it raises [KeyError] for a
    bound name without a fingerprint, and the cell is not recorded: the
    AHG is as it was.  The planner is not: the record of accesses has
    been reset, no fingerprint was removed, and the fingerprint of every
    name found modified by structure has been replaced by the new one,
    so that the modification is not found again. *)
Theorem failed_update_is_not_recorded p code runtime_s now e p' :
  post_run_cell_update code runtime_s now p = Raised e p' ->
  (exists k, e = KeyError k /\ k ∈ keyset (_user_ns p)
             /\ (k ∉ dom (_id_graph_map p')))
  /\ _ahg p' = _ahg p
  /\ ns_vars (_user_ns p') = ns_vars (_user_ns p)
  /\ accessed_vars (_user_ns p') = ∅
  /\ dom (_id_graph_map p) ⊆ dom (_id_graph_map p')
  /\ (forall k old v,
        _id_graph_map p !! k = Some old ->
        ns_vars (_user_ns p) !! k = Some v ->
        graph_eq old (get_object_state v) = false ->
        _id_graph_map p' !! k = Some (get_object_state v)).
Proof.
  intros Hrun.
  destruct (decide (pairs_fingerprinted p)) as [Hp|Hp].
  { rewrite (post_run_cell_update_returned p code runtime_s now Hp) in Hrun.
    discriminate. }
  destruct (post_run_cell_update_raised p code runtime_s now Hp)
    as (k & Hk & Hkd & Hraise).
  rewrite Hraise in Hrun. injection Hrun as <- <-.
  split; [by exists k|]. simpl. repeat (split; [done|]). split.
  - rewrite id_graph_map_after_dom. apply union_subseteq_l.
  - intros k' old v Hold Hv Hge. unfold id_graph_map_after.
    rewrite refreshed_lookup, Hv. rewrite decide_True; [done|].
    apply elem_of_union_l, elem_of_filter. split.
    + unfold structure_changed.
      rewrite (proj2 (compared_Some _ _ k' old (get_object_state v)))
        by eauto.
      by rewrite Hge.
    + apply elem_of_dom. eauto.
Qed.

Lemma run_cell_returned (c : CellRun V) p :
  all_fingerprinted p ->
  run_cell c p
  = Returned (changes_of (entering_post_run c p))
      (set_ahg (update_graph (_ahg p)
                  (update_graph_args_of (entering_post_run c p)
                     (cr_code c) (cr_runtime_s c) (cr_now c)))
         (after_changes (entering_post_run c p))).
Proof.
  intros Hall. rewrite run_cell_eq.
  rewrite post_run_cell_update_returned; [done|].
  apply fingerprints_present_pairs. unfold fingerprints_present.
  rewrite entering_post_run_dom.
  unfold entering_post_run, after_pre_run. simpl.
  intros k [_ Hk]%elem_of_intersection.
  apply elem_of_union. left. by apply Hall.
Qed.

(** X20.  In a session that starts with a fingerprint for every bound
    name the AHG is updated once per cell, in the order of the cells:
    the update for a cell is stamped with the clock reading of that
    cell, carries its code and the names bound after it, and is given as
    modified and deleted the sets reported for that cell. *)
Theorem session_updates_ahg_per_cell (cells : list (CellRun V)) p :
  all_fingerprinted p ->
  exists cvs argss p',
    run_cells cells p = Returned cvs p'
    /\ _ahg p' = foldl update_graph (_ahg p) argss
    /\ uga_version <$> argss = cr_now <$> cells
    /\ uga_cell <$> argss = cr_code <$> cells
    /\ uga_current_variables <$> argss
       = (fun c => keyset (cr_after c)) <$> cells
    /\ uga_modified_vars <$> argss = modified_vars_structure <$> cvs
    /\ uga_deleted_vars <$> argss = deleted_vars <$> cvs.
Proof.
  unfold run_cells. revert p.
  induction cells as [|c cells IH]; intros p Hall; simpl.
  - by exists [], [], p.
  - destruct (run_cell_fingerprinted c p Hall) as (cv & p1 & Hrun & Hall1).
    pose proof (run_cell_returned c p Hall) as Hrun'.
    rewrite Hrun in Hrun'. injection Hrun' as -> ->.
    erewrite bind_returned by exact Hrun.
    destruct (IH _ Hall1) as (cvs & argss & p2 & Hrest & Hahg & Hv & Hc & Hn & Hm & Hd).
    erewrite bind_returned by exact Hrest.
    exists (changes_of (entering_post_run c p) :: cvs),
           (update_graph_args_of (entering_post_run c p)
              (cr_code c) (cr_runtime_s c) (cr_now c) :: argss), p2.
    split; [done|]. split; [exact Hahg|].
    rewrite !fmap_cons, Hv, Hc, Hn, Hm, Hd. done.
Qed.
End hooks.
End HookFacts.

(** ** Plan generation *)

Module PlanFacts.
Import Planner PlannerFacts.
Section plans.
Context {V G A : Type} {ig : IdGraphOps V G} {ahg_ops : AHGOps A}.
Context {opt : OptimizerOps A} {st : StorageOps V}.
Implicit Types (p s : CheckpointRestorePlanner V G A).

Lemma names_loop_versioned (items : list item) : forall acc s,
  Forall has_name items ->
  fold_each items acc
    (fun name_list vs =>
       names ← getattr_name vs; mret (name_list ++ elements names)) s
  = Returned (acc ++ names_in items) s.
Proof.
  induction items as [|i items IH]; intros acc s Hall; simpl.
  - by rewrite app_nil_r.
  - apply Forall_cons in Hall as [Hi Hall]. destruct i as [|vn]; [done|].
    simpl. unfold mbind at 1, M_bind at 1. simpl.
    rewrite IH by done. by rewrite <- app_assoc.
Qed.

Lemma names_loop_frozenset (names : gset string) (items : list item) acc s :
  fold_each (FrozenSet names :: items) acc
    (fun name_list vs =>
       names ← getattr_name vs; mret (name_list ++ elements names)) s
  = Raised (AttributeError "name") s.
Proof. reflexivity. Qed.

Lemma prerequisites_loop (ce_dict : gmap Z CellExecution) (l : list Z) s :
  (forall n, n ∈ l -> is_Some (ce_dict !! n)) ->
  map_each l (fun n => ce' ← getitem KeyError_int ce_dict n; mret (n, cell ce')) s
  = Returned (omap (fun n => (fun ce' => (n, cell ce')) <$> ce_dict !! n) l) s.
Proof.
  induction l as [|n l IH]; intros Hl; simpl; [done|].
  destruct (Hl n ltac:(left)) as [ce' Hce].
  unfold mbind at 1, M_bind at 1. unfold mbind at 1, M_bind at 1.
  unfold getitem. rewrite Hce. simpl.
  erewrite bind_returned; cycle 1.
  { apply IH. intros n' Hn'. apply Hl. by right. }
  reflexivity.
Qed.

Lemma ce_dict_of_dom (ces : list CellExecution) :
  forall n, is_Some (ce_dict_of ces !! n) <-> exists ce, ce ∈ ces /\ cell_num ce = n.
Proof.
  unfold ce_dict_of.
  assert (forall (d : gmap Z CellExecution) n,
            is_Some (foldl (fun d ce => <[cell_num ce := ce]> d) d ces !! n)
            <-> is_Some (d !! n) \/ exists ce, ce ∈ ces /\ cell_num ce = n) as Hgen.
  { induction ces as [|c ces IH]; intros d n; simpl.
    - split; [by left|]. intros [?|(ce & ?%elem_of_nil & _)]; done.
    - rewrite IH. rewrite lookup_insert_is_Some'. split.
      + intros [[<-|?]|(ce & Hin & <-)].
        * right. exists c. split; [left|done].
        * by left.
        * right. exists ce. split; [by right|done].
      + intros [?|(ce & [->|Hin]%elem_of_cons & <-)].
        * left. by right.
        * left. by left.
        * right. by exists ce. }
  intros n. rewrite Hgen, lookup_empty. split.
  - intros [[? [=]]|?]; done.
  - by right.
Qed.

Lemma restore_actions_for_loadable ces_to_recompute ce_to_vs_map
    req_func_mapping (history : list CellExecution) plan ce s :
  loadable ce_to_vs_map req_func_mapping history ce ->
  restore_actions_for ces_to_recompute ce_to_vs_map req_func_mapping
    (ce_dict_of history) plan ce s
  = Returned
      (plan ++ actions_for ces_to_recompute ce_to_vs_map req_func_mapping
                 (ce_dict_of history) ce) s.
Proof.
  intros [Hnames Hreq]. unfold restore_actions_for, actions_for.
  set (plan1 := if bool_decide (cell_num ce ∈ ces_to_recompute)
                then add_rerun_cell_restore_action plan (cell_num ce) (cell ce)
                else plan).
  assert (plan1 = plan ++ (if bool_decide (cell_num ce ∈ ces_to_recompute)
                           then [rerun_of ce] else [])) as ->.
  { unfold plan1. destruct (bool_decide _); [done|by rewrite app_nil_r]. }
  destruct (defaultdict_getitem ce_to_vs_map (cell_num ce)) as [|i items] eqn:Hitems.
  - simpl. by rewrite app_nil_r.
  - rewrite bool_decide_eq_true_2 by (simpl; lia).
    destruct Hreq as (required & Hr & Hcells); [done|].
    erewrite bind_returned by (by apply names_loop_versioned).
    unfold mbind at 1, M_bind at 1, getitem at 1. rewrite Hr.
    unfold mret at 1, M_ret at 1.
    erewrite bind_returned; cycle 1.
    { apply prerequisites_loop. intros n Hn%elem_of_elements.
      apply ce_dict_of_dom. by apply Hcells. }
    unfold mret, M_ret, add_load_variable_restore_action. simpl.
    by rewrite <- app_assoc.
Qed.

Lemma generate_restore_plan_loadable ces_to_recompute ce_to_vs_map
    req_func_mapping p :
  (forall ce, ce ∈ get_cell_executions (_ahg p) ->
              loadable ce_to_vs_map req_func_mapping
                (get_cell_executions (_ahg p)) ce) ->
  _generate_restore_plan ces_to_recompute ce_to_vs_map req_func_mapping p
  = Returned
      (flat_map (actions_for ces_to_recompute ce_to_vs_map req_func_mapping
                   (ce_dict_of (get_cell_executions (_ahg p))))
         (get_cell_executions (_ahg p)))
      p.
Proof.
  intros Hall. unfold _generate_restore_plan.
  unfold mbind at 1, M_bind at 1, gets at 1.
  set (history := get_cell_executions (_ahg p)) in *.
  destruct (fold_each_rule
              (fun done acc s =>
                 s = p /\ acc = flat_map (actions_for ces_to_recompute ce_to_vs_map
                                             req_func_mapping (ce_dict_of history)) done)
              history
              (restore_actions_for ces_to_recompute ce_to_vs_map
                 req_func_mapping (ce_dict_of history))
              [] p) as (acc & s & -> & -> & ->); [done| |done].
  intros done ce rest acc s Hsplit [-> ->].
  eexists _, _. split.
  { apply restore_actions_for_loadable. apply Hall. rewrite Hsplit.
    apply elem_of_app. right. left. }
  split; [done|]. rewrite flat_map_app. simpl. by rewrite app_nil_r.
Qed.


(** Items that are [frozenset]s have no [name]: the first cell of the
    history that has items makes the method raise. *)
Lemma generate_restore_plan_frozenset ces_to_recompute
    (ce_to_vs_map : gmap Z (list item)) req_func_mapping p ce :
  (forall n i, i ∈ defaultdict_getitem ce_to_vs_map n ->
               exists names, i = FrozenSet names) ->
  ce ∈ get_cell_executions (_ahg p) ->
  defaultdict_getitem ce_to_vs_map (cell_num ce) <> [] ->
  _generate_restore_plan ces_to_recompute ce_to_vs_map req_func_mapping p
  = Raised (AttributeError "name") p.
Proof.
  intros Hfrozen Hce Hitems. unfold _generate_restore_plan.
  unfold mbind at 1, M_bind at 1, gets at 1.
  generalize (ce_dict_of (get_cell_executions (_ahg p))) as ce_dict.
  intros ce_dict. generalize (@nil RestoreAction) as plan.
  induction (get_cell_executions (_ahg p)) as [|c history IH]; intros plan;
    [by apply elem_of_nil in Hce|].
  simpl.
  destruct (defaultdict_getitem ce_to_vs_map (cell_num c)) as [|i items]
    eqn:Hc.
  - apply elem_of_cons in Hce as [->|Hce]; [done|].
    erewrite bind_returned; [by apply IH|].
    unfold restore_actions_for. rewrite Hc. reflexivity.
  - apply bind_raised. unfold restore_actions_for. rewrite Hc.
    rewrite bool_decide_eq_true_2 by (simpl; lia).
    destruct (Hfrozen (cell_num c) i) as [names ->].
    { rewrite Hc. left. }
    apply bind_raised. apply names_loop_frozenset.
Qed.

Lemma user_ns_getitem_None p k :
  ns_vars (_user_ns p) !! k = None ->
  user_ns_getitem k p = Raised (KeyError k) p.
Proof.
  intros Hk. unfold user_ns_getitem, mbind, M_bind, gets, getitem.
  by rewrite Hk.
Qed.

Lemma populated_empty p : populated ∅ p = p.
Proof.
  unfold populated.
  replace (∅ ∖ dom (_id_graph_map p)) with (∅ : gset string); cycle 1.
  { apply set_eq. intros k. rewrite elem_of_difference, elem_of_empty. tauto. }
  rewrite refreshed_empty. apply set_id_graph_map_same.
Qed.

Lemma populate_name_step p (D : gset string) (x : string) :
  x ∈ keyset (_user_ns p) ->
  (m ← gets _id_graph_map;
   if bool_decide (x ∉ dom m) then
     v ← user_ns_getitem x;
     id_graph_map_setitem x (get_object_state v)
   else mret tt) (populated D p)
  = Returned tt (populated (D ∪ {[x]}) p).
Proof.
  intros Hx. unfold keyset in Hx. apply elem_of_dom in Hx as [v Hv].
  unfold mbind at 1, M_bind at 1, gets at 1.
  cbn [populated _id_graph_map set_id_graph_map].
  rewrite refreshed_dom.
  set (m := _id_graph_map p). set (ns := _user_ns p).
  assert (x ∈ keyset ns) as Hb by (apply elem_of_dom; eauto).
  destruct (decide (x ∈ dom m ∪ (D ∖ dom m) ∩ keyset ns)) as [Hin|Hout].
  - rewrite bool_decide_eq_false_2 by tauto.
    unfold mret, M_ret. f_equal. unfold populated. fold m ns. f_equal. f_equal.
    apply set_eq. intros k.
    rewrite !elem_of_difference, elem_of_union, elem_of_singleton.
    apply elem_of_union in Hin as [Hin|[[? ?]%elem_of_difference _]%elem_of_intersection].
    + split; [tauto|]. intros [[?| ->] ?]; tauto.
    + split; [tauto|]. intros [[?| ->] ?]; tauto.
  - rewrite bool_decide_eq_true_2 by done.
    erewrite bind_returned; cycle 1.
    { apply user_ns_getitem_Some. simpl. exact Hv. }
    unfold id_graph_map_setitem, modify. f_equal.
    unfold populated. fold m ns.
    change (set_id_graph_map ?m1 (set_id_graph_map ?m2 ?q))
      with (set_id_graph_map m1 q).
    cbn [_id_graph_map set_id_graph_map].
    rewrite (refreshed_insert m ns _ x v Hv). f_equal. f_equal.
    apply set_eq. intros k.
    rewrite !elem_of_union, !elem_of_difference, elem_of_union, elem_of_singleton.
    assert (x ∉ dom m) as Hxm.
    { intros ?. apply Hout. by apply elem_of_union_l. }
    split; [intros [?| ->]; tauto|tauto].
Qed.

Lemma populate_names p (names : list string) : forall D : gset string,
  (forall x, x ∈ names -> x ∈ keyset (_user_ns p)) ->
  for_each names (fun varname =>
      m ← gets _id_graph_map;
      if bool_decide (varname ∉ dom m) then
        v ← user_ns_getitem varname;
        id_graph_map_setitem varname (get_object_state v)
      else mret tt) (populated D p)
  = Returned tt (populated (D ∪ list_to_set names) p).
Proof.
  induction names as [|x names IH]; intros D Hb; simpl.
  - by rewrite (right_id_L ∅ (∪)).
  - erewrite bind_returned; cycle 1.
    { apply populate_name_step. apply Hb. left. }
    rewrite IH; [|intros y Hy; apply Hb; by right].
    by rewrite (assoc_L (∪)).
Qed.

Lemma populate_id_graphs_closed p (l : list VariableSnapshot) :
  forall D : gset string,
  (forall vs, vs ∈ l -> vs_name vs ⊆ keyset (_user_ns p)) ->
  populate_id_graphs l (populated D p)
  = Returned tt (populated (D ∪ names_of l) p).
Proof.
  unfold populate_id_graphs, names_of.
  induction l as [|vs l IH]; intros D Hb; simpl.
  - by rewrite (right_id_L ∅ (∪)).
  - erewrite bind_returned; cycle 1.
    { apply populate_names. intros x Hx%elem_of_elements.
      by apply (Hb vs); [left|]. }
    rewrite list_to_set_elements_L.
    rewrite IH; [|intros vs' Hvs'; apply Hb; by right].
    by rewrite (assoc_L (∪)).
Qed.

Lemma getitems_outcome p (names : list string) :
  (exists values,
      map_each names user_ns_getitem p = Returned values p
      /\ Forall (fun x => x ∈ keyset (_user_ns p)) names)
  \/ (exists k,
        k ∈ names /\ (k ∉ keyset (_user_ns p))
        /\ map_each names user_ns_getitem p = Raised (KeyError k) p).
Proof.
  induction names as [|x names IH]; simpl.
  - left. exists []. by split.
  - destruct (ns_vars (_user_ns p) !! x) as [v|] eqn:Hv.
    + erewrite bind_returned by (by apply user_ns_getitem_Some).
      destruct IH as [(values & Hrun & Hall)|(k & Hk & Hn & Hrun)].
      * left. exists (v :: values). split.
        { by erewrite bind_returned by exact Hrun. }
        constructor; [|done]. apply elem_of_dom. eauto.
      * right. exists k. split; [by right|]. split; [done|].
        by apply bind_raised.
    + right. exists x. split; [left|]. split; [by apply not_elem_of_dom|].
      apply bind_raised. by apply user_ns_getitem_None.
Qed.

Lemma getitems_values p (names : list string) :
  Forall (fun x => x ∈ keyset (_user_ns p)) names ->
  map_each names user_ns_getitem p
  = Returned (omap (fun x => ns_vars (_user_ns p) !! x) names) p.
Proof.
  induction 1 as [|x names Hx _ IH]; simpl; [done|].
  unfold keyset in Hx. apply elem_of_dom in Hx as [v Hv].
  erewrite bind_returned by (by apply user_ns_getitem_Some).
  erewrite bind_returned by exact IH. simpl. by rewrite Hv.
Qed.

Lemma profile_sizes_closed (l : list VariableSnapshot) : forall p,
  (forall vs, vs ∈ l -> vs_name vs ⊆ keyset (_user_ns p)) ->
  profile_sizes l p = Returned (sized (_user_ns p) <$> l) (profiled l p).
Proof.
  unfold profile_sizes.
  induction l as [|vs l IH]; intros p Hb; simpl; [done|].
  erewrite bind_returned; cycle 1.
  { erewrite bind_returned; cycle 1.
    { apply getitems_values. apply Forall_forall. intros x Hx%elem_of_elements.
      by apply (Hb vs); [left|]. }
    reflexivity. }
  erewrite bind_returned; cycle 1.
  { apply IH. intros vs' Hvs'. apply Hb. by right. }
  reflexivity.
Qed.

Lemma profiled_frame (l : list VariableSnapshot) : forall p,
  _user_ns (profiled l p) = _user_ns p
  /\ _id_graph_map (profiled l p) = _id_graph_map p
  /\ _pre_run_cell_vars (profiled l p) = _pre_run_cell_vars p
  /\ _planner_context (profiled l p) = _planner_context p.
Proof.
  induction l as [|vs l IH]; intros p; simpl; [done|].
  destruct (IH (set_ahg (set_size (_ahg p) (vs_name vs)
                  (profile_variable_size (values_of (_user_ns p) vs))) p))
    as (-> & -> & -> & ->). done.
Qed.

Lemma profile_sizes_raises (l : list VariableSnapshot) : forall s vs x,
  vs ∈ l -> x ∈ vs_name vs -> x ∉ keyset (_user_ns s) ->
  exists k s', profile_sizes l s = Raised (KeyError k) s'
               /\ (k ∉ keyset (_user_ns s)).
Proof.
  unfold profile_sizes.
  induction l as [|a l IH]; intros s vs x Hvs Hx Hn; [by apply elem_of_nil in Hvs|].
  simpl.
  destruct (getitems_outcome s (elements (vs_name a)))
    as [(values & Hvals & Hall)|(k & Hk & Hkn & Hraise)].
  - apply elem_of_cons in Hvs as [->|Hvs].
    { exfalso. rewrite Forall_forall in Hall. apply Hn, Hall.
      by apply elem_of_elements. }
    set (s1 := set_ahg (set_size (_ahg s) (vs_name a)
                          (profile_variable_size values)) s).
    destruct (IH s1 vs x Hvs Hx Hn) as (k & s' & Hrun & Hk).
    exists k, s'. split; [|done].
    erewrite bind_returned; cycle 1.
    { erewrite bind_returned by exact Hvals. reflexivity. }
    apply bind_raised. exact Hrun.
  - exists k, s. split; [|done].
    apply bind_raised. apply bind_raised. exact Hraise.
Qed.

Lemma user_ns_getitem_outcome p s k :
  untouched p s ->
  match user_ns_getitem k s with
  | Returned _ s' => s' = s
  | Raised e _ => unbound_key p e
  end.
Proof.
  intros (Hns & _). unfold user_ns_getitem, mbind, M_bind, gets, getitem.
  destruct (ns_vars (_user_ns s) !! k) eqn:Hk; [done|].
  exists k. split; [done|]. rewrite <- Hns. by apply not_elem_of_dom.
Qed.

Lemma populate_id_graphs_outcome (l : list VariableSnapshot) p :
  match populate_id_graphs l p with
  | Returned _ s' => untouched p s'
  | Raised e _ => unbound_key p e
  end.
Proof.
  unfold populate_id_graphs.
  apply for_each_outcome; [done|]. intros vs s _ Hs.
  apply for_each_outcome; [done|]. intros x s1 _ Hs1.
  unfold mbind at 1, M_bind at 1, gets at 1.
  destruct (bool_decide (x ∉ dom (_id_graph_map s1))); [|done].
  unfold mbind, M_bind.
  pose proof (user_ns_getitem_outcome p s1 x Hs1) as Hget.
  destruct (user_ns_getitem x s1) as [v s2|e s2]; [|done].
  subst s2. exact Hs1.
Qed.

Lemma profile_sizes_outcome (l : list VariableSnapshot) p :
  match profile_sizes l p with
  | Returned _ s' => untouched p s'
  | Raised e _ => unbound_key p e
  end.
Proof.
  unfold profile_sizes.
  apply map_each_outcome; [done|]. intros vs s _ Hs.
  unfold mbind at 1, M_bind at 1.
  pose proof (map_each_outcome (fun s' => s' = s) (unbound_key p)
                (elements (vs_name vs)) user_ns_getitem s eq_refl) as Hvals.
  destruct (map_each (elements (vs_name vs)) user_ns_getitem s)
    as [values s1|e s1].
  - rewrite Hvals; [exact Hs|]. intros x s' _ ->.
    apply user_ns_getitem_outcome, Hs.
  - apply Hvals. intros x s' _ ->. apply user_ns_getitem_outcome, Hs.
Qed.

Lemma plan_migration_bound (database_path : string)
    (parent_commit_ids : option (list string)) p :
  let active := get_active_variable_snapshots (_ahg p) in
  let p2 := profiled active (populated (names_of active) p) in
  let vss := sized (_user_ns p) <$> active in
  (forall vs, vs ∈ active -> vs_name vs ⊆ keyset (_user_ns p)) ->
  plan_migration database_path parent_commit_ids p
  = if incremental_store (_planner_context p) then
      match get_stored_versioned_names database_path
              (default [] parent_commit_ids) with
      | inl e => Raised e p2
      | inr stored =>
          Returned (compute_plan (_ahg p2) (not_stored stored vss) (Some stored))
            p2
      end
    else Returned (compute_plan (_ahg p2) vss None) p2.
Proof.
  intros active p2 vss Hb. unfold plan_migration.
  unfold mbind at 1, M_bind at 1, gets at 1. fold active.
  erewrite bind_returned; cycle 1.
  { rewrite <- (populated_empty p) at 1.
    rewrite populate_id_graphs_closed by done.
    by rewrite (left_id_L ∅ (∪)). }
  erewrite bind_returned; cycle 1.
  { apply profile_sizes_closed. exact Hb. }
  cbn [populated _user_ns set_id_graph_map]. fold vss. fold p2.
  unfold mbind at 1, M_bind at 1, gets at 1.
  destruct (profiled_frame active (populated (names_of active) p))
    as (_ & _ & _ & Hctx).
  fold p2 in Hctx. rewrite Hctx. cbn [populated _planner_context set_id_graph_map].
  destruct (incremental_store (_planner_context p)); [|done].
  cbn zeta.
  destruct (get_stored_versioned_names database_path
              (default [] parent_commit_ids)) as [e|stored]; done.
Qed.

Lemma plan_migration_unbound (database_path : string)
    (parent_commit_ids : option (list string)) p vs x :
  vs ∈ get_active_variable_snapshots (_ahg p) ->
  x ∈ vs_name vs -> x ∉ keyset (_user_ns p) ->
  exists k p', plan_migration database_path parent_commit_ids p
               = Raised (KeyError k) p'
               /\ (k ∉ keyset (_user_ns p)).
Proof.
  intros Hvs Hx Hn. unfold plan_migration.
  unfold mbind at 1, M_bind at 1, gets at 1.
  pose proof (populate_id_graphs_outcome
                (get_active_variable_snapshots (_ahg p)) p) as Hpop.
  destruct (populate_id_graphs (get_active_variable_snapshots (_ahg p)) p)
    as [[] p1|e p1] eqn:Hrun.
  - destruct Hpop as (Hns & _).
    destruct (profile_sizes_raises (get_active_variable_snapshots (_ahg p))
                p1 vs x Hvs Hx) as (k & p' & Hprof & Hk).
    { by rewrite Hns. }
    exists k, p'. rewrite Hns in Hk. split; [|done].
    erewrite bind_returned by exact Hrun. by apply bind_raised.
  - destruct Hpop as (k & -> & Hk). exists k, p1. split; [|done].
    by apply bind_raised.
Qed.

Lemma bound_or_unbound p (l : list VariableSnapshot) :
  (forall vs, vs ∈ l -> vs_name vs ⊆ keyset (_user_ns p))
  \/ (exists vs x, vs ∈ l /\ x ∈ vs_name vs /\ (x ∉ keyset (_user_ns p))).
Proof.
  induction l as [|vs l [IH|(vs' & x & Hvs & Hx & Hn)]].
  - left. by intros vs ?%elem_of_nil.
  - destruct (decide (Forall (fun x => x ∈ keyset (_user_ns p))
                        (elements (vs_name vs)))) as [Hall|Hnot].
    + left. intros vs' [->|Hin]%elem_of_cons; [|by apply IH].
      intros x Hx%elem_of_elements. rewrite Forall_forall in Hall.
      by apply Hall.
    + right. apply not_Forall_Exists in Hnot; [|apply _].
      apply Exists_exists in Hnot as (x & Hx%elem_of_elements & Hn).
      exists vs, x. split; [left|done].
  - right. exists vs', x. split; [by right|done].
Qed.

(** X10.  [generate_checkpoint_restore_plans] looks up the value of every
    name of every active snapshot: when an active snapshot names a
    variable that the namespace does not bind, the method raises
    [KeyError] for a name that is not bound, whatever the store and the
    optimizer. *)
Theorem unbound_active_name_raises (database_path commit_id : string)
    (parent_commit_ids : option (list string)) p vs x :
  vs ∈ get_active_variable_snapshots (_ahg p) ->
  x ∈ vs_name vs -> x ∉ keyset (_user_ns p) ->
  exists k p',
    generate_checkpoint_restore_plans database_path commit_id
      parent_commit_ids p
    = Raised (KeyError k) p'
    /\ (k ∉ keyset (_user_ns p)).
Proof.
  intros Hvs Hx Hn.
  destruct (plan_migration_unbound database_path parent_commit_ids p vs x
              Hvs Hx Hn) as (k & p' & Hrun & Hk).
  exists k, p'. split; [|done].
  unfold generate_checkpoint_restore_plans. by apply bind_raised.
Qed.

(** X11.  In incremental-store mode an error of the store surfaces from
    [generate_checkpoint_restore_plans].  The planner is not as it was
    before the call: the fingerprints of the names of the active
    snapshots have been added to the dictionary (the entries found are
    kept); the namespace is unchanged. *)
Theorem store_error_surfaces (database_path commit_id : string)
    (parent_commit_ids : option (list string)) p (e : exn) :
  incremental_store (_planner_context p) = true ->
  (forall vs, vs ∈ get_active_variable_snapshots (_ahg p) ->
              vs_name vs ⊆ keyset (_user_ns p)) ->
  get_stored_versioned_names database_path (default [] parent_commit_ids)
  = inl e ->
  exists p',
    generate_checkpoint_restore_plans database_path commit_id
      parent_commit_ids p
    = Raised e p'
    /\ _user_ns p' = _user_ns p
    /\ _id_graph_map p ⊆ _id_graph_map p'
    /\ (forall vs, vs ∈ get_active_variable_snapshots (_ahg p) ->
                   vs_name vs ⊆ dom (_id_graph_map p')).
Proof.
  intros Hinc Hb He.
  pose proof (plan_migration_bound database_path parent_commit_ids p Hb)
    as Hrun.
  cbv zeta in Hrun. rewrite Hinc, He in Hrun.
  eexists. split.
  { unfold generate_checkpoint_restore_plans. apply bind_raised. exact Hrun. }
  set (active := get_active_variable_snapshots (_ahg p)).
  destruct (profiled_frame active (populated (names_of active) p))
    as (-> & -> & _).
  cbn [populated _user_ns _id_graph_map set_id_graph_map].
  split; [done|]. split.
  - apply map_subseteq_spec. intros k g Hk. rewrite refreshed_lookup.
    destruct (ns_vars (_user_ns p) !! k); [|done].
    rewrite decide_False; [done|].
    intros [_ Hd]%elem_of_difference. apply Hd. apply elem_of_dom. eauto.
  - intros vs Hvs x Hx. rewrite refreshed_dom.
    destruct (decide (x ∈ dom (_id_graph_map p))); [by apply elem_of_union_l|].
    apply elem_of_union_r, elem_of_intersection. split.
    + apply elem_of_difference. split; [|done].
      unfold names_of. apply elem_of_union_list. exists (vs_name vs).
      split; [|done]. apply list_elem_of_fmap. eauto.
    + by apply (Hb vs).
Qed.

Lemma plan_migration_returned_bound (database_path : string)
    (parent_commit_ids : option (list string)) p plan p' :
  plan_migration database_path parent_commit_ids p = Returned plan p' ->
  forall vs, vs ∈ get_active_variable_snapshots (_ahg p) ->
             vs_name vs ⊆ keyset (_user_ns p).
Proof.
  intros Hrun.
  destruct (bound_or_unbound p (get_active_variable_snapshots (_ahg p)))
    as [Hb|(vs & x & Hvs & Hx & Hn)]; [done|].
  destruct (plan_migration_unbound database_path parent_commit_ids p vs x
              Hvs Hx Hn) as (k & p1 & Hraise & _).
  congruence.
Qed.

Lemma plan_migration_state (database_path : string)
    (parent_commit_ids : option (list string)) p plan p' :
  plan_migration database_path parent_commit_ids p = Returned plan p' ->
  p' = profiled (get_active_variable_snapshots (_ahg p))
         (populated (names_of (get_active_variable_snapshots (_ahg p))) p).
Proof.
  intros Hrun.
  pose proof (plan_migration_returned_bound _ _ _ _ _ Hrun) as Hb.
  rewrite (plan_migration_bound database_path parent_commit_ids p Hb) in Hrun.
  cbv zeta in Hrun.
  destruct (incremental_store (_planner_context p)).
  - destruct (get_stored_versioned_names database_path
                (default [] parent_commit_ids)); congruence.
  - congruence.
Qed.

(** X12.  When lines 153-185 of [generate_checkpoint_restore_plans]
    return, every name of every active snapshot is bound and has a
    fingerprint.  The entries found are kept, and an entry that was added
    is the fingerprint of the value the name is bound to.  The
    namespace, the names recorded before the cell and the configuration
    are left as they were. *)
Theorem plan_migration_fingerprints (database_path : string)
    (parent_commit_ids : option (list string)) p plan p' :
  plan_migration database_path parent_commit_ids p = Returned plan p' ->
  _user_ns p' = _user_ns p
  /\ _pre_run_cell_vars p' = _pre_run_cell_vars p
  /\ _planner_context p' = _planner_context p
  /\ _id_graph_map p ⊆ _id_graph_map p'
  /\ (forall vs, vs ∈ get_active_variable_snapshots (_ahg p) ->
                 vs_name vs ⊆ keyset (_user_ns p)
                 /\ vs_name vs ⊆ dom (_id_graph_map p'))
  /\ (forall k g, _id_graph_map p' !! k = Some g ->
                  _id_graph_map p !! k = Some g
                  \/ (_id_graph_map p !! k = None
                      /\ exists v, ns_vars (_user_ns p) !! k = Some v
                                   /\ g = get_object_state v)).
Proof.
  intros Hrun.
  pose proof (plan_migration_returned_bound _ _ _ _ _ Hrun) as Hb.
  apply plan_migration_state in Hrun as ->.
  set (active := get_active_variable_snapshots (_ahg p)) in *.
  destruct (profiled_frame active (populated (names_of active) p))
    as (-> & -> & -> & ->).
  cbn [populated _user_ns _id_graph_map _pre_run_cell_vars _planner_context
       set_id_graph_map].
  repeat (split; [done|]). split; [|split].
  - apply map_subseteq_spec. intros k g Hk. rewrite refreshed_lookup.
    destruct (ns_vars (_user_ns p) !! k); [|done].
    rewrite decide_False; [done|].
    intros [_ Hd]%elem_of_difference. apply Hd. apply elem_of_dom. eauto.
  - intros vs Hvs. split; [by apply Hb|].
    intros x Hx. rewrite refreshed_dom.
    destruct (decide (x ∈ dom (_id_graph_map p))); [by apply elem_of_union_l|].
    apply elem_of_union_r, elem_of_intersection. split.
    + apply elem_of_difference. split; [|done].
      unfold names_of. apply elem_of_union_list. exists (vs_name vs).
      split; [|done]. apply list_elem_of_fmap. eauto.
    + by apply (Hb vs).
  - intros k g. rewrite refreshed_lookup.
    destruct (ns_vars (_user_ns p) !! k) as [v|] eqn:Hv; [|by left].
    destruct (decide (k ∈ names_of active ∖ dom (_id_graph_map p)))
      as [[_ Hd]%elem_of_difference|]; [|by left].
    intros [= <-]. right. split; [by apply not_elem_of_dom|]. eauto.
Qed.

(** X13.  What the optimizer is asked.  Outside incremental-store mode it
    is given every active snapshot, with the size profiled for it, and
    [None] for the stored names.  In incremental-store mode the store
    was read, and the optimizer is given the stored names and, of the
    active snapshots with their sizes, those whose versioned name is not
    stored. *)
Theorem optimizer_candidates (database_path : string)
    (parent_commit_ids : option (list string)) p plan p' :
  plan_migration database_path parent_commit_ids p = Returned plan p' ->
  exists candidates already_stored,
    plan = compute_plan (_ahg p') candidates already_stored
    /\ (incremental_store (_planner_context p) = false ->
        already_stored = None
        /\ candidates
           = sized (_user_ns p) <$> get_active_variable_snapshots (_ahg p))
    /\ (incremental_store (_planner_context p) = true ->
        exists stored,
          get_stored_versioned_names database_path
            (default [] parent_commit_ids) = inr stored
          /\ already_stored = Some stored
          /\ candidates
             = filter (fun vs => versioned_name vs ∉ stored)
                 (sized (_user_ns p)
                    <$> get_active_variable_snapshots (_ahg p))).
Proof.
  intros Hrun.
  pose proof (plan_migration_returned_bound _ _ _ _ _ Hrun) as Hb.
  rewrite (plan_migration_bound database_path parent_commit_ids p Hb) in Hrun.
  cbv zeta in Hrun.
  destruct (incremental_store (_planner_context p)).
  - destruct (get_stored_versioned_names database_path
                (default [] parent_commit_ids)) as [e|stored]; [done|].
    injection Hrun as <- <-. eexists _, _. split; [done|].
    split; [done|]. intros _. by exists stored.
  - injection Hrun as <- <-. eexists _, _. split; [done|]. by split.
Qed.

Lemma generate_restore_plan_reruns (ces_to_recompute : gset Z)
    (ce_to_vs_map : gmap Z (list item)) (req_func_mapping : gmap Z (gset Z)) p :
  (forall ce, ce ∈ get_cell_executions (_ahg p) ->
              defaultdict_getitem ce_to_vs_map (cell_num ce) = []) ->
  _generate_restore_plan ces_to_recompute ce_to_vs_map req_func_mapping p
  = Returned
      (rerun_of <$> filter (fun ce => cell_num ce ∈ ces_to_recompute)
                      (get_cell_executions (_ahg p)))
      p.
Proof.
  intros Hempty. unfold _generate_restore_plan.
  unfold mbind at 1, M_bind at 1, gets at 1.
  destruct (fold_each_rule
              (fun done acc s =>
                 s = p /\ acc = rerun_of <$> filter (fun ce => cell_num ce ∈ ces_to_recompute) done)
              (get_cell_executions (_ahg p))
              (restore_actions_for ces_to_recompute ce_to_vs_map
                 req_func_mapping (ce_dict_of (get_cell_executions (_ahg p))))
              [] p) as (acc & s & -> & -> & ->); [done| |done].
  intros done ce rest acc s Hsplit [-> ->].
  assert (ce ∈ get_cell_executions (_ahg p)) as Hin.
  { rewrite Hsplit. apply elem_of_app. right. left. }
  unfold restore_actions_for. rewrite (Hempty ce Hin). simpl.
  eexists _, _. split; [reflexivity|]. split; [done|].
  rewrite filter_app, fmap_app. f_equal.
  rewrite filter_cons, filter_nil.
  unfold add_rerun_cell_restore_action.
  destruct (decide (cell_num ce ∈ ces_to_recompute)) as [Hc|Hc].
  - rewrite bool_decide_eq_true_2 by done. done.
  - rewrite bool_decide_eq_false_2 by done. simpl. by rewrite app_nil_r.
Qed.

(** X14.  When the optimizer migrates nothing,
    [generate_checkpoint_restore_plans] returns a checkpoint plan without
    a name (without a snapshot, in incremental-store mode) and a restore
    plan that reruns the cells to recompute, in the order of the
    history, and loads nothing. *)
Theorem nothing_to_migrate (database_path commit_id : string)
    (parent_commit_ids : option (list string)) p
    (ces_to_recompute : gset Z) (req_func_mapping : gmap Z (gset Z)) p1 :
  plan_migration database_path parent_commit_ids p
  = Returned (∅, ces_to_recompute, req_func_mapping) p1 ->
  generate_checkpoint_restore_plans database_path commit_id
    parent_commit_ids p
  = Returned
      (if incremental_store (_planner_context p)
       then IncrementalCheckpointPlan_create database_path commit_id []
       else CheckpointPlan_create database_path commit_id [],
       rerun_of <$> filter (fun ce => cell_num ce ∈ ces_to_recompute)
                      (get_cell_executions (_ahg p1)))
      p1.
Proof.
  intros Hrun.
  assert (_planner_context p1 = _planner_context p) as Hctx.
  { pose proof Hrun as ->%plan_migration_state.
    by destruct (profiled_frame (get_active_variable_snapshots (_ahg p))
                   (populated (names_of (get_active_variable_snapshots (_ahg p))) p))
      as (_ & _ & _ & ->). }
  unfold generate_checkpoint_restore_plans.
  erewrite bind_returned by exact Hrun. cbn beta iota.
  unfold mbind at 1, M_bind at 1, gets at 1.
  unfold mbind at 1, M_bind at 1, gets at 1.
  unfold build_ce_to_vs_map. rewrite elements_empty. cbn [fold_each].
  unfold mbind at 1, M_bind at 1, mret at 1, M_ret at 1.
  rewrite Hctx.
  destruct (incremental_store (_planner_context p)); cbn [map_each flat_map].
  - unfold mbind at 1, M_bind at 1. unfold mbind at 1, M_bind at 1.
    unfold mret at 1, M_ret at 1. unfold mret at 1, M_ret at 1.
    erewrite bind_returned; cycle 1.
    { apply generate_restore_plan_reruns. intros ce _.
      unfold defaultdict_getitem. by rewrite lookup_empty. }
    done.
  - unfold mbind at 1, M_bind at 1, mret at 1, M_ret at 1.
    erewrite bind_returned; cycle 1.
    { apply generate_restore_plan_reruns. intros ce _.
      unfold defaultdict_getitem. by rewrite lookup_empty. }
    done.
Qed.

Lemma build_ce_to_vs_map_step (ahg : A) (vn : VersionedName)
    (m : gmap Z (list item)) p :
  (fun ce_to_vs_map vs_name =>
     vs ← getitem KeyError_names (get_active_variable_snapshots_dict ahg)
            (vn_name vs_name);
     let n := vs_output_ce vs in
     mret (<[n := defaultdict_getitem ce_to_vs_map n
                   ++ [FrozenSet (vn_name vs_name)]]> ce_to_vs_map)) m vn p
  = match get_active_variable_snapshots_dict ahg !! vn_name vn with
    | Some vs =>
        Returned (<[vs_output_ce vs :=
                      defaultdict_getitem m (vs_output_ce vs)
                      ++ [FrozenSet (vn_name vn)]]> m) p
    | None => Raised (KeyError_names (vn_name vn)) p
    end.
Proof.
  unfold mbind, M_bind, getitem.
  by destruct (get_active_variable_snapshots_dict ahg !! vn_name vn).
Qed.

Lemma filed_insert (ahg : A) (done : list VersionedName)
    (vn : VersionedName) (vs : VariableSnapshot) (m : gmap Z (list item)) n :
  get_active_variable_snapshots_dict ahg !! vn_name vn = Some vs ->
  (forall n, defaultdict_getitem m n = filed ahg done n) ->
  defaultdict_getitem
    (<[vs_output_ce vs := defaultdict_getitem m (vs_output_ce vs)
                          ++ [FrozenSet (vn_name vn)]]> m) n
  = filed ahg (done ++ [vn]) n.
Proof.
  intros Hvs Hm.
  assert (output_cell ahg vn = Some (vs_output_ce vs)) as Hout.
  { unfold output_cell. by rewrite Hvs. }
  unfold filed. rewrite filter_app, fmap_app, filter_cons, filter_nil.
  fold (filed ahg done n). rewrite <- Hm.
  unfold defaultdict_getitem at 1.
  destruct (decide (vs_output_ce vs = n)) as [<-|Hne].
  - rewrite lookup_insert_eq. simpl. by rewrite decide_True.
  - rewrite lookup_insert_ne by done.
    rewrite decide_False by congruence. simpl. by rewrite app_nil_r.
Qed.

Lemma build_loop (ahg : A) (vns : list VersionedName) p :
  forall (done : list VersionedName) (m : gmap Z (list item)),
    (forall n, defaultdict_getitem m n = filed ahg done n) ->
    match fold_each vns m
            (fun ce_to_vs_map vs_name =>
               vs ← getitem KeyError_names
                      (get_active_variable_snapshots_dict ahg)
                      (vn_name vs_name);
               let n := vs_output_ce vs in
               mret (<[n := defaultdict_getitem ce_to_vs_map n
                             ++ [FrozenSet (vn_name vs_name)]]> ce_to_vs_map))
            p with
    | Returned m' p' =>
        p' = p
        /\ (forall vn, vn ∈ vns -> is_Some (output_cell ahg vn))
        /\ forall n, defaultdict_getitem m' n = filed ahg (done ++ vns) n
    | Raised e p' =>
        p' = p
        /\ exists vn, vn ∈ vns /\ output_cell ahg vn = None
                      /\ e = KeyError_names (vn_name vn)
    end.
Proof.
  induction vns as [|vn vns IH]; intros done m Hm.
  - simpl. split; [done|]. split; [by intros vn ?%elem_of_nil|].
    intros n. by rewrite app_nil_r.
  - cbn [fold_each]. unfold mbind at 1, M_bind at 1.
    rewrite build_ce_to_vs_map_step.
    destruct (get_active_variable_snapshots_dict ahg !! vn_name vn)
      as [vs|] eqn:Hvs.
    + specialize (IH (done ++ [vn])
                    (<[vs_output_ce vs :=
                         defaultdict_getitem m (vs_output_ce vs)
                         ++ [FrozenSet (vn_name vn)]]> m)).
      rewrite <- app_assoc in IH. simpl in IH.
      match goal with
      | |- match ?o with _ => _ end =>
          destruct o as [m' p'|e p'] eqn:Hrun
      end.
      * destruct IH as (-> & Hall & Hfiled).
        { intros n. by apply filed_insert. }
        split; [done|]. split; [|done].
        intros vn' [->|Hin]%elem_of_cons; [|by apply Hall].
        unfold output_cell. rewrite Hvs. by eexists.
      * destruct IH as (-> & vn' & Hin & Hnone & ->).
        { intros n. by apply filed_insert. }
        split; [done|]. exists vn'. split; [by right|]. by split.
    + split; [done|]. exists vn. split; [left|].
      unfold output_cell. by rewrite Hvs.
Qed.

(** X21.  Lines 187-190 file every migrated snapshot once, under the cell
    that produced the active snapshot of its names: when the loop
    returns, the planner is as it was, every migrated name set is an
    active group, and the list filed under a cell holds the [frozenset]
    of names of exactly the migrated snapshots whose active snapshot
    that cell produced, in the order of iteration.  When a migrated name
    set is no active group the loop raises [KeyError] for it. *)
Theorem ce_to_vs_map_groups_by_output_cell (ahg : A)
    (vss_to_migrate : gset VersionedName) p :
  match build_ce_to_vs_map ahg vss_to_migrate p with
  | Returned ce_to_vs_map p' =>
      p' = p
      /\ (forall vn, vn ∈ vss_to_migrate ->
            is_Some (get_active_variable_snapshots_dict ahg !! vn_name vn))
      /\ (forall n, defaultdict_getitem ce_to_vs_map n
                    = filed ahg (elements vss_to_migrate) n)
  | Raised e p' =>
      p' = p
      /\ exists vn, vn ∈ vss_to_migrate
                    /\ get_active_variable_snapshots_dict ahg !! vn_name vn
                       = None
                    /\ e = KeyError_names (vn_name vn)
  end.
Proof.
  unfold build_ce_to_vs_map.
  pose proof (build_loop ahg (elements vss_to_migrate) p [] ∅) as H.
  match goal with
  | |- match ?o with _ => _ end => destruct o as [m' p'|e p'] eqn:Hrun
  end.
  - destruct H as (-> & Hall & Hfiled).
    { intros n. unfold defaultdict_getitem. by rewrite lookup_empty. }
    split; [done|]. split; [|done].
    intros vn Hvn%elem_of_elements. destruct (Hall vn Hvn) as [n Hn].
    unfold output_cell in Hn.
    destruct (get_active_variable_snapshots_dict ahg !! vn_name vn); [by eexists|done].
  - destruct H as (-> & vn & Hin%elem_of_elements & Hnone & ->).
    { intros n. unfold defaultdict_getitem. by rewrite lookup_empty. }
    split; [done|]. exists vn. split; [done|]. split; [|done].
    unfold output_cell in Hnone.
    by destruct (get_active_variable_snapshots_dict ahg !! vn_name vn).
Qed.
Lemma build_ce_to_vs_map_returned (ahg : A) (vss_to_migrate : gset VersionedName) p :
  (forall vn, vn ∈ vss_to_migrate ->
              is_Some (get_active_variable_snapshots_dict ahg !! vn_name vn)) ->
  exists m,
    build_ce_to_vs_map ahg vss_to_migrate p = Returned m p
    /\ (forall n i, i ∈ defaultdict_getitem m n ->
                    exists names, i = FrozenSet names)
    /\ (forall vn vs, vn ∈ vss_to_migrate ->
                      get_active_variable_snapshots_dict ahg !! vn_name vn = Some vs ->
                      FrozenSet (vn_name vn)
                        ∈ defaultdict_getitem m (vs_output_ce vs)).
Proof.
  intros Hdict. unfold build_ce_to_vs_map.
  match goal with |- context [fold_each _ _ ?b] => set (body := b) end.
  destruct (fold_each_rule
    (fun done (m : gmap Z (list item)) s =>
       s = p
       /\ (forall n i, i ∈ defaultdict_getitem m n -> exists names, i = FrozenSet names)
       /\ (forall vn vs, vn ∈ done ->
             get_active_variable_snapshots_dict ahg !! vn_name vn = Some vs ->
             FrozenSet (vn_name vn) ∈ defaultdict_getitem m (vs_output_ce vs)))
    (elements vss_to_migrate) body ∅ p) as (m & s & Hrun & -> & Hfrozen & Hin).
  - split; [done|]. split.
    + intros n i Hi. unfold defaultdict_getitem in Hi.
      rewrite lookup_empty in Hi. by apply elem_of_nil in Hi.
    + by intros vn vs ?%elem_of_nil.
  - intros done vn rest m s Hsplit (-> & Hfrozen & Hin).
    destruct (Hdict vn) as [vs Hvs].
    { apply elem_of_elements. rewrite Hsplit. apply elem_of_app. right. left. }
    unfold body. unfold mbind, M_bind, getitem. rewrite Hvs.
    eexists _, _. split; [reflexivity|]. split; [done|]. split.
    + intros n i Hi. unfold defaultdict_getitem in Hi.
      destruct (decide (vs_output_ce vs = n)) as [<-|Hne].
      * rewrite lookup_insert_eq in Hi. simpl in Hi.
        apply elem_of_app in Hi as [Hi|Hi%list_elem_of_singleton]; [|by eauto].
        by apply (Hfrozen (vs_output_ce vs)).
      * rewrite lookup_insert_ne in Hi by done. by apply (Hfrozen n).
    + intros vn' vs' [Hd|Hd%list_elem_of_singleton]%elem_of_app Hvs';
        [|subst vn'].
      * specialize (Hin vn' vs' Hd Hvs'). unfold defaultdict_getitem in *.
        destruct (decide (vs_output_ce vs = vs_output_ce vs')) as [Heq|Hne].
        -- rewrite Heq, lookup_insert_eq. simpl. apply elem_of_app. by left.
        -- by rewrite lookup_insert_ne.
      * rewrite Hvs in Hvs'. injection Hvs' as <-.
        unfold defaultdict_getitem. rewrite lookup_insert_eq. simpl.
        apply elem_of_app. right. left.
  - exists m. split; [exact Hrun|]. split; [done|].
    intros vn vs Hvn. apply Hin. by apply elem_of_elements.
Qed.

Lemma lookups_returned (ahg : A) (l : list VersionedName) p :
  (forall vn, vn ∈ l ->
              is_Some (get_active_variable_snapshots_dict ahg !! vn_name vn)) ->
  exists vss,
    map_each l (fun vn => getitem KeyError_names
                            (get_active_variable_snapshots_dict ahg) (vn_name vn)) p
    = Returned vss p.
Proof.
  intros Hl.
  destruct (map_each_rule (fun s => s = p) l
              (fun vn => getitem KeyError_names
                           (get_active_variable_snapshots_dict ahg) (vn_name vn)) p)
    as (vss & s & Hrun & ->); [done| |by eauto].
  intros vn s Hvn ->. destruct (Hl vn Hvn) as [vs Hvs].
  exists vs, p. split; [|done]. unfold getitem. by rewrite Hvs.
Qed.

(** X15.  When the optimizer migrates a snapshot of an active group
    whose output cell is in the history,
    [generate_checkpoint_restore_plans] raises [AttributeError]: line 190
    files the [frozenset] of names of each migrated snapshot, and line
    241 asks the items filed for their [name]. *)
Theorem migration_raises_attribute_error (database_path commit_id : string)
    (parent_commit_ids : option (list string)) p
    (vss_to_migrate : gset VersionedName) (ces_to_recompute : gset Z)
    (req_func_mapping : gmap Z (gset Z)) p1 vn vs ce :
  plan_migration database_path parent_commit_ids p
  = Returned (vss_to_migrate, ces_to_recompute, req_func_mapping) p1 ->
  (forall vn', vn' ∈ vss_to_migrate ->
               is_Some (get_active_variable_snapshots_dict (_ahg p1)
                          !! vn_name vn')) ->
  vn ∈ vss_to_migrate ->
  get_active_variable_snapshots_dict (_ahg p1) !! vn_name vn = Some vs ->
  ce ∈ get_cell_executions (_ahg p1) -> cell_num ce = vs_output_ce vs ->
  generate_checkpoint_restore_plans database_path commit_id
    parent_commit_ids p
  = Raised (AttributeError "name") p1.
Proof.
  intros Hrun Hdict Hvn Hvs Hce Hnum.
  unfold generate_checkpoint_restore_plans.
  erewrite bind_returned by exact Hrun. cbn beta iota.
  rewrite !gets_bind.
  destruct (build_ce_to_vs_map_returned (_ahg p1) vss_to_migrate p1 Hdict)
    as (m & Hbuild & Hfrozen & Hin).
  erewrite bind_returned by exact Hbuild.
  assert (exists cp,
            (if incremental_store (_planner_context p1)
             then
               vss ← map_each (elements vss_to_migrate)
                      (fun vn => getitem KeyError_names
                         (get_active_variable_snapshots_dict (_ahg p1)) (vn_name vn));
               mret (IncrementalCheckpointPlan_create database_path commit_id vss)
             else
               mret (CheckpointPlan_create database_path commit_id
                       (flat_map (fun vs => elements (vn_name vs))
                          (elements vss_to_migrate)))) p1
            = Returned cp p1) as (cp & Hcp).
  { destruct (incremental_store (_planner_context p1)); [|by eexists].
    destruct (lookups_returned (_ahg p1) (elements vss_to_migrate) p1)
      as (vss & Hvss).
    { intros vn' Hvn'%elem_of_elements. by apply Hdict. }
    eexists. by erewrite bind_returned by exact Hvss. }
  erewrite bind_returned by exact Hcp.
  apply bind_raised.
  apply (generate_restore_plan_frozenset _ _ _ _ ce); [exact Hfrozen|exact Hce|].
  rewrite Hnum. intros Hnil. specialize (Hin vn vs Hvn Hvs).
  rewrite Hnil in Hin. by apply elem_of_nil in Hin.
Qed.

End plans.

Section store.
Context {V G A : Type} {ig : IdGraphOps V G} {ahg_ops : AHGOps A}.
Context {opt : OptimizerOps A}.
Implicit Types (p s : CheckpointRestorePlanner V G A).

(** X16.  Outside incremental-store mode the store is not read: the
    outcome of [generate_checkpoint_restore_plans] is the same for any
    two stores, also for one that fails. *)
Theorem non_incremental_ignores_store (size : list V -> Z)
    (store1 store2 : string -> list string -> exn + gset VersionedName)
    (database_path commit_id : string)
    (parent_commit_ids : option (list string)) p :
  incremental_store (_planner_context p) = false ->
  generate_checkpoint_restore_plans (st := Build_StorageOps V size store1)
    database_path commit_id parent_commit_ids p
  = generate_checkpoint_restore_plans (st := Build_StorageOps V size store2)
      database_path commit_id parent_commit_ids p.
Proof.
  intros Hinc.
  assert (plan_migration (st := Build_StorageOps V size store1)
            database_path parent_commit_ids p
          = plan_migration (st := Build_StorageOps V size store2)
              database_path parent_commit_ids p) as Hpm.
  { unfold plan_migration. rewrite !gets_bind.
    apply bind_ext_on. intros [] p1 Hpop.
    apply bind_ext_on. intros vss p2 Hprof.
    pose proof (populate_id_graphs_outcome
                  (get_active_variable_snapshots (_ahg p)) p) as H1.
    rewrite Hpop in H1. destruct H1 as (_ & Hctx1 & _).
    pose proof (profile_sizes_outcome (st := Build_StorageOps V size store1)
                  (get_active_variable_snapshots (_ahg p)) p1) as H2.
    match type of Hprof with
    | ?t = _ =>
        change (match t with
                | Returned _ s' => untouched p1 s'
                | Raised e _ => unbound_key p1 e
                end) in H2
    end.
    rewrite Hprof in H2. destruct H2 as (_ & Hctx2 & _).
    rewrite !gets_bind.
    by rewrite Hctx2, Hctx1, Hinc. }
  unfold generate_checkpoint_restore_plans, mbind, M_bind.
  by rewrite Hpm.
Qed.

End store.
End PlanFacts.

(** ** The command line *)

Module CliFacts.
Import Cli.

Lemma from_argv_parse {T} (parse : list string -> T) (argv : list string) :
  from_argv parse argv = parse (from_argv id argv).
Proof. reflexivity. Qed.

Lemma from_argv_cases (argv : list string) :
  ((argv = [] \/ "--command" ∈ argv \/ "--help" ∈ argv \/ "-h" ∈ argv)
   /\ from_argv id argv = argv)
  \/ (argv <> [] /\ ("--command" ∉ argv) /\ ("--help" ∉ argv) /\ ("-h" ∉ argv)
      /\ from_argv id argv = "--command" :: argv).
Proof.
  unfold from_argv.
  destruct (bool_decide (1 <= length argv)%nat
            && bool_decide ("--command" ∉ argv)
            && bool_decide ("--help" ∉ argv)
            && bool_decide ("-h" ∉ argv)) eqn:Hb.
  - right.
    apply andb_true_iff in Hb as [Hb Hs%bool_decide_eq_true].
    apply andb_true_iff in Hb as [Hb Hh%bool_decide_eq_true].
    apply andb_true_iff in Hb as [Hl%bool_decide_eq_true Hc%bool_decide_eq_true].
    repeat split; try done. intros ->. simpl in Hl. lia.
  - left. split; [|done].
    destruct argv as [|a argv]; [by left|]. right.
    destruct (decide ("--command" ∈ a :: argv)); [by left|]. right.
    destruct (decide ("--help" ∈ a :: argv)); [by left|]. right.
    destruct (decide ("-h" ∈ a :: argv)); [done|]. exfalso.
    rewrite !bool_decide_eq_true_2 in Hb; [done..|simpl; lia].
Qed.

(** X17.  [from_argv] takes the first argument as the command: a command
    line that is not empty and has none of [--command], [--help] and
    [-h] is parsed as if [--command] came first; an empty command line,
    and one with any of the three, is parsed as it is.  Rewriting a
    command line a second time changes nothing, and the command line
    handed to the parser is empty or has one of the three flags. *)
Theorem from_argv_command_shorthand {T} (parse : list string -> T)
    (argv : list string) :
  (argv <> [] /\ ("--command" ∉ argv) /\ ("--help" ∉ argv) /\ ("-h" ∉ argv)
   -> from_argv parse argv = parse ("--command" :: argv))
  /\ (argv = [] \/ "--command" ∈ argv \/ "--help" ∈ argv \/ "-h" ∈ argv
      -> from_argv parse argv = parse argv)
  /\ from_argv parse (from_argv id argv) = from_argv parse argv
  /\ (from_argv id argv = []
      \/ "--command" ∈ from_argv id argv
      \/ "--help" ∈ from_argv id argv
      \/ "-h" ∈ from_argv id argv).
Proof.
  rewrite !(from_argv_parse parse).
  destruct (from_argv_cases argv) as [[Hflag Heq]|(Hne & Hc & Hh & Hs & Heq)].
  - split; [|split; [|split]].
    + intros (Hne & Hc & Hh & Hs). destruct Hflag as [?|[?|[?|?]]]; done.
    + intros _. by rewrite Heq.
    + by rewrite !Heq.
    + rewrite Heq. destruct Hflag as [?|[?|[?|?]]]; auto.
  - split; [|split; [|split]].
    + intros _. by rewrite Heq.
    + intros [?|[?|[?|?]]]; done.
    + rewrite Heq.
      destruct (from_argv_cases ("--command" :: argv))
        as [[_ Heq']|(_ & Hc' & _)]; [by rewrite Heq'|].
      exfalso. apply Hc'. left.
    + rewrite Heq. right. left. left.
Qed.

Import KishuCLI.

(** X18.  [exec] finds a handler for every command.  Every command but
    [help] requires a notebook id and fails its first assertion, with
    the message that starts with the name of the command, when there is
    none.  When [exec] gets as far as a call of [KishuCommand], the call
    is the one of the command given, on the notebook id given and on the
    commit id or branch name the command requires; [branch] passes the
    commit id on as it is, given or not.  [help] prints the names of the
    six commands in the order of the enumeration. *)
Theorem exec_checks_required_arguments (args : KishuCLIArguments) :
  (forall c, exec args <> inl (CommandKeyError c))
  /\ (command args <> Command.help -> notebook_id args = None ->
      exec args
      = inl (AssertionError
               (Command.value (command args) +:+ " requires notebook_id.")))
  /\ (forall call, exec args = inr (PrintJson call) ->
        command args <> Command.help
        /\ match call with
           | KishuCommand_log nb cid =>
               command args = Command.log
               /\ notebook_id args = Some nb /\ commit_id args = Some cid
           | KishuCommand_log_all nb =>
               command args = Command.log_all /\ notebook_id args = Some nb
           | KishuCommand_status nb cid =>
               command args = Command.status
               /\ notebook_id args = Some nb /\ commit_id args = Some cid
           | KishuCommand_checkout nb cid =>
               command args = Command.checkout
               /\ notebook_id args = Some nb /\ commit_id args = Some cid
           | KishuCommand_branch nb bn cid =>
               command args = Command.branch
               /\ notebook_id args = Some nb /\ branch_name args = Some bn
               /\ commit_id args = cid
           end)
  /\ (command args = Command.help ->
      exec args
      = inr (PrintHelp
               "commands: help | log | log_all | status | checkout | branch")).
Proof.
  destruct args as [c nb cid bn]. simpl.
  split; [|split; [|split]].
  - intros c'. destruct c, nb, cid, bn; done.
  - intros Hc ->. destruct c; done.
  - intros call. destruct c, nb, cid, bn; intros [= <-]; done.
  - intros ->. reflexivity.
Qed.

End CliFacts.

(** ** The properties on the example sessions *)

Lemma returned_eta {S A} (o : outcome S A) (a : A) :
  result o = inr a -> o = Returned a (final_state o).
Proof. destruct o; simpl; congruence. Qed.

Lemma raised_eta {S A} (o : outcome S A) (e : exn) :
  result o = inl e -> o = Raised e (final_state o).
Proof. destruct o; simpl; congruence. Qed.

Module Scenarios.
Import Planner PlannerFacts HookFacts PlanFacts Model.

Lemma session_keeps_fingerprints_witness :
  exists cvs p',
    run_cells [s3_cell1; s3_cell2] (fresh_planner false) = Returned cvs p'
    /\ length cvs = length [s3_cell1; s3_cell2]
    /\ all_fingerprinted p'.
Proof.
  apply (session_keeps_fingerprints [s3_cell1; s3_cell2] (fresh_planner false)).
  unfold all_fingerprinted. compute_done.
Defined.

Lemma added_and_deleted_disjoint_witness :
  added (changes_of s3_entering_cell2) ## deleted (changes_of s3_entering_cell2)
  /\ added (changes_of s3_entering_cell2) ⊆ keyset (_user_ns s3_entering_cell2)
  /\ deleted (changes_of s3_entering_cell2) ## keyset (_user_ns s3_entering_cell2)
  /\ deleted (changes_of s3_entering_cell2)
     ⊆ _pre_run_cell_vars s3_entering_cell2.
Proof.
  apply (added_and_deleted_disjoint s3_entering_cell2 (Some "xs.append(2)")
           None 200 (changes_of s3_entering_cell2) s3_updated).
  apply post_run_cell_update_returned, fingerprints_present_pairs.
  unfold fingerprints_present. compute_done.
Defined.

Lemma post_run_cell_update_frame_witness :
  dom (_id_graph_map s3_entering_cell2) ⊆ dom (_id_graph_map s3_updated)
  /\ (forall k,
        k ∉ modified_vars_structure (changes_of s3_entering_cell2) ->
        k ∉ created_vars (changes_of s3_entering_cell2) ->
        _id_graph_map s3_updated !! k = _id_graph_map s3_entering_cell2 !! k)
  /\ (forall k v,
        k ∈ modified_vars_structure (changes_of s3_entering_cell2)
            ∪ created_vars (changes_of s3_entering_cell2) ->
        ns_vars (_user_ns s3_entering_cell2) !! k = Some v ->
        _id_graph_map s3_updated !! k = Some (get_object_state v))
  /\ ns_vars (_user_ns s3_updated) = ns_vars (_user_ns s3_entering_cell2)
  /\ accessed_vars (_user_ns s3_updated) = ∅
  /\ _pre_run_cell_vars s3_updated = _pre_run_cell_vars s3_entering_cell2
  /\ _planner_context s3_updated = _planner_context s3_entering_cell2.
Proof.
  apply (post_run_cell_update_frame s3_entering_cell2 (Some "xs.append(2)")
           None 200 (changes_of s3_entering_cell2) s3_updated).
  apply post_run_cell_update_returned, fingerprints_present_pairs.
  unfold fingerprints_present. compute_done.
Defined.

Lemma ahg_receives_reported_changes_witness :
  exists args,
    _ahg s3_updated = update_graph (_ahg s3_entering_cell2) args
    /\ uga_cell args = Some "xs.append(2)"
    /\ uga_version args = 200
    /\ uga_cell_runtime_s args = default 0%Q None
    /\ uga_current_variables args = keyset (_user_ns s3_entering_cell2)
    /\ uga_modified_vars args
       = modified_vars_structure (changes_of s3_entering_cell2)
    /\ uga_deleted_vars args = deleted_vars (changes_of s3_entering_cell2)
    /\ created_vars (changes_of s3_entering_cell2)
       ⊆ uga_current_variables args
    /\ accessed_vars (_user_ns s3_entering_cell2)
         ∩ _pre_run_cell_vars s3_entering_cell2
       ⊆ uga_accessed_vars args
    /\ uga_accessed_vars args
       ⊆ accessed_vars (_user_ns s3_entering_cell2)
           ∩ _pre_run_cell_vars s3_entering_cell2
         ∪ modified_vars_structure (changes_of s3_entering_cell2).
Proof.
  apply (ahg_receives_reported_changes s3_entering_cell2
           (Some "xs.append(2)") None 200 (changes_of s3_entering_cell2)
           s3_updated).
  apply post_run_cell_update_returned, fingerprints_present_pairs.
  unfold fingerprints_present. compute_done.
Defined.

Lemma linked_pairs_of_bound_names_witness :
  NoDup (uga_linked_variable_pairs
           (update_graph_args_of alias_entering (Some "a = [1]; b = a")
              None 100))
  /\ (forall x y,
        (x, y) ∈ uga_linked_variable_pairs
                   (update_graph_args_of alias_entering
                      (Some "a = [1]; b = a") None 100) ->
        x <> y
        /\ x ∈ keyset (_user_ns alias_entering)
        /\ y ∈ keyset (_user_ns alias_entering)
        /\ ((y, x) ∉ uga_linked_variable_pairs
                       (update_graph_args_of alias_entering
                          (Some "a = [1]; b = a") None 100))
        /\ exists gx gy,
             _id_graph_map (after_changes alias_entering) !! x = Some gx
             /\ _id_graph_map (after_changes alias_entering) !! y = Some gy
             /\ is_overlap gx gy = true)
  /\ (forall x y gx gy,
        x ∈ keyset (_user_ns alias_entering) ->
        y ∈ keyset (_user_ns alias_entering) -> x <> y ->
        _id_graph_map (after_changes alias_entering) !! x = Some gx ->
        _id_graph_map (after_changes alias_entering) !! y = Some gy ->
        is_overlap gx gy = true -> is_overlap gy gx = true ->
        (x, y) ∈ uga_linked_variable_pairs
                   (update_graph_args_of alias_entering
                      (Some "a = [1]; b = a") None 100)
        \/ (y, x) ∈ uga_linked_variable_pairs
                      (update_graph_args_of alias_entering
                         (Some "a = [1]; b = a") None 100)).
Proof.
  apply (linked_pairs_of_bound_names alias_entering (Some "a = [1]; b = a")
           None 100 _ (changes_of alias_entering)).
  apply post_run_cell_changes_returned, fingerprints_present_pairs.
  unfold fingerprints_present. compute_done.
Defined.

(** The two names of the aliased list are linked, once. *)
Example alias_links_a_and_b :
  uga_linked_variable_pairs
    (update_graph_args_of alias_entering (Some "a = [1]; b = a") None 100)
  = [("a", "b")].
Proof. vm_compute. reflexivity. Qed.

Lemma stale_fingerprint_is_compared_witness :
  (forall k, k ∈ deleted_vars (changes_of recreate_entering) ->
             _id_graph_map
               (set_ahg (update_graph (_ahg recreate_entering)
                           (update_graph_args_of recreate_entering
                              (Some "x = [1]") None 300))
                  (after_changes recreate_entering)) !! k
             = _id_graph_map recreate_entering !! k)
  /\ (forall k old v,
        _id_graph_map recreate_entering !! k = Some old ->
        k ∉ _pre_run_cell_vars recreate_entering ->
        ns_vars (_user_ns recreate_entering) !! k = Some v ->
        k ∈ created_vars (changes_of recreate_entering)
        /\ (k ∈ modified_vars_structure (changes_of recreate_entering)
            <-> graph_eq old (get_object_state v) = false)
        /\ (k ∈ modified_vars_value (changes_of recreate_entering)
            <-> value_equals old (get_object_state v) = false)).
Proof.
  apply (stale_fingerprint_is_compared recreate_entering (Some "x = [1]")
           None 300).
  apply post_run_cell_update_returned, fingerprints_present_pairs.
  unfold fingerprints_present. compute_done.
Defined.

(** The name [x], deleted and bound again, is reported created and
    modified at once: its fingerprint from before the deletion was still
    on record. *)
Example recreated_name_is_created_and_modified :
  "x" ∈ dom (_id_graph_map recreate_entering)
  /\ changes_of recreate_entering
     = {| created_vars := {["x"]}; modified_vars_value := {["x"]};
          modified_vars_structure := {["x"]}; deleted_vars := ∅ |}.
Proof. split; [compute_done|]. vm_compute. reflexivity. Qed.

Lemma failed_update_is_not_recorded_witness :
  (exists k, KeyError "y" = KeyError k
             /\ k ∈ keyset (_user_ns untracked_entering)
             /\ (k ∉ dom (_id_graph_map untracked_failed)))
  /\ _ahg untracked_failed = _ahg untracked_entering
  /\ ns_vars (_user_ns untracked_failed)
     = ns_vars (_user_ns untracked_entering)
  /\ accessed_vars (_user_ns untracked_failed) = ∅
  /\ dom (_id_graph_map untracked_entering)
     ⊆ dom (_id_graph_map untracked_failed)
  /\ (forall k old v,
        _id_graph_map untracked_entering !! k = Some old ->
        ns_vars (_user_ns untracked_entering) !! k = Some v ->
        graph_eq old (get_object_state v) = false ->
        _id_graph_map untracked_failed !! k = Some (get_object_state v)).
Proof.
  apply (failed_update_is_not_recorded untracked_entering (Some "pass") None
           100 (KeyError "y") untracked_failed).
  apply raised_eta. reflexivity.
Defined.

Lemma session_updates_ahg_per_cell_witness :
  exists cvs argss p',
    run_cells [s3_cell1; s3_cell2] (fresh_planner false) = Returned cvs p'
    /\ _ahg p' = foldl update_graph (_ahg (fresh_planner false)) argss
    /\ uga_version <$> argss = cr_now <$> [s3_cell1; s3_cell2]
    /\ uga_cell <$> argss = cr_code <$> [s3_cell1; s3_cell2]
    /\ uga_current_variables <$> argss
       = (fun c => keyset (cr_after c)) <$> [s3_cell1; s3_cell2]
    /\ uga_modified_vars <$> argss = modified_vars_structure <$> cvs
    /\ uga_deleted_vars <$> argss = deleted_vars <$> cvs.
Proof.
  apply (session_updates_ahg_per_cell [s3_cell1; s3_cell2]
           (fresh_planner false)).
  unfold all_fingerprinted. compute_done.
Defined.

Lemma checkout_then_pre_run_witness :
  exists p',
    (replace_state (serialize Ahg.empty) (cr_after s3_cell1)
     ;; pre_run_cell_update) s3_entering_cell2
    = Returned tt p'
    /\ _ahg p' = Ahg.empty /\ _user_ns p' = cr_after s3_cell1
    /\ _pre_run_cell_vars p' = keyset (cr_after s3_cell1)
    /\ _id_graph_map p'
       = get_object_state
           <$> filter (fun kv => kv.1 ∈ get_variable_names Ahg.empty)
                 (ns_vars (cr_after s3_cell1)).
Proof.
  apply (checkout_then_pre_run s3_entering_cell2 (serialize Ahg.empty)
           (cr_after s3_cell1) Ahg.empty).
  vm_compute. reflexivity.
Defined.

Lemma s3_history :
  get_cell_executions (_ahg s3_after_cell1) = [s3_cell1_execution].
Proof. vm_compute. reflexivity. Qed.


(** On objects that have a [name], cell 0 is rerun and then loaded. *)
Example s3_rerun_then_load :
  result (_generate_restore_plan {[0]}
            {[ 0 := [Versioned {| vn_name := {["xs"]}; vn_version := 100 |}] ]}
            {[ 0 := ∅ ]} s3_after_cell1)
  = inr [RerunCell 0 "xs = [1]"; LoadVariable 0 ["xs"] []].
Proof. vm_compute. reflexivity. Qed.

Lemma unbound_active_name_raises_witness :
  exists k p',
    generate_checkpoint_restore_plans (st := storage ∅) "db" "c1" None
      s3_cleared
    = Raised (KeyError k) p'
    /\ (k ∉ keyset (_user_ns s3_cleared)).
Proof.
  apply (unbound_active_name_raises (st := storage ∅) "db" "c1" None
           s3_cleared s3_xs_snapshot "xs").
  - compute_done.
  - compute_done.
  - compute_done.
Defined.

Lemma non_incremental_ignores_store_witness :
  generate_checkpoint_restore_plans
    (st := Build_StorageOps LiveValue (fun values => Z.of_nat (length values))
             (fun _ _ => inr ∅))
    "db" "c1" None s3_after_cell1
  = generate_checkpoint_restore_plans
      (st := Build_StorageOps LiveValue
               (fun values => Z.of_nat (length values))
               (fun _ _ => inl (StoreError "unreadable")))
      "db" "c1" None s3_after_cell1.
Proof.
  apply (non_incremental_ignores_store
           (fun values => Z.of_nat (length values))
           (fun _ _ => inr ∅) (fun _ _ => inl (StoreError "unreadable"))
           "db" "c1" None s3_after_cell1).
  reflexivity.
Defined.

Lemma store_error_surfaces_witness :
  exists p',
    generate_checkpoint_restore_plans (st := unreadable_storage) "db" "c2"
      (Some ["c1"]) s6_planner
    = Raised (StoreError "unreadable") p'
    /\ _user_ns p' = _user_ns s6_planner
    /\ _id_graph_map s6_planner ⊆ _id_graph_map p'
    /\ (forall vs, vs ∈ get_active_variable_snapshots (_ahg s6_planner) ->
                   vs_name vs ⊆ dom (_id_graph_map p')).
Proof.
  apply (store_error_surfaces (st := unreadable_storage) "db" "c2"
           (Some ["c1"]) s6_planner (StoreError "unreadable")).
  - reflexivity.
  - apply Forall_forall. compute_done.
  - reflexivity.
Defined.

Lemma plan_migration_fingerprints_witness :
  _user_ns s3_planned = _user_ns s3_after_cell1
  /\ _pre_run_cell_vars s3_planned = _pre_run_cell_vars s3_after_cell1
  /\ _planner_context s3_planned = _planner_context s3_after_cell1
  /\ _id_graph_map s3_after_cell1 ⊆ _id_graph_map s3_planned
  /\ (forall vs, vs ∈ get_active_variable_snapshots (_ahg s3_after_cell1) ->
                 vs_name vs ⊆ keyset (_user_ns s3_after_cell1)
                 /\ vs_name vs ⊆ dom (_id_graph_map s3_planned))
  /\ (forall k g, _id_graph_map s3_planned !! k = Some g ->
                  _id_graph_map s3_after_cell1 !! k = Some g
                  \/ (_id_graph_map s3_after_cell1 !! k = None
                      /\ exists v,
                           ns_vars (_user_ns s3_after_cell1) !! k = Some v
                           /\ g = get_object_state v)).
Proof.
  apply (plan_migration_fingerprints (st := storage ∅) "db" None
           s3_after_cell1
           ({[ {| vn_name := {["xs"]}; vn_version := 100 |} ]}, ∅,
            {[ 0 := ∅ ]})
           s3_planned).
  apply returned_eta. reflexivity.
Defined.

Lemma optimizer_candidates_witness :
  exists candidates already_stored,
    ({[ {| vn_name := {["xs"]}; vn_version := 100 |} ]}, ∅, {[ 0 := ∅ ]})
    = compute_plan (_ahg s3_planned) candidates already_stored
    /\ (incremental_store (_planner_context s3_after_cell1) = false ->
        already_stored = None
        /\ candidates
           = sized (st := storage ∅) (_user_ns s3_after_cell1)
               <$> get_active_variable_snapshots (_ahg s3_after_cell1))
    /\ (incremental_store (_planner_context s3_after_cell1) = true ->
        exists stored,
          get_stored_versioned_names (StorageOps := storage ∅) "db"
            (default [] None) = inr stored
          /\ already_stored = Some stored
          /\ candidates
             = filter (fun vs => versioned_name vs ∉ stored)
                 (sized (st := storage ∅) (_user_ns s3_after_cell1)
                    <$> get_active_variable_snapshots (_ahg s3_after_cell1))).
Proof.
  apply (optimizer_candidates (st := storage ∅) "db" None s3_after_cell1
           ({[ {| vn_name := {["xs"]}; vn_version := 100 |} ]}, ∅,
            {[ 0 := ∅ ]})
           s3_planned).
  apply returned_eta. reflexivity.
Defined.

Lemma nothing_to_migrate_witness :
  generate_checkpoint_restore_plans (st := storage s6_stored) "db" "c2"
    (Some ["c1"]) s6_planner
  = Returned
      (if incremental_store (_planner_context s6_planner)
       then IncrementalCheckpointPlan_create "db" "c2" []
       else CheckpointPlan_create "db" "c2" [],
       rerun_of <$> filter (fun ce => cell_num ce ∈ (∅ : gset Z))
                      (get_cell_executions (_ahg s6_planned)))
      s6_planned.
Proof.
  refine (nothing_to_migrate (st := storage s6_stored) "db" "c2"
            (Some ["c1"]) s6_planner (∅ : gset Z) {[ 0 := ∅ ]} s6_planned _).
  apply returned_eta. reflexivity.
Defined.

Lemma migration_raises_attribute_error_witness :
  generate_checkpoint_restore_plans (st := storage ∅) "db" "c1" None
    s3_after_cell1
  = Raised (AttributeError "name") s3_planned.
Proof.
  apply (migration_raises_attribute_error (st := storage ∅) "db" "c1" None
           s3_after_cell1
           {[ {| vn_name := {["xs"]}; vn_version := 100 |} ]} ∅ {[ 0 := ∅ ]}
           s3_planned {| vn_name := {["xs"]}; vn_version := 100 |}
           (with_size 1 s3_xs_snapshot) s3_cell1_execution).
  - apply returned_eta. reflexivity.
  - intros vn' ->%elem_of_singleton. vm_compute. eauto.
  - by apply elem_of_singleton.
  - vm_compute. reflexivity.
  - vm_compute. left.
  - reflexivity.
Defined.

End Scenarios.
